(** * med-deck-enrichment: the package decoder of [scripts/extract_deck.py]

    A shallow embedding of the extraction script: the varint and manifest
    decoders, the container loader, the text sanitizer, the per-note
    transformation and the orchestrating [main]; and of the filter that
    [med_deck_enrichment/matcher.py] puts on the concepts QuickUMLS returns.
    The properties the specification states about them follow, and then
    further properties of the same code.

    Conventions.
    - Python [bytes] is [list byte]; an element read from it is the integer
      [byte_val b] in [0, 256).
    - Python [int] is [Z]; counters that only count up from zero are [nat].
    - Python [str] is a list of Unicode code points, [list N].
    - A call either returns, raises, or (for the fuelled loops) runs out of
      fuel; the two decoders are shown never to run out. *)

From Stdlib Require Import ZArith Lia List.
From Stdlib.Strings Require Import Byte Ascii String.
From stdpp Require Import base numbers list option gmap pretty.
From stdpp Require Import sorting.

Local Open Scope Z_scope.

(** ** Outcomes of a call *)

Inductive exn : Set :=
  | IndexError
  | KeyError
  | ValueError
  | UnicodeDecodeError
  | ZstdError
  | FileNotFoundError
  | DatabaseError
  | IntegrityError.

Inductive outcome (A : Type) : Type :=
  | Ok (a : A)
  | Raise (e : exn)
  | OutOfFuel.
Arguments Ok {A} a.
Arguments Raise {A} e.
Arguments OutOfFuel {A}.

Global Instance outcome_ret : MRet outcome := fun A a => Ok a.
Global Instance outcome_bind : MBind outcome := fun A B f m =>
  match m with
  | Ok a => f a
  | Raise e => Raise e
  | OutOfFuel => OutOfFuel
  end.

Definition returns {A} (m : outcome A) : Prop := exists a, m = Ok a.

(** ** Bytes, integers and strings *)

Abbreviation bytes := (list byte).
Abbreviation str := (list N).

Global Instance byte_eq_decision : EqDecision byte := Byte.byte_eq_dec.

Definition byte_val (b : byte) : Z := Z.of_N (Byte.to_N b).

Definition byte_of (z : Z) : byte :=
  match Byte.of_N (Z.to_N z) with
  | Some b => b
  | None => x00
  end.

Definition len {A} (l : list A) : Z := Z.of_nat (length l).

(** [l[i]] with Python's index rules: a negative index counts from the
    end, anything outside raises [IndexError]. *)
Definition getitem {A} (l : list A) (i : Z) : outcome A :=
  let j := if i <? 0 then i + len l else i in
  if (0 <=? j) && (j <? len l) then
    match l !! Z.to_nat j with
    | Some x => Ok x
    | None => Raise IndexError
    end
  else Raise IndexError.

(** [l[lo:hi]]: the bounds are normalised and clamped, never raising. *)
Definition slice_bound {A} (l : list A) (i : Z) : Z :=
  if i <? 0 then Z.max (i + len l) 0 else Z.min i (len l).

Definition slice {A} (l : list A) (lo hi : Z) : list A :=
  let a := slice_bound l lo in
  let b := slice_bound l hi in
  take (Z.to_nat (b - a)) (drop (Z.to_nat a) l).

(** A string literal as a [str]. *)
Definition lit (s : string) : str := map N_of_ascii (list_ascii_of_string s).

Definition chr (a : ascii) : N := N_of_ascii a.

(** [str(n)] for a non-negative integer: its decimal digits. *)
Definition str_of_nat (n : nat) : str := lit (pretty n).

(** ** The library functions the script calls

    The script relies on [pyzstd], [html], [sqlite3], on the Unicode
    tables behind [re] and [str.lower], and on the file system behind
    [pathlib].  They are not part of the repository and enter the model as
    an interface. *)
Record row := Row { row_id : Z; row_flds : str; row_tags : str }.

Class Platform := {
  (** [pyzstd.decompress]; [None] when the input is not a valid frame. *)
  zstd_decompress : bytes -> option bytes;
  (** [html.unescape]. *)
  html_unescape : str -> str;
  (** Unicode category Nd, the class [\d] of a [str] pattern. *)
  unicode_isdecimal : N -> bool;
  (** [str.lower]. *)
  str_lower : str -> str;
  (** [SELECT id, flds, tags FROM notes WHERE mid = ?] on the database file
      with the given bytes; [None] when [sqlite3] rejects the file or the
      query. *)
  sqlite_select_notes : bytes -> Z -> option (list row);
  (** [Path.write_bytes] on [MEDIA_DIR / filename], as the file system
      carries it out: from the files that lie directly in the media
      directory ([None] while the directory does not exist), the name and
      the data, the outcome of the write and the files of the directory
      after it.  Whether a name denotes a file of the directory, fails or
      leads elsewhere is the file system's matter; what a write does to
      paths outside the directory is not part of the model. *)
  write_bytes :
    option (gmap str bytes) -> str -> bytes ->
    outcome unit * option (gmap str bytes)
}.

(** ** [_read_varint] *)

(** The loop [while data[pos] & 0x80: ...] on the state
    [(value, shift, pos)]; it leaves the state at the first byte whose
    high bit is clear. *)
Fixpoint read_varint_loop (fuel : nat) (data : bytes) (value shift pos : Z)
  : outcome (Z * Z * Z) :=
  match fuel with
  | O => OutOfFuel
  | S fuel' =>
      b ← getitem data pos;
      if Z.land (byte_val b) 0x80 =? 0 then Ok (value, shift, pos)
      else
        read_varint_loop fuel' data
          (Z.lor value (Z.shiftl (Z.land (byte_val b) 0x7F) shift))
          (shift + 7) (pos + 1)
  end.

Definition _read_varint (data : bytes) (pos : Z) : outcome (Z * Z) :=
  '(value, shift, pos) ←
    read_varint_loop (S (Z.to_nat (len data - pos))) data 0 0 pos;
  b ← getitem data pos;
  Ok (Z.lor value (Z.shiftl (Z.land (byte_val b) 0x7F) shift), pos + 1).

(** The continuation flag of a byte and the value of a little-endian
    base-128 digit string, as the format defines them. *)
Definition has_more (b : byte) : Prop := Z.testbit (byte_val b) 7 = true.

Fixpoint base128 (bs : bytes) : Z :=
  match bs with
  | [] => 0
  | b :: bs' => byte_val b mod 128 + 128 * base128 bs'
  end.

(** Reference encoder of the format: seven bits per byte, least
    significant group first, the high bit set on every byte but the last. *)
Fixpoint encode_varint_fuel (fuel : nat) (n : Z) : bytes :=
  match fuel with
  | O => []
  | S fuel' =>
      if n <? 128 then [byte_of n]
      else byte_of (n mod 128 + 128) :: encode_varint_fuel fuel' (n / 128)
  end.

Definition encode_varint (n : Z) : bytes :=
  encode_varint_fuel (S (Z.to_nat (Z.log2 n))) n.

(** ** [bytes.decode("utf-8")]

    The strict decoder: shortest forms only, no surrogates, nothing above
    U+10FFFF. *)
Definition in_range (lo hi b : Z) : bool := (lo <=? b) && (b <=? hi).
Definition cont_bits (b : Z) : Z := Z.land b 0x3F.

Fixpoint utf8_go (bs : list Z) : option str :=
  match bs with
  | [] => Some []
  | b0 :: r0 =>
      if b0 <? 0x80 then cons (Z.to_N b0) <$> utf8_go r0
      else if in_range 0xC2 0xDF b0 then
        match r0 with
        | b1 :: r1 =>
            if in_range 0x80 0xBF b1 then
              cons (Z.to_N (Z.lor (Z.shiftl (Z.land b0 0x1F) 6) (cont_bits b1)))
                <$> utf8_go r1
            else None
        | _ => None
        end
      else if in_range 0xE0 0xEF b0 then
        match r0 with
        | b1 :: b2 :: r2 =>
            let lo := if b0 =? 0xE0 then 0xA0 else 0x80 in
            let hi := if b0 =? 0xED then 0x9F else 0xBF in
            if in_range lo hi b1 && in_range 0x80 0xBF b2 then
              cons (Z.to_N (Z.lor (Z.shiftl (Z.land b0 0x0F) 12)
                             (Z.lor (Z.shiftl (cont_bits b1) 6)
                                (cont_bits b2))))
                <$> utf8_go r2
            else None
        | _ => None
        end
      else if in_range 0xF0 0xF4 b0 then
        match r0 with
        | b1 :: b2 :: b3 :: r3 =>
            let lo := if b0 =? 0xF0 then 0x90 else 0x80 in
            let hi := if b0 =? 0xF4 then 0x8F else 0xBF in
            if in_range lo hi b1 && in_range 0x80 0xBF b2
               && in_range 0x80 0xBF b3 then
              cons (Z.to_N (Z.lor (Z.shiftl (Z.land b0 0x07) 18)
                             (Z.lor (Z.shiftl (cont_bits b1) 12)
                                (Z.lor (Z.shiftl (cont_bits b2) 6)
                                   (cont_bits b3)))))
                <$> utf8_go r3
            else None
        | _ => None
        end
      else None
  end.

Definition utf8_decode (bs : bytes) : outcome str :=
  match utf8_go (map byte_val bs) with
  | Some s => Ok s
  | None => Raise UnicodeDecodeError
  end.

(** ** Python [dict] with [str] keys

    A [dict] keeps its keys in insertion order; assigning to a present key
    keeps its place. *)
Definition pydict (V : Type) := list (str * V).

Fixpoint dict_set {V} (k : str) (v : V) (d : pydict V) : pydict V :=
  match d with
  | [] => [(k, v)]
  | (k', v') :: d' =>
      if decide (k' = k) then (k, v) :: d' else (k', v') :: dict_set k v d'
  end.

Fixpoint dict_get {V} (k : str) (d : pydict V) : option V :=
  match d with
  | [] => None
  | (k', v') :: d' => if decide (k' = k) then Some v' else dict_get k d'
  end.

Definition dict_keys {V} (d : pydict V) : list str := d.*1.

(** ** [parse_media_manifest] *)

(** The statement
    [if pos < entry_end and decompressed[pos] == 0x0A: ...] of the loop
    body: the manifest after it. *)
Definition record_filename (decompressed : bytes) (manifest : pydict str)
    (pos entry_end : Z) (entry_idx : nat) : outcome (pydict str) :=
  if pos <? entry_end then
    b ← getitem decompressed pos;
    if byte_val b =? 0x0A then
      let pos := pos + 1 in
      '(name_len, pos) ← _read_varint decompressed pos;
      filename ← utf8_decode (slice decompressed pos (pos + name_len));
      Ok (dict_set (str_of_nat entry_idx) filename manifest)
    else Ok manifest
  else Ok manifest.

(** The loop [while pos < len(decompressed)] on the state
    [(manifest, pos, entry_idx)]. *)
Fixpoint manifest_loop (fuel : nat) (decompressed : bytes)
    (manifest : pydict str) (pos : Z) (entry_idx : nat)
  : outcome (pydict str * Z * nat) :=
  match fuel with
  | O => OutOfFuel
  | S fuel' =>
      if pos <? len decompressed then
        b ← getitem decompressed pos;
        if negb (byte_val b =? 0x0A) then Ok (manifest, pos, entry_idx)
        else
          let pos := pos + 1 in
          '(outer_len, pos) ← _read_varint decompressed pos;
          let entry_end := pos + outer_len in
          manifest ←
            record_filename decompressed manifest pos entry_end entry_idx;
          manifest_loop fuel' decompressed manifest entry_end (S entry_idx)
      else Ok (manifest, pos, entry_idx)
  end.

(** The decoder on the decompressed buffer. *)
Definition manifest_run (decompressed : bytes)
  : outcome (pydict str * Z * nat) :=
  manifest_loop (S (length decompressed)) decompressed [] 0 0%nat.

Definition parse_manifest_bytes (decompressed : bytes) : outcome (pydict str) :=
  '(manifest, _, _) ← manifest_run decompressed;
  Ok manifest.

Definition parse_media_manifest `{Platform} (data : bytes)
  : outcome (pydict str) :=
  match zstd_decompress data with
  | Some decompressed => parse_manifest_bytes decompressed
  | None => Raise ZstdError
  end.

(** ** Well-formed manifests

    The layout the decoder expects: a sequence of entries, each the tag
    [0x0A], the length of the body as a varint, and the body; the body of an
    entry with a filename starts with the tag [0x0A], the length of the name
    and the name in UTF-8, and may carry further fields. *)
Inductive entry : Type :=
  | Named (name rest : bytes)
  | Unnamed (body : bytes).

Definition entry_body (e : entry) : bytes :=
  match e with
  | Named name rest => x0a :: encode_varint (len name) ++ name ++ rest
  | Unnamed body => body
  end.

Definition encode_entry (e : entry) : bytes :=
  x0a :: encode_varint (len (entry_body e)) ++ entry_body e.

Definition encode_manifest (es : list entry) : bytes :=
  concat (map encode_entry es).

(** The filename an entry carries, if it carries one. *)
Definition entry_name (e : entry) : option str :=
  match e with
  | Named name _ => utf8_go (map byte_val name)
  | Unnamed _ => None
  end.

(** An entry is well formed when its name is valid UTF-8 or, having no
    name field, its body does not start with the name tag. *)
Definition entry_ok (e : entry) : Prop :=
  match e with
  | Named name _ => is_Some (utf8_go (map byte_val name))
  | Unnamed body => head body <> Some x0a
  end.

(** The manifest after the entries [es], the first of which has index
    [idx], have been recorded onto [m]. *)
Fixpoint record_entries (idx : nat) (es : list entry) (m : pydict str)
  : pydict str :=
  match es with
  | [] => m
  | e :: es' =>
      record_entries (S idx) es'
        (match entry_name e with
         | Some filename => dict_set (str_of_nat idx) filename m
         | None => m
         end)
  end.

(** The only ways the decoder ends: it returns, or one of its reads falls
    off the buffer, or a name is not UTF-8. *)
Definition ends_well {A} (r : outcome A) : Prop :=
  returns r \/ r = Raise IndexError \/ r = Raise UnicodeDecodeError.

(** The decoded slot numbers are exactly [0 .. count-1]. *)
Definition slots_gapless (count : nat) (m : pydict str) : Prop :=
  forall i : nat, (i < count)%nat <-> is_Some (dict_get (str_of_nat i) m).

(** ** Regular expressions

    The fragment of [re] the script's five patterns use: single characters
    and character classes, a class repeated at least [min] times, greedily
    or lazily, and one capturing group.  Matching is the backtracking search
    of [re]: alternatives are tried in priority order and the first
    success wins. *)
Inductive item : Type :=
  | One (c : N -> bool)
  | Many (c : N -> bool) (min : nat) (greedy : bool)
  | GroupOpen
  | GroupClose.

Definition regex := list item.

(** A class repeated: [k] continues the match after the repetition, [n]
    counts the characters consumed since the start of the match. *)
Fixpoint rep {R} (k : str -> nat -> option R) (c : N -> bool) (min : nat)
    (greedy : bool) (s : str) (n : nat) {struct s} : option R :=
  match min with
  | S min' =>
      match s with
      | a :: s' => if c a then rep k c min' greedy s' (S n) else None
      | [] => None
      end
  | O =>
      if greedy then
        match
          match s with
          | a :: s' => if c a then rep k c O greedy s' (S n) else None
          | [] => None
          end
        with
        | Some r => Some r
        | None => k s n
        end
      else
        match k s n with
        | Some r => Some r
        | None =>
            match s with
            | a :: s' => if c a then rep k c O greedy s' (S n) else None
            | [] => None
            end
        end
  end.

(** [run re s n g]: match [re] against a prefix of [s]; the result is the
    number of characters of the whole match and the span of group 1, both
    counted from the start of the match. *)
Fixpoint run (re : regex) (s : str) (n : nat) (g : nat * nat)
  : option (nat * (nat * nat)) :=
  match re with
  | [] => Some (n, g)
  | One c :: re' =>
      match s with
      | a :: s' => if c a then run re' s' (S n) g else None
      | [] => None
      end
  | Many c min greedy :: re' =>
      rep (fun s' n' => run re' s' n' g) c min greedy s n
  | GroupOpen :: re' => run re' s n (n, g.2)
  | GroupClose :: re' => run re' s n (g.1, n)
  end.

Definition match_here (re : regex) (s : str) : option (nat * (nat * nat)) :=
  run re s 0%nat (0%nat, 0%nat).

(** The scan shared by [sub], [finditer] and [findall]: the leftmost
    matches, none overlapping another, and the characters between them.
    No pattern of the script matches the empty string, so a match of length
    zero is not distinguished from no match. *)
Inductive token : Type :=
  | Text (a : N)
  | Match (group0 group1 : str).

Fixpoint scan (re : regex) (s : str) (skip : nat) : list token :=
  match s with
  | [] => []
  | a :: s' =>
      match skip with
      | S k => scan re s' k
      | O =>
          match match_here re s with
          | Some (S n, (gs, ge)) =>
              Match (take (S n) s) (take (ge - gs) (drop gs s))
                :: scan re s' n
          | _ => Text a :: scan re s' O
          end
      end
  end.

(** The least number of characters a match of [re] consumes. *)
Fixpoint min_length (re : regex) : nat :=
  match re with
  | [] => 0
  | One _ :: re' => S (min_length re')
  | Many _ min _ :: re' => min + min_length re'
  | GroupOpen :: re' | GroupClose :: re' => min_length re'
  end.

(** [pattern.finditer(s)], each match as [(group(0), group(1))]. *)
Definition finditer (re : regex) (s : str) : list (str * str) :=
  omap (fun t => match t with
                 | Match g0 g1 => Some (g0, g1)
                 | Text _ => None
                 end) (scan re s 0).

(** [pattern.findall(s)] for a pattern with one group. *)
Definition findall (re : regex) (s : str) : list str := (finditer re s).*2.

(** [pattern.sub(f, s)] for a function [f] with a state: [f] receives
    [group(0)] of each match, left to right. *)
Definition sub_fn {S} (re : regex) (f : S -> str -> S * str) (st : S) (s : str)
  : S * str :=
  foldl (fun '(st, out) t =>
           match t with
           | Text a => (st, out ++ [a])
           | Match g0 _ => let '(st', r) := f st g0 in (st', out ++ r)
           end) (st, []) (scan re s 0).

(** [pattern.sub(repl, s)] for a replacement without escapes. *)
Definition sub (re : regex) (repl : str) (s : str) : str :=
  (sub_fn re (fun (_ : unit) _ => (tt, repl)) tt s).2.

(** ** String methods *)

(** [str.isspace] on one character, also the class [\s]. *)
Definition is_space (c : N) : bool :=
  ((0x09 <=? c) && (c <=? 0x0D) || (0x1C <=? c) && (c <=? 0x20)
   || (c =? 0x85) || (c =? 0xA0) || (c =? 0x1680)
   || (0x2000 <=? c) && (c <=? 0x200A)
   || (c =? 0x2028) || (c =? 0x2029) || (c =? 0x202F) || (c =? 0x205F)
   || (c =? 0x3000))%N.

Fixpoint lstrip (s : str) : str :=
  match s with
  | a :: s' => if is_space a then lstrip s' else s
  | [] => []
  end.

(** [s.strip()] *)
Definition strip (s : str) : str := rev (lstrip (rev (lstrip s))).

Fixpoint starts_with (p s : str) : bool :=
  match p, s with
  | [], _ => true
  | a :: p', b :: s' => (a =? b)%N && starts_with p' s'
  | _ :: _, [] => false
  end.

Fixpoint replace_go (old new s : str) (skip : nat) : str :=
  match s with
  | [] => []
  | a :: s' =>
      match skip with
      | S k => replace_go old new s' k
      | O =>
          if starts_with old s then
            new ++ replace_go old new s' (length old - 1)
          else a :: replace_go old new s' O
      end
  end.

(** [s.replace(old, new)] *)
Definition str_replace (old new s : str) : str :=
  match old with
  | [] => new ++ concat (map (fun a => a :: new) s)
  | _ => replace_go old new s 0
  end.

(** [s.split(sep)] for a separator of one character. *)
Fixpoint split (sep : N) (s : str) : list str :=
  match s with
  | [] => [[]]
  | a :: s' =>
      if (a =? sep)%N then [] :: split sep s'
      else
        match split sep s' with
        | field :: fields => (a :: field) :: fields
        | [] => [[a]]
        end
  end.

(** ** The constants and patterns of the script *)

Definition ANKING_MODEL_ID : Z := 1659130414530.
Definition FIELD_SEP : N := 0x1F.

Definition IDX_TEXT : Z := 0.
Definition IDX_EXTRA : Z := 1.
Definition IDX_ONE_BY_ONE : Z := 16.

Definition is_char (a : ascii) : N -> bool := fun c => (c =? chr a)%N.
Definition not_char (a : ascii) : N -> bool := fun c => negb (c =? chr a)%N.
Definition one_of (l : list N) : N -> bool := fun c => bool_decide (c ∈ l).

(** A cased letter of a pattern compiled with [re.IGNORECASE]: the
    characters whose lower case is the letter or one of its case-folding
    partners.  Besides the two ASCII cases these are U+0130 and U+0131 for
    [i] and U+017F for [s]. *)
Definition is_i : N -> bool := one_of [chr "i"; chr "I"; 0x130; 0x131]%N.
Definition is_m : N -> bool := one_of [chr "m"; chr "M"].
Definition is_g : N -> bool := one_of [chr "g"; chr "G"].
Definition is_s : N -> bool := one_of [chr "s"; chr "S"; 0x17F]%N.
Definition is_r : N -> bool := one_of [chr "r"; chr "R"].
Definition is_c : N -> bool := one_of [chr "c"; chr "C"].

(** The class of the two quote characters, U+0022 and U+0027. *)
Definition is_quote : N -> bool := one_of [0x22; 0x27]%N.
Definition not_quote : N -> bool := fun c => negb (is_quote c).

Section patterns.
Context `{Platform}.

(** [\{\{c(\d+)::] *)
Definition RE_CLOZE_NUM : regex :=
  [One (is_char "{"); One (is_char "{"); One (is_char "c");
   GroupOpen; Many unicode_isdecimal 1 true; GroupClose;
   One (is_char ":"); One (is_char ":")].

(** [<img\s[^>]*?src\s*=\s*Q([^Q]+)Q[^>]*?>], ignoring case, where [Q]
    stands for the class of the two quote characters and [^Q] for its
    complement. *)
Definition RE_IMG_TAG : regex :=
  [One (is_char "<"); One is_i; One is_m; One is_g; One is_space;
   Many (not_char ">") 0 false;
   One is_s; One is_r; One is_c; Many is_space 0 true;
   One (is_char "="); Many is_space 0 true;
   One is_quote; GroupOpen; Many not_quote 1 true; GroupClose; One is_quote;
   Many (not_char ">") 0 false; One (is_char ">")].

(** [\[sound:([^\]]+)\]] *)
Definition RE_SOUND_REF : regex :=
  [One (is_char "["); One (is_char "s"); One (is_char "o"); One (is_char "u");
   One (is_char "n"); One (is_char "d"); One (is_char ":");
   GroupOpen; Many (not_char "]") 1 true; GroupClose; One (is_char "]")].

(** [<[^>]+>] *)
Definition RE_HTML_TAG : regex :=
  [One (is_char "<"); Many (not_char ">") 1 true; One (is_char ">")].

(** [\n{3,}] *)
Definition RE_MULTI_NEWLINE : regex :=
  [Many (fun c => (c =? 10)%N) 3 true].

(** ** [clean_text] *)

(** The placeholder [f"\x00IMG{i}\x00"]. *)
Definition placeholder (i : nat) : str :=
  [0%N] ++ lit "IMG" ++ str_of_nat i ++ [0%N].

(** The nested function [_save_img], with the list it appends to as its
    state. *)
Definition _save_img (img_placeholders : list str) (group0 : str)
  : list str * str :=
  let img_placeholders := img_placeholders ++ [group0] in
  (img_placeholders, placeholder (length img_placeholders - 1)).

(** The loop [for i, img in enumerate(img_placeholders)]. *)
Definition restore_imgs (img_placeholders : list str) (text : str) : str :=
  foldl (fun text '(i, img) => str_replace (placeholder i) img text)
    text (imap pair img_placeholders).

Definition clean_text (raw : str) : str :=
  let '(img_placeholders, text) := sub_fn RE_IMG_TAG _save_img [] raw in
  let text := html_unescape text in
  let text := sub RE_HTML_TAG [] text in
  let text := restore_imgs img_placeholders text in
  let text := strip text in
  let text := sub RE_MULTI_NEWLINE [10; 10]%N text in
  text.

(** ** [count_cloze_numbers], [is_one_by_one_truthy], [collect_media_refs] *)

Definition count_cloze_numbers (text : str) : Z :=
  Z.of_nat (size (list_to_set (findall RE_CLOZE_NUM text) : gset str)).

Definition is_one_by_one_truthy (value : str) : bool :=
  let cleaned := str_lower (strip (sub RE_HTML_TAG [] value)) in
  bool_decide (cleaned <> []).

Definition collect_media_refs (text extra : str) : gset str :=
  foldl (fun (refs : gset str) field =>
           let refs := refs ∪ list_to_set (findall RE_IMG_TAG field) in
           refs ∪ list_to_set (findall RE_SOUND_REF field))
    ∅ [text; extra].

End patterns.

(** ** The world [main] runs in

    The archive at [APKG_PATH], the temporary files, the output directory,
    the table [source_notes] of the output database and the media directory
    with its files.  What [main] prints is not modelled. *)
Record note := Note {
  note_id : Z;
  note_text : str;
  note_extra : str;
  num_cards : Z;
  one_by_one : Z;
  note_tags : str
}.

(** The members of a zip archive in directory order, names possibly
    repeated. *)
Definition archive := list (str * bytes).

Record world := World {
  apkg : option archive;
  tmp_files : gmap nat bytes;
  output_dir : bool;
  source_notes : option (list note);
  media_dir : option (gmap str bytes)
}.

Definition io (A : Type) : Type := world -> outcome A * world.

Definition io_ret {A} (a : A) : io A := fun w => (Ok a, w).

Definition io_bind {A B} (m : io A) (f : A -> io B) : io B := fun w =>
  match m w with
  | (Ok a, w') => f a w'
  | (Raise e, w') => (Raise e, w')
  | (OutOfFuel, w') => (OutOfFuel, w')
  end.

Definition io_lift {A} (r : outcome A) : io A := fun w => (r, w).

Definition io_raise {A} (e : exn) : io A := io_lift (Raise e).

(** [try: body finally: cleanup] *)
Definition try_finally {A} (body : io A) (cleanup : io unit) : io A := fun w =>
  let '(r, w') := body w in
  match cleanup w' with
  | (Ok _, w'') => (r, w'')
  | (Raise e, w'') => (Raise e, w'')
  | (OutOfFuel, w'') => (OutOfFuel, w'')
  end.

Declare Scope io_scope.
Delimit Scope io_scope with io.
Notation "x <- m ;; k" := (io_bind m (fun x => k))
  (at level 100, m at next level, right associativity) : io_scope.
Notation "m ;; k" := (io_bind m (fun _ => k))
  (at level 100, right associativity) : io_scope.

(** *** Zip archives *)

Definition namelist (zf : archive) : list str := zf.*1.

(** The member a name denotes: the last one of that name. *)
Fixpoint getinfo (zf : archive) (name : str) : option bytes :=
  match zf with
  | [] => None
  | (n, content) :: zf' =>
      match getinfo zf' name with
      | Some later => Some later
      | None => if decide (n = name) then Some content else None
      end
  end.

(** [zf.read(name)] *)
Definition zf_read (zf : archive) (name : str) : outcome bytes :=
  match getinfo zf name with
  | Some content => Ok content
  | None => Raise KeyError
  end.

(** *** Temporary files *)

(** [tempfile.NamedTemporaryFile(suffix=".sqlite", delete=False)]: a new,
    empty file under a name not in use. *)
Definition named_temporary_file : io nat := fun w =>
  let tmp_path := fresh (dom (tmp_files w)) in
  (Ok tmp_path,
   World (apkg w) (<[tmp_path := []]> (tmp_files w)) (output_dir w)
     (source_notes w) (media_dir w)).

(** [tmp.write(data)] *)
Definition tmp_write (tmp_path : nat) (data : bytes) : io unit := fun w =>
  (Ok tt,
   World (apkg w) (alter (fun old => old ++ data) tmp_path (tmp_files w))
     (output_dir w) (source_notes w) (media_dir w)).

(** [tmp_path.unlink()] *)
Definition unlink (tmp_path : nat) : io unit := fun w =>
  match tmp_files w !! tmp_path with
  | Some _ =>
      (Ok tt,
       World (apkg w) (delete tmp_path (tmp_files w)) (output_dir w)
         (source_notes w) (media_dir w))
  | None => (Raise FileNotFoundError, w)
  end.

(** The bytes of a temporary file, as [sqlite3.connect] finds them. *)
Definition tmp_contents (tmp_path : nat) : io bytes := fun w =>
  match tmp_files w !! tmp_path with
  | Some db => (Ok db, w)
  | None => (Raise DatabaseError, w)
  end.

(** *** The output *)

(** [OUTPUT_DIR.mkdir(parents=True, exist_ok=True)] *)
Definition mkdir_output : io unit := fun w =>
  (Ok tt, World (apkg w) (tmp_files w) true (source_notes w) (media_dir w)).

(** [DROP TABLE IF EXISTS], [CREATE TABLE], [executemany(INSERT ...)] and
    [commit] on the output database.  The two table statements take effect
    at once; the rows are inserted in one transaction, which a repeated
    primary key aborts. *)
Definition write_notes (notes : list note) : io unit := fun w =>
  if decide (NoDup (note_id <$> notes)) then
    (Ok tt,
     World (apkg w) (tmp_files w) (output_dir w) (Some notes) (media_dir w))
  else
    (Raise IntegrityError,
     World (apkg w) (tmp_files w) (output_dir w) (Some []) (media_dir w)).

(** [shutil.rmtree(MEDIA_DIR)] when it exists, then
    [MEDIA_DIR.mkdir(parents=True)]. *)
Definition reset_media_dir : io unit := fun w =>
  (Ok tt,
   World (apkg w) (tmp_files w) true (source_notes w) (Some ∅)).

(** [(MEDIA_DIR / filename).write_bytes(data)]: the file system decides
    what the name denotes and whether the write succeeds. *)
Definition write_media `{Platform} (filename : str) (data : bytes) : io unit :=
  fun w =>
    let '(r, dir) := write_bytes (media_dir w) filename data in
    (r, World (apkg w) (tmp_files w) (output_dir w) (source_notes w) dir).

Section program.
Context `{Platform}.
Local Open Scope io_scope.

(** ** [extract_collection_db] *)

Definition anki21b : str := lit "collection.anki21b".
Definition anki2 : str := lit "collection.anki2".

Definition decompress (data : bytes) : outcome bytes :=
  match zstd_decompress data with
  | Some out => Ok out
  | None => Raise ZstdError
  end.

Definition extract_collection_db (zf : archive) : io nat :=
  tmp_path <- named_temporary_file ;;
  if decide (anki21b ∈ namelist zf) then
    compressed <- io_lift (zf_read zf anki21b) ;;
    decompressed <- io_lift (decompress compressed) ;;
    tmp_write tmp_path decompressed ;;
    io_ret tmp_path
  else if decide (anki2 ∈ namelist zf) then
    data <- io_lift (zf_read zf anki2) ;;
    tmp_write tmp_path data ;;
    io_ret tmp_path
  else
    unlink tmp_path ;;
    io_raise ValueError.

(** ** [main] *)

(** The body of the loop [for note_id, flds, tags in rows]: the note and
    the media references of one row. *)
Definition transform_note (r : row) : outcome (note * gset str) :=
  let fields := split FIELD_SEP (row_flds r) in
  raw_text ← getitem fields IDX_TEXT;
  raw_extra ← getitem fields IDX_EXTRA;
  raw_one_by_one ←
    (if IDX_ONE_BY_ONE <? len fields then getitem fields IDX_ONE_BY_ONE
     else Ok []);
  let text := clean_text raw_text in
  let extra := clean_text raw_extra in
  let num_cards := count_cloze_numbers raw_text in
  let one_by_one := if is_one_by_one_truthy raw_one_by_one then 1 else 0 in
  let refs :=
    collect_media_refs text extra ∪ collect_media_refs raw_text raw_extra in
  Ok (Note (row_id r) text extra num_cards one_by_one (row_tags r), refs).

Fixpoint transform_all (rows : list row) (all_media_refs : gset str)
    (notes : list note) : outcome (gset str * list note) :=
  match rows with
  | [] => Ok (all_media_refs, notes)
  | r :: rows' =>
      '(n, refs) ← transform_note r;
      transform_all rows' (all_media_refs ∪ refs) (notes ++ [n])
  end.

(** [{v: k for k, v in manifest.items()}] *)
Definition invert (manifest : pydict str) : pydict str :=
  foldl (fun d '(k, v) => dict_set v k d) [] manifest.

(** The loop [for filename in referenced].  Python does not fix the order
    in which a set is iterated; the caller passes the elements in the order
    of [elements]. *)
Fixpoint copy_media (zf : archive) (filename_to_entry : pydict str)
    (referenced : list str) : io unit :=
  match referenced with
  | [] => io_ret tt
  | filename :: rest =>
      match dict_get filename filename_to_entry with
      | Some entry_num =>
          data <- io_lift (zf_read zf entry_num) ;;
          write_media filename data ;;
          copy_media zf filename_to_entry rest
      | None => io_raise KeyError
      end
  end.

(** The query stage: [sqlite3.connect(tmp_db_path)] and the [SELECT]. *)
Definition query_notes (tmp_db_path : nat) : io (list row) :=
  db <- tmp_contents tmp_db_path ;;
  match sqlite_select_notes db ANKING_MODEL_ID with
  | Some rows => io_ret rows
  | None => io_raise DatabaseError
  end.

(** The body of [with zipfile.ZipFile(APKG_PATH, "r") as zf]. *)
Definition run_on (zf : archive) : io unit :=
  tmp_db_path <- extract_collection_db zf ;;
  rows <- try_finally (query_notes tmp_db_path) (unlink tmp_db_path) ;;
  transformed <- io_lift (transform_all rows ∅ []) ;;
  let '(all_media_refs, notes) := transformed in
  mkdir_output ;;
  write_notes notes ;;
  media <- io_lift (zf_read zf (lit "media")) ;;
  manifest <- io_lift (parse_media_manifest media) ;;
  let filename_to_entry := invert manifest in
  let referenced :=
    filter (fun f => f ∈ dict_keys filename_to_entry) all_media_refs in
  reset_media_dir ;;
  copy_media zf filename_to_entry (elements referenced).

Definition main : io unit := fun w =>
  match apkg w with
  | None => (Raise FileNotFoundError, w)
  | Some zf => run_on zf w
  end.

End program.

(** ** An instance of the library interface

    Enough of the libraries to run the model on concrete inputs.  A frame
    is the zstd magic number followed by the payload, stored as it is; a
    text without character references is its own unescaping; the decimal
    digits and the cased letters are the ASCII ones; a database file is
    the UTF-8 text of the [flds] of its notes, one note per line, all of
    the queried note type. *)
Definition stored_frame (data : bytes) : option bytes :=
  if decide (take 4 data = [x28; xb5; x2f; xfd]) then Some (drop 4 data)
  else None.

Definition ascii_isdecimal (c : N) : bool := ((48 <=? c) && (c <=? 57))%N.

Definition ascii_lower (s : str) : str :=
  map (fun c => if ((65 <=? c) && (c <=? 90))%N then (c + 32)%N else c) s.

Definition notes_of_lines (db : bytes) (mid : Z) : option (list row) :=
  match utf8_go (map byte_val db) with
  | Some text =>
      Some (imap (fun i flds => Row (Z.of_nat i + 1) flds []) (split 10%N text))
  | None => None
  end.

(** A file system that takes a name as a file of the directory when it is
    not empty, holds no separator and no NUL, and is neither [.] nor [..],
    and refuses every other write. *)
Definition plain_name (filename : str) : bool :=
  bool_decide (filename <> [] /\ (chr "/" ∉ filename) /\ (0%N ∉ filename) /\
               filename <> lit "." /\ filename <> lit "..").

Definition flat_write (dir : option (gmap str bytes)) (filename : str)
    (data : bytes) : outcome unit * option (gmap str bytes) :=
  match dir with
  | Some files =>
      if plain_name filename then (Ok tt, Some (<[filename := data]> files))
      else (Raise FileNotFoundError, Some files)
  | None => (Raise FileNotFoundError, None)
  end.

Definition test_platform : Platform := {|
  zstd_decompress := stored_frame;
  html_unescape := fun s => s;
  unicode_isdecimal := ascii_isdecimal;
  str_lower := ascii_lower;
  sqlite_select_notes := notes_of_lines;
  write_bytes := flat_write
|}.

(** The bytes of an ASCII literal. *)
Definition blit (s : string) : bytes := list_byte_of_string s.

(** Sample packages: one with both database entries, one with the legacy
    entry only, one with no database, one whose database is not a frame. *)
Definition frame (payload : bytes) : bytes := [x28; xb5; x2f; xfd] ++ payload.

Definition both_archive : archive :=
  [(lit "collection.anki2", blit "old");
   (lit "collection.anki21b", frame (blit "new"))].

Definition legacy_archive : archive := [(lit "collection.anki2", blit "old")].

Definition no_db_archive : archive := [(lit "media", frame [])].

Definition broken_archive : archive :=
  [(lit "collection.anki21b", blit "not a frame")].

(** A world with the package in place and nothing else. *)
Definition start (zf : archive) : world := World (Some zf) ∅ false None None.

(** A package with one note, whose text shows the image [a.png] and whose
    extra field plays the sound [b.mp3]; the manifest names [a.png] at slot
    0.  The same package without its [media] member, and without the member
    of slot 0. *)
Definition deck_db : bytes :=
  blit "see <img src='a.png'>" ++ [x1f] ++ blit "extra [sound:b.mp3]".

Definition deck_manifest : bytes :=
  frame (encode_manifest [Named (blit "a.png") []]).

Definition deck_archive : archive :=
  [(lit "collection.anki2", deck_db); (lit "media", deck_manifest);
   (lit "0", blit "PNG")].

Definition no_media_archive : archive := [(lit "collection.anki2", deck_db)].

Definition no_member_archive : archive :=
  [(lit "collection.anki2", deck_db); (lit "media", deck_manifest)].

Definition deck_rows : list row :=
  [Row 1 (lit "see <img src='a.png'>" ++ [FIELD_SEP] ++ lit "extra [sound:b.mp3]")
     []].

Definition deck_notes : list note :=
  [Note 1 (lit "see <img src='a.png'>") (lit "extra [sound:b.mp3]") 0 0 []].

Definition deck_refs : gset str := {[ lit "a.png"; lit "b.mp3" ]}.

(** The world after the loader has run on such a package. *)
Definition loaded (zf : archive) : world :=
  World (Some zf) {[ 0%nat := deck_db ]} false None None.

(** Packages whose database is not one (here: not UTF-8), and whose only
    note has a single field. *)
Definition bad_db_archive : archive := [(lit "collection.anki2", [xff])].

Definition short_archive : archive :=
  [(lit "collection.anki2", blit "one field")].

(** ** Vocabulary of the properties *)

(** A step that leaves the set of temporary files as it found it. *)
Definition preserves_tmp {A} (m : io A) : Prop :=
  forall w r w', m w = (r, w') -> tmp_files w' = tmp_files w.

(** A step that leaves the output (directory, table, media) untouched. *)
Definition same_output (w w' : world) : Prop :=
  output_dir w' = output_dir w /\
  source_notes w' = source_notes w /\
  media_dir w' = media_dir w.

(** The cloze-group number [N] occurs in [text]: somewhere in [text] stands
    the opener of a cloze deletion, [{{c], a non-empty run of decimal
    digits [N], and [::]. *)
Definition cloze_opener `{Platform} (N text : str) : Prop :=
  N <> [] /\
  Forall (fun c => unicode_isdecimal c = true) N /\
  exists pre post, text = pre ++ lit "{{c" ++ N ++ lit "::" ++ post.

(** A string cut after its longest prefix of characters of a class. *)
Definition stops {A} (c : A -> bool) (rest : list A) : Prop :=
  match rest with
  | [] => True
  | a :: _ => c a = false
  end.

(** A whole cloze deletion of group [N] occurs in [text]: the opener and,
    somewhere after it, the closing braces. *)
Definition cloze_pattern `{Platform} (N text : str) : Prop :=
  N <> [] /\
  Forall (fun c => unicode_isdecimal c = true) N /\
  exists pre body post,
    text = pre ++ lit "{{c" ++ N ++ lit "::" ++ body ++ lit "}}" ++ post.

(** The text of a scan with the [i]-th match, counted from [first],
    replaced by the placeholder of index [i]. *)
Fixpoint protected (tokens : list token) (first : nat) : str :=
  match tokens with
  | [] => []
  | Text a :: tokens' => a :: protected tokens' first
  | Match _ _ :: tokens' => placeholder first ++ protected tokens' (S first)
  end.

(** The markup of the matches of a scan, in order. *)
Fixpoint matched (tokens : list token) : list str :=
  match tokens with
  | [] => []
  | Text _ :: tokens' => matched tokens'
  | Match g0 _ :: tokens' => g0 :: matched tokens'
  end.

(** ** Vocabulary of the image property *)








(** ** The language of a pattern

    What a match of [re] on a prefix of [s] looks like, without the order
    in which the matcher tries the alternatives: [accepts re s n g r] when
    [re] can consume a prefix of [s], counting from [n] with the group span
    [g], and end with the count and span [r]. *)
Fixpoint accepts (re : regex) (s : str) (n : nat) (g : nat * nat)
    (r : nat * (nat * nat)) : Prop :=
  match re with
  | [] => r = (n, g)
  | One c :: re' =>
      exists a s', s = a :: s' /\ c a = true /\ accepts re' s' (S n) g r
  | Many c min _ :: re' =>
      exists ds rest,
        s = ds ++ rest /\ Forall (fun a => c a = true) ds /\
        (min <= length ds)%nat /\ accepts re' rest (n + length ds)%nat g r
  | GroupOpen :: re' => accepts re' s n (n, g.2) r
  | GroupClose :: re' => accepts re' s n (g.1, n) r
  end.

(** The text a substitution builds from a scan: the characters between the
    matches and [repl] for every match. *)
Definition emit (repl : str) (tokens : list token) : str :=
  concat (map (fun t => match t with
                        | Text a => [a]
                        | Match _ _ => repl
                        end) tokens).

(** [f] stands in [s] as an audio marker, [[sound:f]]. *)
Definition sound_marker (f s : str) : Prop :=
  (chr "]" ∉ f) /\
  exists pre post, s = pre ++ lit "[sound:" ++ f ++ lit "]" ++ post.

(** [f] stands in [s] between two quote characters, inside markup that
    opens with [<] and runs to a [>] with no other [>] outside [f]. *)
Definition quoted_in_element (f s : str) : Prop :=
  Forall (fun c => is_quote c = false) f /\
  exists pre inside q1 q2 tail post,
    s = pre ++ chr "<" :: inside ++ q1 :: f ++ q2 :: tail ++ chr ">" :: post /\
    is_quote q1 = true /\ is_quote q2 = true /\
    (chr ">" ∉ inside) /\ (chr ">" ∉ tail).

(** The keys of a manifest are the decimal strings of strictly increasing
    slot numbers, all below [idx]. *)
Definition slots_below (idx : nat) (m : pydict str) : Prop :=
  exists slots : list nat,
    dict_keys m = str_of_nat <$> slots /\
    StronglySorted lt slots /\
    Forall (fun i => (i < idx)%nat) slots.

(** One pass over a text that keeps the first two newlines of every run of
    newlines and drops the others; [seen] counts the newlines of the
    current run already passed. *)
Fixpoint squeeze (seen : nat) (s : str) : str :=
  match s with
  | [] => []
  | a :: s' =>
      if (a =? 10)%N then
        if (seen <? 2)%nat then a :: squeeze (S seen) s'
        else squeeze (S seen) s'
      else a :: squeeze 0 s'
  end.

(** The number of newlines a text starts with, and whether three newlines
    in a row occur in it. *)
Fixpoint leading (s : str) : nat :=
  match s with
  | a :: s' => if (a =? 10)%N then S (leading s') else 0
  | [] => 0
  end.

Fixpoint has_triple (s : str) : bool :=
  match s with
  | [] => false
  | _ :: s' => (3 <=? leading s)%nat || has_triple s'
  end.

(** A text that neither starts nor ends with white space. *)
Definition trimmed (s : str) : Prop :=
  (forall c rest, s = c :: rest -> is_space c = false) /\
  (forall init c, s = init ++ [c] -> is_space c = false).

(** [t] starts with a tag as [RE_HTML_TAG] sees it: [<], one or more
    characters other than [>], and [>]. *)
Definition tag_at (t : str) : Prop :=
  exists body post,
    body <> [] /\ (chr ">" ∉ body) /\ t = chr "<" :: body ++ chr ">" :: post.

Definition no_tag_inside (out : str) : Prop :=
  forall pre t, out = pre ++ t -> ~ tag_at t.

(** * [matcher.py]

    [Matcher.match_text] filters what QuickUMLS returns for a text: a list
    of spans, each a list of candidate concepts.  QuickUMLS itself is outside
    the program; a candidate is the dictionary it returns, read with [get]
    and a default for every key. *)

(** The similarity scores: Python floats, of which the code uses [0.0] and
    the comparison [>] inside [max]. *)
Class Floats := {
  float : Type;
  float_gt : float -> float -> bool;
  float_zero : float
}.

Definition STOP_WORDS : gset str :=
  list_to_set (lit <$> [
  "a"; "about"; "after"; "again"; "all"; "also"; "am"; "an"; "and"; "any";
   "are"; "as"; "at"; "be"; "been"; "before"; "being"; "between"; "both";
   "but"; "by"; "can"; "could"; "did"; "do"; "does"; "each"; "for"; "from";
   "get"; "had"; "has"; "have"; "he"; "her"; "here"; "him"; "his"; "how";
   "i"; "if"; "in"; "into"; "is"; "it"; "its"; "just"; "may"; "me";
   "might"; "more"; "most"; "my"; "no"; "nor"; "not"; "now"; "of"; "on";
   "one"; "only"; "or"; "other"; "our"; "out"; "own"; "same"; "she";
   "should"; "so"; "some"; "such"; "than"; "that"; "the"; "their"; "them";
   "then"; "there"; "these"; "they"; "this"; "those"; "through"; "to";
   "too"; "under"; "until"; "up"; "us"; "very"; "was"; "we"; "were";
   "what"; "when"; "where"; "which"; "while"; "who"; "whom"; "why"; "will";
   "with"; "would"; "you"; "your"
  ]%string).

Definition NOISY_SEMANTIC_TYPES : gset str := {[ lit "T071"; lit "T078" ]}.

Section matcher.
Context `{Platform} `{Floats}.

(** A candidate, a [dict[str, Any]]: the value under each key, if the key
    is there. *)
Record candidate := Candidate {
  key_start : option Z;
  key_end : option Z;
  key_ngram : option str;
  key_cui : option str;
  key_preferred : option str;
  key_semtypes : option (gset str);
  key_similarity : option float
}.

Record UMLSMatch := Build_UMLSMatch {
  match_start : Z;
  match_end : Z;
  term : str;
  cui : str;
  preferred_name : str;
  semantic_types : list str;
  similarity : float
}.

(** [a <= b] on [str]: by code points, a proper prefix first. *)
Fixpoint str_leb (a b : str) : bool :=
  match a, b with
  | [], _ => true
  | _ :: _, [] => false
  | x :: a', y :: b' =>
      if (x <? y)%N then true else if (y <? x)%N then false else str_leb a' b'
  end.

Definition str_le (a b : str) : Prop := str_leb a b = true.

Global Instance str_le_dec : RelDecision str_le :=
  fun a b => decide (str_leb a b = true).

(** [sorted(s)] for a set of strings: the elements in ascending order.
    The strings of a set are distinct and the order is total, so the result
    does not depend on the order in which the set is iterated. *)
Definition sorted (s : gset str) : list str := merge_sort str_le (elements s).

(** The loop body of [max(iterable, key=key)]: a later item replaces the
    best one so far only when its key is greater. *)
Fixpoint max_from {A} (key : A -> float) (best : A) (rest : list A) : A :=
  match rest with
  | [] => best
  | x :: rest' =>
      max_from key (if float_gt (key x) (key best) then x else best) rest'
  end.

(** [c.get("similarity", 0.0)] *)
Definition get_similarity (c : candidate) : float :=
  default float_zero (key_similarity c).

(** The test [not sem_types or not sem_types.issubset(NOISY_SEMANTIC_TYPES)]
    on [candidate.get("semtypes", set())]. *)
Definition is_good (c : candidate) : bool :=
  let sem_types := default ∅ (key_semtypes c) in
  bool_decide (sem_types = ∅)
  || negb (bool_decide (sem_types ⊆ NOISY_SEMANTIC_TYPES)).

(** The loop [for candidate in span_matches] that fills [good]. *)
Fixpoint collect_good (span_matches good : list candidate) : list candidate :=
  match span_matches with
  | [] => good
  | c :: rest => collect_good rest (if is_good c then good ++ [c] else good)
  end.

Definition to_match (best : candidate) : UMLSMatch :=
  Build_UMLSMatch
    (default 0 (key_start best))
    (default 0 (key_end best))
    (default [] (key_ngram best))
    (default [] (key_cui best))
    (default [] (key_preferred best))
    (sorted (default ∅ (key_semtypes best)))
    (get_similarity best).

(** The body of the loop over the spans: the match to append, or [None]
    where the body ends in [continue]. *)
Definition match_span (span_matches : list candidate) : option UMLSMatch :=
  match span_matches with
  | [] => None
  | first :: _ =>
      let term := default [] (key_ngram first) in
      if bool_decide (str_lower term ∈ STOP_WORDS) then None
      else
        match collect_good span_matches [] with
        | [] => None
        | g :: good => Some (to_match (max_from get_similarity g good))
        end
  end.

Fixpoint match_spans (raw : list (list candidate)) (results : list UMLSMatch)
  : list UMLSMatch :=
  match raw with
  | [] => results
  | span_matches :: raw' =>
      match_spans raw'
        (match match_span span_matches with
         | Some m => results ++ [m]
         | None => results
         end)
  end.

(** [Matcher.match_text], given [self._matcher.match]. *)
Definition match_text (quickumls_match : str -> list (list candidate))
    (text : str) : list UMLSMatch :=
  match_spans (quickumls_match text) [].

End matcher.

(** Scores in whole hundredths, enough to run the matcher on concrete
    candidates. *)
Definition test_floats : Floats :=
  {| float := Z; float_gt := Z.gtb; float_zero := 0 |}.

(** ** Vocabulary of the matcher's properties *)

(** A candidate the filter drops: it has semantic types and all of them are
    noisy. *)
Definition only_noisy `{Floats} (c : candidate) : Prop :=
  exists sem_types,
    key_semtypes c = Some sem_types /\ sem_types <> ∅ /\
    sem_types ⊆ NOISY_SEMANTIC_TYPES.

(** Four candidates of one span, [fever]: of similarity 0.80, 0.95 (with a
    noisy semantic type only), 0.90 and 0.90; and a candidate of the span
    [The]. *)
Definition fever (cui : string) (sem_type : string) (similarity : Z)
  : @candidate test_floats :=
  @Candidate test_floats (Some 4) (Some 9) (Some (lit "fever"))
    (Some (lit cui)) (Some (lit "Fever")) (Some {[ lit sem_type ]})
    (Some similarity).

Definition fever_span : list (@candidate test_floats) :=
  [fever "C01" "T184" 80; fever "C02" "T071" 95; fever "C03" "T047" 90;
   fever "C04" "T033" 90].

Definition the_span : list (@candidate test_floats) :=
  [@Candidate test_floats (Some 0) (Some 3) (Some (lit "The"))
     (Some (lit "C05")) None None (Some 100)].

(** ** Proof automation *)

(** Equality of two returned tuples of integers, componentwise. *)
Ltac ok_eq := f_equal; repeat (apply pair_equal_spec; split); lia.

(** A decidable proposition settled by evaluation. *)
Ltac by_eval := apply (bool_decide_unpack _); vm_compute; exact I.

(** Lists built with [::] and [++] brought to right-nested form. *)
Ltac list_normal := repeat first [rewrite <- app_assoc | progress cbn [app]].

(** * Properties *)

(** ** Bytes and indexing *)

Lemma byte_val_range (b : byte) : 0 <= byte_val b < 256.
Proof.
  unfold byte_val. pose proof (Byte.to_N_bounded b). lia.
Qed.

Lemma byte_val_of (z : Z) : 0 <= z < 256 -> byte_val (byte_of z) = z.
Proof.
  intros Hz. unfold byte_val, byte_of.
  destruct (Byte.of_N (Z.to_N z)) as [b|] eqn:E.
  - apply Byte.to_of_N in E. rewrite E. lia.
  - apply Byte.of_N_None_iff in E. lia.
Qed.

Lemma high_bit_test (b : byte) :
  (Z.land (byte_val b) 0x80 =? 0) = negb (Z.testbit (byte_val b) 7).
Proof. destruct b; reflexivity. Qed.

Lemma low_bits (b : byte) : Z.land (byte_val b) 0x7F = byte_val b mod 128.
Proof. apply (Z.land_ones _ 7). lia. Qed.

Lemma has_more_dec (b : byte) : {has_more b} + {~ has_more b}.
Proof.
  unfold has_more.
  destruct (Z.testbit (byte_val b) 7); [left|right]; congruence.
Qed.

Lemma lor_shiftl_add (v x s : Z) :
  0 <= s -> 0 <= v < 2 ^ s -> Z.lor v (Z.shiftl x s) = v + x * 2 ^ s.
Proof.
  intros Hs Hv.
  rewrite <- (Z.shiftl_mul_pow2 x s Hs), <- Z.add_lor_land.
  assert (Z.land v (Z.shiftl x s) = 0) as ->; [|lia].
  apply Z.bits_inj'. intros n Hn.
  rewrite Z.land_spec, Z.bits_0.
  destruct (Z.lt_ge_cases n s).
  - rewrite (Z.shiftl_spec_low x s n) by lia. apply andb_false_r.
  - assert (Z.testbit v n = false) as ->; [|reflexivity].
    destruct (Z.eq_dec v 0) as [->|]; [apply Z.bits_0|].
    apply Z.bits_above_log2; [lia|].
    apply Z.lt_le_trans with s; [|lia].
    apply Z.log2_lt_pow2; lia.
Qed.

Lemma len_nonneg {A} (l : list A) : 0 <= len l.
Proof. unfold len. lia. Qed.

Lemma len_app {A} (l k : list A) : len (l ++ k) = len l + len k.
Proof. unfold len. rewrite length_app. lia. Qed.

Lemma len_cons {A} (x : A) (l : list A) : len (x :: l) = 1 + len l.
Proof. unfold len. simpl. lia. Qed.

Lemma getitem_nonneg {A} (l : list A) (i : Z) :
  0 <= i ->
  getitem l i =
    match l !! Z.to_nat i with Some x => Ok x | None => Raise IndexError end.
Proof.
  intros Hi. unfold getitem.
  destruct (Z.ltb_spec i 0); [lia|].
  destruct (Z.leb_spec 0 i); [|lia]. simpl.
  destruct (Z.ltb_spec i (len l)); [reflexivity|].
  rewrite lookup_ge_None_2; [reflexivity|]. unfold len in *. lia.
Qed.

Lemma getitem_drop {A} (l : list A) (i : Z) :
  0 <= i ->
  getitem l i =
    match drop (Z.to_nat i) l with x :: _ => Ok x | [] => Raise IndexError end.
Proof.
  intros Hi. rewrite getitem_nonneg by done.
  replace (l !! Z.to_nat i) with (drop (Z.to_nat i) l !! 0%nat)
    by (rewrite lookup_drop; f_equal; lia).
  destruct (drop (Z.to_nat i) l); reflexivity.
Qed.

Lemma drop_succ_tail {A} (l : list A) (n : nat) (x : A) (t : list A) :
  drop n l = x :: t -> drop (S n) l = t.
Proof.
  intros E. replace (S n) with (1 + n)%nat by lia.
  rewrite Nat.add_comm, <- drop_drop, E. reflexivity.
Qed.

Lemma drop_nonempty_lt {A} (l : list A) (n : nat) (x : A) (t : list A) :
  drop n l = x :: t -> (n < length l)%nat.
Proof.
  intros E. destruct (Nat.lt_ge_cases n (length l)); [done|].
  rewrite drop_ge in E by done. discriminate.
Qed.

(** ** The varint decoder *)

Section varint_facts.

Implicit Types (data body : bytes) (pos value shift : Z).

(** Running the loop over a run of flagged bytes: it either reaches the
    first unflagged byte, with the digits read so far accumulated, or falls
    off the buffer. *)
Lemma read_varint_loop_run body : forall fuel data value shift pos tail,
  0 <= pos -> 0 <= shift -> 0 <= value < 2 ^ shift ->
  drop (Z.to_nat pos) data = body ++ tail ->
  Forall has_more body ->
  (length body < fuel)%nat ->
  match tail with
  | [] => read_varint_loop fuel data value shift pos = Raise IndexError
  | last :: _ =>
      ~ has_more last ->
      read_varint_loop fuel data value shift pos =
        Ok (value + 2 ^ shift * base128 body,
            shift + 7 * len body, pos + len body)
  end.
Proof.
  induction body as [|b body IH]; intros fuel data value shift pos tail
    Hpos Hshift Hvalue Hdrop Hbody Hfuel.
  - destruct fuel as [|fuel]; [simpl in Hfuel; lia|].
    simpl in Hdrop. simpl read_varint_loop.
    rewrite getitem_drop, Hdrop by done.
    destruct tail as [|last rest]; [reflexivity|].
    intros Hlast. simpl. rewrite high_bit_test.
    unfold has_more in Hlast. destruct (Z.testbit (byte_val last) 7); [done|].
    simpl. unfold len. simpl. ok_eq.
  - destruct fuel as [|fuel]; [simpl in Hfuel; lia|].
    simpl in Hdrop. simpl read_varint_loop.
    rewrite getitem_drop, Hdrop by done. simpl.
    apply Forall_cons in Hbody as [Hb Hbody].
    rewrite high_bit_test. unfold has_more in Hb. rewrite Hb. simpl.
    pose proof (byte_val_range b) as Hrange.
    assert (0 <= byte_val b mod 128 < 128) as Hlow
      by (apply Z.mod_pos_bound; lia).
    assert (2 ^ (shift + 7) = 2 ^ shift * 128) as Hpow
      by (rewrite Z.pow_add_r by lia; reflexivity).
    specialize (IH fuel data
      (Z.lor value (Z.shiftl (Z.land (byte_val b) 127) shift))
      (shift + 7) (pos + 1) tail).
    rewrite low_bits, lor_shiftl_add in IH |- * by done.
    assert (drop (Z.to_nat (pos + 1)) data = body ++ tail) as Hdrop'.
    { replace (Z.to_nat (pos + 1)) with (S (Z.to_nat pos)) by lia.
      by apply drop_succ_tail with b. }
    assert (0 <= value + byte_val b mod 128 * 2 ^ shift < 2 ^ (shift + 7))
      as Hvalue' by (rewrite Hpow; nia).
    specialize (IH ltac:(lia) ltac:(lia) Hvalue' Hdrop' Hbody
                   ltac:(simpl in Hfuel; lia)).
    destruct tail as [|last rest]; [exact IH|].
    intros Hlast. rewrite (IH Hlast), len_cons, Hpow. simpl base128.
    ok_eq.
Qed.

Lemma base128_range body : 0 <= base128 body < 2 ^ (7 * len body).
Proof.
  induction body as [|b body IH]; [unfold len; simpl; lia|].
  rewrite len_cons.
  replace (7 * (1 + len body)) with (7 * len body + 7) by lia.
  rewrite Z.pow_add_r by (pose proof (len_nonneg body); lia).
  simpl base128.
  assert (0 <= byte_val b mod 128 < 128) by (apply Z.mod_pos_bound; lia).
  change (2 ^ 7) with 128. nia.
Qed.

Lemma base128_snoc body (last : byte) :
  base128 (body ++ [last]) =
    base128 body + 2 ^ (7 * len body) * (byte_val last mod 128).
Proof.
  induction body as [|b body IH].
  - simpl. unfold len. simpl. lia.
  - simpl app. simpl base128. rewrite IH, len_cons.
    replace (7 * (1 + len body)) with (7 + 7 * len body) by lia.
    rewrite Z.pow_add_r by (pose proof (len_nonneg body); lia).
    change (2 ^ 7) with 128. lia.
Qed.

Lemma fuel_covers data pos body tail :
  0 <= pos -> drop (Z.to_nat pos) data = body ++ tail ->
  (length body < S (Z.to_nat (len data - pos)))%nat.
Proof.
  intros Hpos Hdrop.
  assert (length (drop (Z.to_nat pos) data) = length (body ++ tail)) as Hlen
    by (by rewrite Hdrop).
  rewrite length_drop, length_app in Hlen. unfold len. lia.
Qed.

(** A terminated varint at [pos]: the value of its digits and the offset
    just past its last byte. *)
Lemma read_varint_terminated data pos body last rest :
  0 <= pos ->
  drop (Z.to_nat pos) data = body ++ last :: rest ->
  Forall has_more body -> ~ has_more last ->
  _read_varint data pos = Ok (base128 (body ++ [last]), pos + len body + 1).
Proof.
  intros Hpos Hdrop Hbody Hlast. unfold _read_varint.
  pose proof (read_varint_loop_run body _ data 0 0 pos (last :: rest)
    Hpos ltac:(lia) ltac:(simpl; lia) Hdrop Hbody
    (fuel_covers _ _ _ _ Hpos Hdrop) Hlast) as ->.
  simpl. pose proof (len_nonneg body).
  rewrite getitem_drop by lia.
  replace (Z.to_nat (pos + len body)) with (Z.to_nat pos + length body)%nat
    by (unfold len; lia).
  rewrite <- drop_drop, Hdrop, drop_app_length. simpl.
  pose proof (base128_range body).
  rewrite Z.pow_0_r, Z.mul_1_l, !Z.add_0_l.
  rewrite low_bits, lor_shiftl_add, base128_snoc by lia.
  ok_eq.
Qed.

(** A run of flagged bytes up to the end of the buffer. *)
Lemma read_varint_unterminated data pos :
  0 <= pos ->
  Forall has_more (drop (Z.to_nat pos) data) ->
  _read_varint data pos = Raise IndexError.
Proof.
  intros Hpos Hall. unfold _read_varint.
  pose proof (read_varint_loop_run (drop (Z.to_nat pos) data) _ data 0 0 pos []
    Hpos ltac:(lia) ltac:(simpl; lia) (eq_sym (app_nil_r _)) Hall
    (fuel_covers _ _ _ [] Hpos (eq_sym (app_nil_r _)))) as ->.
  reflexivity.
Qed.

(** Every buffer suffix is a run of flagged bytes, followed by nothing or
    by an unflagged byte. *)
Lemma flagged_run (l : bytes) :
  Forall has_more l \/
  exists body last rest,
    l = body ++ last :: rest /\ Forall has_more body /\ ~ has_more last.
Proof.
  induction l as [|b l IH]; [left; constructor|].
  destruct (has_more_dec b) as [Hb|Hb].
  - destruct IH as [IH|(body & last & rest & -> & Hbody & Hlast)].
    + left. by constructor.
    + right. exists (b :: body), last, rest. repeat split; [by constructor|done].
  - right. exists [], b, l. repeat split; [constructor|done].
Qed.

End varint_facts.

(** ** The reference encoder *)

Lemma has_more_iff (b : byte) : has_more b <-> 128 <= byte_val b.
Proof.
  unfold has_more. pose proof (byte_val_range b) as Hb.
  rewrite Z.testbit_true by lia. change (2 ^ 7) with 128.
  destruct (Z.lt_ge_cases (byte_val b) 128).
  - rewrite Z.div_small by lia. split; [discriminate|lia].
  - replace (byte_val b) with (1 * 128 + (byte_val b - 128)) at 1 by lia.
    rewrite Z.div_add_l, (Z.div_small (byte_val b - 128)) by lia.
    split; [lia|reflexivity].
Qed.

Lemma encode_varint_fuel_digits fuel : forall n,
  0 <= n < 2 ^ (7 * Z.of_nat fuel) -> (0 < fuel)%nat ->
  exists body last,
    encode_varint_fuel fuel n = body ++ [last] /\
    Forall has_more body /\ ~ has_more last /\
    base128 (body ++ [last]) = n.
Proof.
  induction fuel as [|fuel IH]; intros n Hn Hfuel; [lia|].
  simpl encode_varint_fuel.
  destruct (Z.ltb_spec n 128) as [Hsmall|Hbig].
  - exists [], (byte_of n). simpl.
    rewrite !has_more_iff, !byte_val_of by lia.
    repeat split; [constructor|lia|].
    rewrite Z.mod_small; lia.
  - assert (0 <= n mod 128 < 128) as Hlow by (apply Z.mod_pos_bound; lia).
    assert (2 ^ (7 * Z.of_nat (S fuel)) = 128 * 2 ^ (7 * Z.of_nat fuel)) as Hpow.
    { replace (7 * Z.of_nat (S fuel)) with (7 + 7 * Z.of_nat fuel) by lia.
      rewrite Z.pow_add_r by lia. reflexivity. }
    assert (0 < fuel)%nat as Hfuel'.
    { destruct fuel; [|lia]. simpl in Hn. lia. }
    destruct (IH (n / 128)) as (body & last & -> & Hbody & Hlast & Hval);
      [|done|].
    { split; [apply Z.div_pos; lia|].
      apply Z.div_lt_upper_bound; lia. }
    exists (byte_of (n mod 128 + 128) :: body), last.
    repeat split; [|done|].
    + constructor; [|done]. rewrite has_more_iff, byte_val_of; lia.
    + simpl app. simpl base128. rewrite Hval, byte_val_of by lia.
      replace ((n mod 128 + 128) mod 128) with (n mod 128).
      * rewrite (Z.div_mod n 128) at 3 by lia. lia.
      * replace (n mod 128 + 128) with (n mod 128 + 1 * 128) by lia.
        rewrite Z.mod_add, Z.mod_mod; lia.
Qed.

Lemma encode_varint_digits (n : Z) :
  0 <= n ->
  exists body last,
    encode_varint n = body ++ [last] /\
    Forall has_more body /\ ~ has_more last /\
    base128 (body ++ [last]) = n.
Proof.
  intros Hn. apply encode_varint_fuel_digits; [|lia].
  split; [done|].
  destruct (Z.eq_dec n 0) as [->|Hnz]; [simpl; lia|].
  pose proof (Z.log2_nonneg n).
  apply Z.lt_le_trans with (2 ^ Z.succ (Z.log2 n)).
  - apply Z.log2_spec. lia.
  - apply Z.pow_le_mono_r; lia.
Qed.

(** Decoding what the reference encoder wrote, anywhere in a buffer. *)
Lemma read_varint_encoded (pre post : bytes) (n pos : Z) :
  0 <= n -> pos = len pre ->
  _read_varint (pre ++ encode_varint n ++ post) pos =
    Ok (n, pos + len (encode_varint n)).
Proof.
  intros Hn ->.
  destruct (encode_varint_digits n Hn) as (body & last & -> & Hbody & Hlast & Hval).
  rewrite (read_varint_terminated _ (len pre) body last post);
    [|apply len_nonneg| |done|done].
  - rewrite Hval, len_app. unfold len. simpl. ok_eq.
  - unfold len. rewrite Nat2Z.id, drop_app_length, <- app_assoc. reflexivity.
Qed.

(** What the decoder can answer on an arbitrary buffer. *)
Lemma read_varint_cases (data : bytes) (pos : Z) :
  0 <= pos ->
  _read_varint data pos = Raise IndexError \/
  exists v p, _read_varint data pos = Ok (v, p) /\ 0 <= v /\ pos < p <= len data.
Proof.
  intros Hpos.
  destruct (flagged_run (drop (Z.to_nat pos) data))
    as [Hall|(body & last & rest & Hdrop & Hbody & Hlast)].
  - left. by apply read_varint_unterminated.
  - right. eexists _, _. split; [by eapply read_varint_terminated|].
    pose proof (base128_range (body ++ [last])).
    pose proof (len_nonneg body).
    assert (length (drop (Z.to_nat pos) data) = length (body ++ last :: rest))
      as Hlen by (by rewrite Hdrop).
    rewrite length_drop, length_app in Hlen. simpl in Hlen.
    unfold len in *. lia.
Qed.

(** The fuel given to the loop is enough at every offset, negative ones
    included. *)
Lemma read_varint_loop_finishes (fuel : nat) : forall data value shift pos,
  (Z.to_nat (len data - pos) < fuel)%nat ->
  read_varint_loop fuel data value shift pos <> OutOfFuel.
Proof.
  induction fuel as [|fuel IH]; intros data value shift pos Hfuel; [lia|].
  pose proof (len_nonneg data).
  simpl. unfold getitem at 1.
  destruct (Z.ltb_spec pos 0) as [Hneg|Hpos].
  - destruct ((0 <=? pos + len data) && (pos + len data <? len data)); [|done].
    destruct (data !! Z.to_nat (pos + len data)); [|done].
    cbn [mbind outcome_bind].
    destruct (Z.land (byte_val b) 128 =? 0); [done|]. apply IH. lia.
  - destruct (Z.ltb_spec pos (len data)) as [Hin|Hout];
      [|by rewrite andb_false_r].
    destruct ((0 <=? pos) && true); [|done].
    destruct (data !! Z.to_nat pos); [|done].
    cbn [mbind outcome_bind].
    destruct (Z.land (byte_val b) 128 =? 0); [done|]. apply IH. lia.
Qed.

Lemma read_varint_finishes (data : bytes) (pos : Z) :
  _read_varint data pos <> OutOfFuel.
Proof.
  unfold _read_varint.
  pose proof (read_varint_loop_finishes (S (Z.to_nat (len data - pos)))
                data 0 0 pos ltac:(lia)) as Hloop.
  destruct (read_varint_loop _ data 0 0 pos) as [[[value shift] pos']|e|];
    [|done..].
  cbn [mbind outcome_bind]. unfold getitem.
  destruct ((0 <=? _) && _); [|done].
  by destruct (data !! _).
Qed.

(** ** Claims on the varint decoder *)

(** C3. For a buffer and a start offset inside or at the end of it (not a
    negative, from-the-end index), [_read_varint] fails, with Python's
    [IndexError], exactly when every byte from the offset to the buffer end
    has its high bit set, so that the offset runs past the end before a
    terminating byte is seen; it fails in no other way and always finishes;
    and when a first byte with high bit 0 exists it returns the base-128
    value of the bytes up to and including it, together with the offset
    just past that byte. *)
Theorem read_varint_fails_iff_unterminated (data : bytes) (pos : Z) :
  0 <= pos ->
  (_read_varint data pos = Raise IndexError <->
     Forall has_more (drop (Z.to_nat pos) data)) /\
  (forall e, _read_varint data pos = Raise e -> e = IndexError) /\
  _read_varint data pos <> OutOfFuel /\
  (forall body last rest,
     drop (Z.to_nat pos) data = body ++ last :: rest ->
     Forall has_more body -> ~ has_more last ->
     _read_varint data pos =
       Ok (base128 (body ++ [last]), pos + len body + 1)).
Proof.
  intros Hpos.
  destruct (flagged_run (drop (Z.to_nat pos) data))
    as [Hall|(body & last & rest & Hdrop & Hbody & Hlast)].
  - pose proof (read_varint_unterminated data pos Hpos Hall) as Hfail.
    rewrite Hfail. repeat split; try done.
    + by intros e [= <-].
    + intros body last rest Hdrop Hbody Hlast. exfalso.
      rewrite Hdrop in Hall. apply Forall_app in Hall as [_ Hall].
      apply Forall_cons in Hall as [Hl _]. by apply Hlast.
  - pose proof (read_varint_terminated data pos body last rest
                  Hpos Hdrop Hbody Hlast) as Hok.
    rewrite Hok. repeat split; try done.
    + intros Hall. exfalso. rewrite Hdrop in Hall.
      apply Forall_app in Hall as [_ Hall].
      apply Forall_cons in Hall as [Hl _]. by apply Hlast.
    + intros body' last' rest' Hdrop' Hbody' Hlast'.
      rewrite <- (read_varint_terminated data pos body' last' rest'); done.
Qed.

Lemma read_varint_fails_iff_unterminated_witness :
  0 <= 1 /\
  _read_varint [x0a; xac; x02; x0a] 1 = Ok (300, 3) /\
  _read_varint [x0a; xac; x82] 1 = Raise IndexError.
Proof.
  split; [lia|]. split.
  - apply (proj2 (proj2 (proj2
      (read_varint_fails_iff_unterminated [x0a; xac; x02; x0a] 1 ltac:(lia))))
      [xac] x02 [x0a]); [reflexivity| |].
    + repeat constructor.
    + discriminate.
  - apply (proj1 (read_varint_fails_iff_unterminated [x0a; xac; x82] 1
      ltac:(lia))).
    repeat constructor.
Defined.

(** C4. Round trip: for every non-negative integer [n] (Python integers
    are unbounded, so no upper bound is needed), the bytes of the reference
    encoder, placed anywhere in a buffer, decode at the offset where they
    begin to [n], and the returned offset is that offset plus the number of
    encoded bytes. *)
Theorem varint_round_trip (pre post : bytes) (n : Z) :
  0 <= n ->
  _read_varint (pre ++ encode_varint n ++ post) (len pre) =
    Ok (n, len pre + len (encode_varint n)).
Proof.
  intros Hn.
  destruct (encode_varint_digits n Hn)
    as (body & last & Henc & Hbody & Hlast & Hval).
  assert (drop (Z.to_nat (len pre)) (pre ++ encode_varint n ++ post) =
          body ++ last :: post) as Hdrop.
  { unfold len. rewrite Nat2Z.id, drop_app_length, Henc, <- app_assoc.
    reflexivity. }
  rewrite (read_varint_terminated _ (len pre) body last post
             (len_nonneg pre) Hdrop Hbody Hlast).
  rewrite Hval, Henc, len_app.
  replace (len [last]) with 1 by reflexivity. ok_eq.
Qed.

Lemma varint_round_trip_witness :
  0 <= 300 /\
  _read_varint ([x0a] ++ encode_varint 300 ++ [x0a; x00]) (len [x0a]) =
    Ok (300, len [x0a] + len (encode_varint 300)).
Proof.
  split; [lia|]. apply (varint_round_trip [x0a] [x0a; x00] 300). lia.
Defined.

(** ** Reading inside a buffer *)

Lemma getitem_at {A} (pre : list A) (x : A) (post : list A) (pos : Z) :
  pos = len pre -> getitem (pre ++ x :: post) pos = Ok x.
Proof.
  intros ->. rewrite getitem_drop by apply len_nonneg.
  unfold len. by rewrite Nat2Z.id, drop_app_length.
Qed.

Lemma getitem_end {A} (l : list A) (pos : Z) :
  len l <= pos -> getitem l pos = Raise IndexError.
Proof.
  intros Hpos. pose proof (len_nonneg l).
  rewrite getitem_drop, drop_ge; [done| |lia]. unfold len in *. lia.
Qed.

Lemma slice_at {A} (pre mid post : list A) (lo hi : Z) :
  lo = len pre -> hi = lo + len mid ->
  slice (pre ++ mid ++ post) lo hi = mid.
Proof.
  intros -> ->. unfold slice, slice_bound.
  pose proof (len_nonneg pre). pose proof (len_nonneg mid).
  pose proof (len_nonneg post).
  rewrite !len_app.
  destruct (Z.ltb_spec (len pre) 0); [lia|].
  destruct (Z.ltb_spec (len pre + len mid) 0); [lia|].
  rewrite !Z.min_l by lia.
  replace (Z.to_nat (len pre)) with (length pre) by (unfold len; lia).
  replace (Z.to_nat (len pre + len mid - len pre)) with (length mid)
    by (unfold len; lia).
  by rewrite drop_app_length, take_app_length.
Qed.

(** ** Python dictionaries *)

Lemma dict_get_set {V} (k k' : str) (v : V) (d : pydict V) :
  dict_get k (dict_set k' v d) = if decide (k' = k) then Some v else dict_get k d.
Proof.
  induction d as [|[k0 v0] d IH]; simpl.
  - reflexivity.
  - destruct (decide (k0 = k')) as [->|Hne]; simpl.
    + by destruct (decide (k' = k)).
    + destruct (decide (k0 = k)) as [->|]; [|done].
      by destruct (decide (k' = k)).
Qed.

Lemma dict_get_keys {V} (k : str) (d : pydict V) :
  is_Some (dict_get k d) <-> k ∈ dict_keys d.
Proof.
  unfold dict_keys. induction d as [|[k0 v0] d IH]; simpl.
  - split; [by intros [? ?]|by intros ?%elem_of_nil].
  - rewrite elem_of_cons. destruct (decide (k0 = k)) as [->|Hne].
    + split; [by left|by eexists].
    + rewrite IH. split; [by right|]. by intros [->|].
Qed.

Lemma dict_set_fresh {V} (k : str) (v : V) (d : pydict V) :
  k ∉ dict_keys d -> dict_set k v d = d ++ [(k, v)].
Proof.
  unfold dict_keys. induction d as [|[k0 v0] d IH]; simpl; [done|].
  rewrite not_elem_of_cons. intros [Hne Hnotin].
  destruct (decide (k0 = k)); [done|]. by rewrite IH.
Qed.

Lemma lit_inj : Inj (=) (=) lit.
Proof.
  intros s1 s2. unfold lit. revert s2.
  induction s1 as [|a s1 IH]; intros [|b s2]; simpl; try done.
  intros [= Hab Hs]. f_equal; [|by apply IH].
  by rewrite <- (ascii_N_embedding a), <- (ascii_N_embedding b), Hab.
Qed.

Lemma str_of_nat_inj : Inj (=) (=) str_of_nat.
Proof. intros i j Hij. by apply pretty_nat_inj, lit_inj. Qed.

(** ** The manifest decoder on well-formed entries *)

Lemma byte_val_inj (b c : byte) : byte_val b = byte_val c -> b = c.
Proof.
  unfold byte_val. intros H%(inj Z.of_N).
  assert (Some b = Some c) as [= ->]; [|done].
  by rewrite <- (Byte.of_to_N b), <- (Byte.of_to_N c), H.
Qed.

Lemma tag_test (b : byte) : (byte_val b =? 0x0A) = bool_decide (b = x0a).
Proof.
  case_bool_decide as Hb; [by subst|].
  apply Z.eqb_neq. intros Hv. apply Hb, byte_val_inj. exact Hv.
Qed.

Lemma encode_varint_nonempty (n : Z) : 0 <= n -> 0 < len (encode_varint n).
Proof.
  intros Hn. destruct (encode_varint_digits n Hn) as (body & last & -> & _).
  rewrite len_app. pose proof (len_nonneg body). unfold len at 2. simpl. lia.
Qed.

Lemma record_filename_entry (pre post : bytes) (e : entry) (m : pydict str)
    (pos : Z) (idx : nat) :
  entry_ok e -> pos = len pre ->
  record_filename (pre ++ entry_body e ++ post) m pos
      (pos + len (entry_body e)) idx =
    Ok (match entry_name e with
        | Some filename => dict_set (str_of_nat idx) filename m
        | None => m
        end).
Proof.
  intros Hok ->. unfold record_filename.
  destruct e as [name rest|body]; simpl in *.
  - rewrite len_cons.
    pose proof (len_nonneg (encode_varint (len name) ++ name ++ rest)).
    destruct (Z.ltb_spec (len pre)
      (len pre + (1 + len (encode_varint (len name) ++ name ++ rest)))); [|lia].
    rewrite (getitem_at pre x0a) by done. simpl.
    replace (pre ++ x0a :: (encode_varint (len name) ++ name ++ rest) ++ post)
      with ((pre ++ [x0a]) ++ encode_varint (len name) ++ (name ++ rest ++ post))
      by (by rewrite <- !app_assoc).
    rewrite read_varint_encoded;
      [|apply len_nonneg|rewrite len_app; unfold len; simpl; lia].
    simpl.
    replace ((pre ++ [x0a]) ++ encode_varint (len name) ++ name ++ rest ++ post)
      with ((pre ++ [x0a] ++ encode_varint (len name)) ++ name ++ (rest ++ post))
      by (by rewrite <- !app_assoc).
    rewrite slice_at;
      [|rewrite !len_app; unfold len; simpl; lia|done].
    unfold utf8_decode. destruct Hok as [s Hs]. by rewrite Hs.
  - destruct body as [|b body]; simpl in *.
    + unfold len at 1. simpl. by rewrite Z.add_0_r, Z.ltb_irrefl.
    + rewrite len_cons. pose proof (len_nonneg body).
      destruct (Z.ltb_spec (len pre) (len pre + (1 + len body))); [|lia].
      rewrite (getitem_at pre b) by done. simpl.
      rewrite tag_test, bool_decide_eq_false_2; [done|]. congruence.
Qed.

Lemma manifest_loop_entry (fuel : nat) (pre post : bytes) (e : entry)
    (m : pydict str) (pos : Z) (idx : nat) :
  entry_ok e -> pos = len pre ->
  manifest_loop (S fuel) (pre ++ encode_entry e ++ post) m pos idx =
    manifest_loop fuel (pre ++ encode_entry e ++ post)
      (match entry_name e with
       | Some filename => dict_set (str_of_nat idx) filename m
       | None => m
       end)
      (pos + len (encode_entry e)) (S idx).
Proof.
  intros Hok ->.
  pose proof (len_nonneg (entry_body e)) as Hbody.
  pose proof (encode_varint_nonempty _ Hbody) as Henc.
  pose proof (len_nonneg post).
  unfold encode_entry. cbn [manifest_loop].
  assert ((len pre <?
           len (pre ++ (x0a :: encode_varint (len (entry_body e))
                          ++ entry_body e) ++ post)) = true) as ->.
  { apply Z.ltb_lt. rewrite !len_app, len_cons, len_app. lia. }
  replace (pre ++ (x0a :: encode_varint (len (entry_body e)) ++ entry_body e)
             ++ post)
    with (pre ++ x0a :: encode_varint (len (entry_body e))
              ++ entry_body e ++ post)
    by (simpl; by rewrite <- !app_assoc).
  rewrite (getitem_at pre x0a) by done. cbn [mbind outcome_bind].
  change (negb (byte_val x0a =? 10)) with false. cbv iota.
  replace (pre ++ x0a :: encode_varint (len (entry_body e))
              ++ entry_body e ++ post)
    with ((pre ++ [x0a]) ++ encode_varint (len (entry_body e))
              ++ (entry_body e ++ post))
    by (by rewrite <- !app_assoc).
  rewrite read_varint_encoded;
    [|done|rewrite len_app; unfold len; simpl; lia].
  cbn [mbind outcome_bind].
  replace ((pre ++ [x0a]) ++ encode_varint (len (entry_body e))
              ++ entry_body e ++ post)
    with ((pre ++ [x0a] ++ encode_varint (len (entry_body e)))
              ++ entry_body e ++ post)
    by (by rewrite <- !app_assoc).
  rewrite record_filename_entry;
    [|done|rewrite !len_app; unfold len; simpl; lia].
  cbn [mbind outcome_bind]. f_equal.
  rewrite len_cons, len_app. lia.
Qed.

Lemma manifest_loop_entries (es : list entry) :
  forall (fuel : nat) (pre post : bytes) (m : pydict str) (pos : Z) (idx : nat),
  Forall entry_ok es -> pos = len pre ->
  manifest_loop (length es + fuel) (pre ++ encode_manifest es ++ post) m pos idx =
    manifest_loop fuel (pre ++ encode_manifest es ++ post)
      (record_entries idx es m)
      (pos + len (encode_manifest es)) (idx + length es).
Proof.
  induction es as [|e es IH]; intros fuel pre post m pos idx Hok ->.
  - simpl. rewrite Nat.add_0_r.
    replace (len pre + len (encode_manifest [])) with (len pre)
      by (unfold len; simpl; lia).
    reflexivity.
  - apply Forall_cons in Hok as [He Hes].
    change (encode_manifest (e :: es)) with (encode_entry e ++ encode_manifest es).
    change (length (e :: es) + fuel)%nat with (S (length es + fuel)).
    rewrite <- !app_assoc, manifest_loop_entry by done.
    replace (pre ++ encode_entry e ++ encode_manifest es ++ post)
      with ((pre ++ encode_entry e) ++ encode_manifest es ++ post)
      by (by rewrite <- !app_assoc).
    rewrite IH; [|done|by rewrite len_app].
    simpl record_entries. rewrite !len_app. simpl length. f_equal; lia.
Qed.

Lemma manifest_loop_exhausted (fuel : nat) (data : bytes) (m : pydict str)
    (pos : Z) (idx : nat) :
  len data <= pos -> manifest_loop (S fuel) data m pos idx = Ok (m, pos, idx).
Proof.
  intros Hpos. simpl. by destruct (Z.ltb_spec pos (len data)); [lia|].
Qed.

Lemma manifest_loop_break (fuel : nat) (pre post : bytes) (b : byte)
    (m : pydict str) (pos : Z) (idx : nat) :
  b <> x0a -> pos = len pre ->
  manifest_loop (S fuel) (pre ++ b :: post) m pos idx = Ok (m, pos, idx).
Proof.
  intros Hb ->. simpl. rewrite len_app, len_cons.
  pose proof (len_nonneg post).
  destruct (Z.ltb_spec (len pre) (len pre + (1 + len post))); [|lia].
  rewrite (getitem_at pre b) by done. simpl.
  by rewrite tag_test, bool_decide_eq_false_2.
Qed.

Lemma encode_manifest_length (es : list entry) :
  (length es <= length (encode_manifest es))%nat.
Proof.
  induction es as [|e es IH]; [done|].
  change (encode_manifest (e :: es)) with (encode_entry e ++ encode_manifest es).
  rewrite length_app. unfold encode_entry. simpl. lia.
Qed.

(** A run of well-formed entries followed by nothing, or by a byte that is
    not the entry tag: every entry is consumed and the loop stops there. *)
Lemma manifest_run_entries (es : list entry) (tail : bytes) :
  Forall entry_ok es -> head tail <> Some x0a ->
  manifest_run (encode_manifest es ++ tail) =
    Ok (record_entries 0 es [], len (encode_manifest es), length es).
Proof.
  intros Hok Htail. unfold manifest_run.
  pose proof (encode_manifest_length es) as Hlen.
  set (data := encode_manifest es ++ tail).
  assert (exists k, S (length data) = (length es + S k)%nat) as [k ->].
  { exists (length data - length es)%nat. unfold data.
    rewrite length_app. lia. }
  unfold data.
  etrans; [exact (manifest_loop_entries es (S k) [] tail [] 0 0%nat Hok eq_refl)|].
  cbn [app]. rewrite Z.add_0_l, Nat.add_0_l. destruct tail as [|b tail].
  - rewrite manifest_loop_exhausted; [done|]. rewrite app_nil_r. lia.
  - rewrite manifest_loop_break; [done| |done].
    simpl in Htail. congruence.
Qed.

Lemma manifest_run_prefix (es : list entry) (rest : bytes) :
  Forall entry_ok es ->
  exists fuel,
    (length rest < fuel)%nat /\
    manifest_run (encode_manifest es ++ rest) =
      manifest_loop fuel (encode_manifest es ++ rest)
        (record_entries 0 es []) (len (encode_manifest es)) (length es).
Proof.
  intros Hok. unfold manifest_run.
  pose proof (encode_manifest_length es) as Hlen.
  exists (S (length (encode_manifest es ++ rest)) - length es)%nat.
  rewrite length_app. split; [lia|].
  replace (S (length (encode_manifest es) + length rest))
    with (length es + (S (length (encode_manifest es) + length rest) - length es))%nat
    at 1 by lia.
  etrans; [exact (manifest_loop_entries es _ [] rest [] 0 0%nat Hok eq_refl)|].
  cbn [app]. by rewrite Z.add_0_l, Nat.add_0_l.
Qed.

(** An entry without a name field whose declared length may exceed what is
    left of the buffer: one byte of body is enough for the loop to skip it. *)
Lemma manifest_loop_skip (fuel : nat) (pre post : bytes) (b : byte) (L : Z)
    (m : pydict str) (pos : Z) (idx : nat) :
  0 < L -> b <> x0a -> pos = len pre ->
  manifest_loop (S fuel) (pre ++ x0a :: encode_varint L ++ b :: post) m pos idx =
    manifest_loop fuel (pre ++ x0a :: encode_varint L ++ b :: post) m
      (pos + 1 + len (encode_varint L) + L) (S idx).
Proof.
  intros HL Hb ->. cbn [manifest_loop].
  pose proof (len_nonneg post). pose proof (len_nonneg (encode_varint L)).
  assert ((len pre <? len (pre ++ x0a :: encode_varint L ++ b :: post)) = true)
    as ->.
  { apply Z.ltb_lt. rewrite len_app, len_cons, len_app, len_cons. lia. }
  rewrite (getitem_at pre x0a) by done. cbn [mbind outcome_bind].
  change (negb (byte_val x0a =? 10)) with false. cbv iota.
  replace (pre ++ x0a :: encode_varint L ++ b :: post)
    with ((pre ++ [x0a]) ++ encode_varint L ++ (b :: post))
    by (by rewrite <- !app_assoc).
  rewrite read_varint_encoded;
    [|lia|rewrite len_app; unfold len; simpl; lia].
  cbn [mbind outcome_bind]. unfold record_filename.
  destruct (Z.ltb_spec (len pre + 1 + len (encode_varint L))
              (len pre + 1 + len (encode_varint L) + L)); [|lia].
  replace ((pre ++ [x0a]) ++ encode_varint L ++ b :: post)
    with ((pre ++ [x0a] ++ encode_varint L) ++ b :: post)
    by (by rewrite <- !app_assoc).
  rewrite (getitem_at _ b);
    [|rewrite !len_app; unfold len; simpl; lia].
  cbn [mbind outcome_bind].
  by rewrite tag_test, bool_decide_eq_false_2.
Qed.

(** A length prefix that is the last thing in the buffer. *)
Lemma manifest_loop_cut_body (fuel : nat) (pre : bytes) (L : Z)
    (m : pydict str) (pos : Z) (idx : nat) :
  0 < L -> pos = len pre ->
  manifest_loop (S fuel) (pre ++ x0a :: encode_varint L) m pos idx =
    Raise IndexError.
Proof.
  intros HL ->. cbn [manifest_loop].
  pose proof (len_nonneg (encode_varint L)).
  assert ((len pre <? len (pre ++ x0a :: encode_varint L)) = true) as ->.
  { apply Z.ltb_lt. rewrite len_app, len_cons. lia. }
  rewrite (getitem_at pre x0a) by done. cbn [mbind outcome_bind].
  change (negb (byte_val x0a =? 10)) with false. cbv iota.
  replace (pre ++ x0a :: encode_varint L)
    with ((pre ++ [x0a]) ++ encode_varint L ++ [])
    by (by rewrite app_nil_r, <- app_assoc).
  rewrite read_varint_encoded;
    [|lia|rewrite len_app; unfold len; simpl; lia].
  cbn [mbind outcome_bind]. unfold record_filename.
  destruct (Z.ltb_spec (len pre + 1 + len (encode_varint L))
              (len pre + 1 + len (encode_varint L) + L)); [|lia].
  rewrite getitem_end; [done|].
  rewrite !len_app. unfold len. simpl. lia.
Qed.

(** An entry tag that is the last byte of the buffer. *)
Lemma manifest_loop_cut_length (fuel : nat) (pre : bytes)
    (m : pydict str) (pos : Z) (idx : nat) :
  pos = len pre ->
  manifest_loop (S fuel) (pre ++ [x0a]) m pos idx = Raise IndexError.
Proof.
  intros ->. cbn [manifest_loop].
  assert ((len pre <? len (pre ++ [x0a])) = true) as ->.
  { apply Z.ltb_lt. rewrite len_app. unfold len. simpl. lia. }
  rewrite (getitem_at pre x0a) by done. cbn [mbind outcome_bind].
  change (negb (byte_val x0a =? 10)) with false. cbv iota.
  pose proof (len_nonneg pre).
  rewrite read_varint_unterminated; [done|lia|].
  rewrite drop_ge; [constructor|].
  rewrite length_app. unfold len. simpl. lia.
Qed.

(** ** Termination and the errors of the manifest loop *)

Lemma record_filename_ends_well (data : bytes) (m : pydict str)
    (pos entry_end : Z) (idx : nat) :
  0 <= pos -> ends_well (record_filename data m pos entry_end idx).
Proof.
  intros Hpos. unfold record_filename, ends_well, returns.
  destruct (pos <? entry_end); [|by left; eexists].
  rewrite getitem_nonneg by done.
  destruct (data !! Z.to_nat pos) as [b|]; [|by right; left].
  cbn [mbind outcome_bind].
  destruct (byte_val b =? 10); [|by left; eexists].
  destruct (read_varint_cases data (pos + 1)) as [->|(v & p & -> & _)];
    [lia|by right; left|].
  cbn [mbind outcome_bind]. unfold utf8_decode.
  destruct (utf8_go _); cbn [mbind outcome_bind];
    [by left; eexists|by right; right].
Qed.

Lemma manifest_loop_ends_well (fuel : nat) : forall data m pos idx,
  0 <= pos -> (Z.to_nat (len data - pos) < fuel)%nat ->
  ends_well (manifest_loop fuel data m pos idx).
Proof.
  induction fuel as [|fuel IH]; intros data m pos idx Hpos Hfuel; [lia|].
  cbn [manifest_loop].
  destruct (Z.ltb_spec pos (len data)); [|by left; eexists].
  rewrite getitem_nonneg by done.
  destruct (data !! Z.to_nat pos) as [b|] eqn:Hb; [|by right; left].
  cbn [mbind outcome_bind].
  destruct (negb (byte_val b =? 10)); [by left; eexists|].
  destruct (read_varint_cases data (pos + 1)) as [->|(v & p & -> & Hv & Hp)];
    [lia|by right; left|].
  cbn [mbind outcome_bind].
  destruct (record_filename_ends_well data m p (p + v) idx) as [[m' ->]|[->| ->]];
    [lia| |by right; left|by right; right].
  cbn [mbind outcome_bind]. apply IH; lia.
Qed.

Lemma manifest_run_ends_well (data : bytes) : ends_well (manifest_run data).
Proof.
  apply manifest_loop_ends_well; [lia|]. unfold len. lia.
Qed.

(** ** What the decoded manifest holds *)

Lemma dict_keys_set {V} (k k' : str) (v : V) (d : pydict V) :
  k ∈ dict_keys (dict_set k' v d) <-> k = k' \/ k ∈ dict_keys d.
Proof.
  rewrite <- !dict_get_keys, dict_get_set.
  destruct (decide (k' = k)) as [->|Hne].
  - split; [by left|by eexists].
  - split; [by right|]. by intros [->|].
Qed.

Lemma record_entries_get (es : list entry) : forall (idx : nat) m (i : nat),
  dict_get (str_of_nat i) (record_entries idx es m) =
    match (if decide (idx <= i)%nat then es !! (i - idx)%nat ≫= entry_name
           else None) with
    | Some filename => Some filename
    | None => dict_get (str_of_nat i) m
    end.
Proof.
  induction es as [|e es IH]; intros idx m i; simpl record_entries.
  - by destruct (decide (idx <= i)%nat).
  - rewrite IH. destruct (decide (S idx <= i)%nat) as [Hlt|Hge].
    + rewrite decide_True by lia.
      replace (i - idx)%nat with (S (i - S idx)) by lia. simpl.
      destruct (es !! (i - S idx)%nat ≫= entry_name); [done|].
      destruct (entry_name e); [|done].
      rewrite dict_get_set, decide_False; [done|].
      intros Heq%str_of_nat_inj. lia.
    + destruct (decide (idx <= i)%nat) as [Hle|Hgt].
      * assert (i = idx) as -> by lia. rewrite Nat.sub_diag. simpl.
        destruct (entry_name e); [|done].
        by rewrite dict_get_set, decide_True.
      * destruct (entry_name e); [|done].
        rewrite dict_get_set, decide_False; [done|].
        intros Heq%str_of_nat_inj. lia.
Qed.

Lemma recorded_get (es : list entry) (i : nat) :
  dict_get (str_of_nat i) (record_entries 0 es []) = es !! i ≫= entry_name.
Proof.
  rewrite record_entries_get, decide_True, Nat.sub_0_r by lia.
  by destruct (es !! i ≫= entry_name).
Qed.

Lemma record_entries_keys (es : list entry) : forall (idx : nat) m k,
  k ∈ dict_keys (record_entries idx es m) ->
  k ∈ dict_keys m \/
  exists i, (idx <= i < idx + length es)%nat /\ k = str_of_nat i.
Proof.
  induction es as [|e es IH]; intros idx m k; simpl record_entries.
  - by left.
  - intros [Hk|(i & Hi & ->)]%IH.
    + destruct (entry_name e); [|by left].
      apply dict_keys_set in Hk as [->|Hk]; [|by left].
      right. exists idx. simpl. split; [lia|done].
    + right. exists i. simpl. split; [lia|done].
Qed.

Lemma entry_ok_named (e : entry) :
  entry_ok e -> is_Some (entry_name e) <-> exists name rest, e = Named name rest.
Proof.
  destruct e as [name rest|body]; simpl; intros Hok.
  - split; [by eexists _, _|done].
  - split; [by intros [? ?]|by intros (? & ? & ?)].
Qed.

(** ** Claims on the manifest decoder *)

(** C1, as amended. For every well-formed manifest (a sequence of entries,
    each with a valid name field or with a body that does not start with
    the name tag), decoding succeeds, the entry counter ends at the number
    of entries, and slot numbers are positional: the mapping sends the
    decimal string of [i] to the filename of the [i]-th entry when that
    entry has a name field and has no key for [i] otherwise. Every key is
    the decimal string of some [i] below the entry count, and the keys are
    exactly [0 .. count-1] when every entry has a name field. An entry
    without one leaves its own slot out and moves no later slot. *)
Theorem manifest_slots_positional (es : list entry) :
  Forall entry_ok es ->
  exists m pos,
    manifest_run (encode_manifest es) = Ok (m, pos, length es) /\
    parse_manifest_bytes (encode_manifest es) = Ok m /\
    (forall i : nat, dict_get (str_of_nat i) m = es !! i ≫= entry_name) /\
    (forall k, k ∈ dict_keys m ->
       exists i : nat, (i < length es)%nat /\ k = str_of_nat i) /\
    (Forall (fun e => exists name rest, e = Named name rest) es ->
       slots_gapless (length es) m).
Proof.
  intros Hok.
  pose proof (manifest_run_entries es [] Hok ltac:(done)) as Hrun.
  rewrite app_nil_r in Hrun.
  exists (record_entries 0 es []), (len (encode_manifest es)).
  split; [exact Hrun|]. split.
  { unfold parse_manifest_bytes. by rewrite Hrun. }
  split; [apply recorded_get|]. split.
  - intros k [Hk|(i & Hi & ->)]%record_entries_keys.
    + by apply elem_of_nil in Hk.
    + exists i. split; [lia|done].
  - intros Hnamed i. rewrite recorded_get. split.
    + intros Hi. destruct (lookup_lt_is_Some_2 es i Hi) as [e He].
      rewrite He. simpl. apply entry_ok_named.
      * by eapply Forall_lookup_1 in Hok.
      * by eapply Forall_lookup_1 in Hnamed.
    + intros [f Hf]. apply lookup_lt_is_Some.
      destruct (es !! i); [by eexists|done].
Qed.

Lemma manifest_slots_positional_witness :
  Forall entry_ok [Unnamed []; Named [x61] []] /\
  exists m pos,
    manifest_run [x0a; x00; x0a; x03; x0a; x01; x61] = Ok (m, pos, 2%nat) /\
    dict_get (str_of_nat 0) m = None /\
    dict_get (str_of_nat 1) m = Some (lit "a").
Proof.
  assert (Forall entry_ok [Unnamed []; Named [x61] []]) as Hok.
  { repeat constructor; [discriminate|by eexists]. }
  split; [exact Hok|].
  destruct (manifest_slots_positional _ Hok) as (m & pos & Hrun & _ & Hget & _).
  exists m, pos. split; [exact Hrun|].
  split; [exact (Hget 0%nat)|exact (Hget 1%nat)].
Defined.

(** C1 as stated fails: a well-formed manifest of two entries, the first
    without a name field, decodes to a mapping whose only slot is [1]; the
    slots are not [0 .. 1]. *)
Lemma manifest_slots_gap :
  encode_manifest [Unnamed []; Named [x61] []] =
    [x0a; x00; x0a; x03; x0a; x01; x61] /\
  Forall entry_ok [Unnamed []; Named [x61] []] /\
  parse_manifest_bytes [x0a; x00; x0a; x03; x0a; x01; x61] =
    Ok [(lit "1", lit "a")] /\
  ~ slots_gapless 2 [(lit "1", lit "a")].
Proof.
  split; [reflexivity|]. split.
  { repeat constructor; [discriminate|by eexists]. }
  split; [vm_compute; reflexivity|].
  intros Hgap. destruct (proj1 (Hgap 0%nat) ltac:(lia)) as [f Hf].
  vm_compute in Hf. discriminate.
Qed.

Lemma parse_manifest_bytes_run (data : bytes) m pos idx :
  manifest_run data = Ok (m, pos, idx) -> parse_manifest_bytes data = Ok m.
Proof. unfold parse_manifest_bytes. by intros ->. Qed.

Lemma parse_manifest_bytes_raise (data : bytes) e :
  manifest_run data = Raise e -> parse_manifest_bytes data = Raise e.
Proof. unfold parse_manifest_bytes. by intros ->. Qed.

Lemma parse_manifest_bytes_ends_well (data : bytes) :
  ends_well (parse_manifest_bytes data).
Proof.
  unfold parse_manifest_bytes.
  destruct (manifest_run_ends_well data) as [[[[m pos] idx] ->]|[->| ->]].
  - left. by eexists.
  - right. by left.
  - right. by right.
Qed.

(** C2, as amended. On every buffer the manifest decoder finishes, and it
    ends in one of three ways: it returns a mapping, or raises [IndexError],
    or raises [UnicodeDecodeError].  It stops silently, returning the
    mapping of the well-formed entries before, when the buffer is exhausted
    at an entry boundary or the byte there is not the entry tag, and when
    an entry's declared length overruns the buffer while its body starts
    with a byte that is present and is not the name tag.  It raises
    [IndexError] when the buffer ends right after a non-zero length prefix,
    and when it ends right after an entry tag. *)
Theorem manifest_decoder_tolerance :
  (forall data, ends_well (parse_manifest_bytes data)) /\
  (forall es tail,
     Forall entry_ok es -> head tail <> Some x0a ->
     parse_manifest_bytes (encode_manifest es ++ tail) =
       Ok (record_entries 0 es [])) /\
  (forall es L b body,
     Forall entry_ok es -> b <> x0a -> len (b :: body) < L ->
     parse_manifest_bytes
       (encode_manifest es ++ x0a :: encode_varint L ++ b :: body) =
       Ok (record_entries 0 es [])) /\
  (forall es L,
     Forall entry_ok es -> 0 < L ->
     parse_manifest_bytes (encode_manifest es ++ x0a :: encode_varint L) =
       Raise IndexError) /\
  (forall es,
     Forall entry_ok es ->
     parse_manifest_bytes (encode_manifest es ++ [x0a]) = Raise IndexError).
Proof.
  split; [exact parse_manifest_bytes_ends_well|].
  split; [|split; [|split]].
  - intros es tail Hok Htail.
    eapply parse_manifest_bytes_run. by apply manifest_run_entries.
  - intros es L b body Hok Hb HL.
    pose proof (len_nonneg (b :: body)).
    pose proof (len_nonneg (encode_manifest es)).
    pose proof (len_nonneg (encode_varint L)).
    destruct (manifest_run_prefix es (x0a :: encode_varint L ++ b :: body) Hok)
      as (fuel & Hfuel & Hrun).
    destruct fuel as [|[|fuel]]; [simpl in Hfuel; lia..|].
    eapply parse_manifest_bytes_run. rewrite Hrun.
    rewrite manifest_loop_skip by (done || lia).
    apply manifest_loop_exhausted.
    rewrite !len_app, !len_cons, len_app, len_cons in *. lia.
  - intros es L Hok HL.
    destruct (manifest_run_prefix es (x0a :: encode_varint L) Hok)
      as ([|fuel] & Hfuel & Hrun); [lia|].
    apply parse_manifest_bytes_raise. rewrite Hrun.
    by apply manifest_loop_cut_body.
  - intros es Hok.
    destruct (manifest_run_prefix es [x0a] Hok)
      as ([|fuel] & Hfuel & Hrun); [lia|].
    apply parse_manifest_bytes_raise. rewrite Hrun.
    by apply manifest_loop_cut_length.
Qed.

Lemma manifest_decoder_tolerance_witness :
  Forall entry_ok [Named [x61] []] /\
  head [xff; x0a] <> Some x0a /\
  x0b <> x0a /\ len [x0b; x01] < 5 /\ 0 < 5 /\
  parse_manifest_bytes (encode_manifest [Named [x61] []] ++ [xff; x0a]) =
    Ok (record_entries 0 [Named [x61] []] []) /\
  parse_manifest_bytes
    (encode_manifest [Named [x61] []] ++ x0a :: encode_varint 5 ++ [x0b; x01]) =
    Ok (record_entries 0 [Named [x61] []] []) /\
  parse_manifest_bytes (encode_manifest [Named [x61] []] ++ x0a :: encode_varint 5) =
    Raise IndexError /\
  parse_manifest_bytes (encode_manifest [Named [x61] []] ++ [x0a]) =
    Raise IndexError.
Proof.
  assert (Forall entry_ok [Named [x61] []]) as Hok
    by (repeat constructor; by eexists).
  assert (head [xff; x0a] <> Some x0a) as Htail by discriminate.
  assert (x0b <> x0a) as Hb by discriminate.
  assert (len [x0b; x01] < 5) as HL by (unfold len; simpl; lia).
  assert (0 < 5) as H5 by lia.
  destruct manifest_decoder_tolerance as (_ & Hstop & Hskip & Hbody & Htag).
  do 5 (split; [assumption|]).
  split; [exact (Hstop _ _ Hok Htail)|].
  split; [exact (Hskip _ _ _ _ Hok Hb HL)|].
  split; [exact (Hbody _ _ Hok H5)|exact (Htag _ Hok)].
Defined.

(** C2 as stated fails: the decoder raises on a buffer that ends right
    after an entry tag, on one that ends right after a length prefix that
    overruns it, and on a name that is not UTF-8. *)
Lemma manifest_decoder_raises :
  parse_manifest_bytes [x0a] = Raise IndexError /\
  parse_manifest_bytes [x0a; x05] = Raise IndexError /\
  parse_manifest_bytes [x0a; x03; x0a; x01; xff] = Raise UnicodeDecodeError.
Proof. repeat split; vm_compute; reflexivity. Qed.

(** ** The container loader *)

Lemma getinfo_namelist (zf : archive) (name : str) :
  is_Some (getinfo zf name) <-> name ∈ namelist zf.
Proof.
  unfold namelist. induction zf as [|[n content] zf IH]; simpl.
  - split; [by intros [? ?]|by intros ?%elem_of_nil].
  - rewrite elem_of_cons, <- IH.
    destruct (getinfo zf name) as [later|].
    + split; [by right|by eexists].
    + destruct (decide (n = name)) as [->|Hne].
      * split; [by left|by eexists].
      * split; [by intros [? ?]|]. intros [->|[? ?]]; done.
Qed.

Lemma zf_read_present (zf : archive) (name : str) :
  name ∈ namelist zf -> exists content, zf_read zf name = Ok content.
Proof.
  intros [content Hc]%getinfo_namelist. exists content.
  unfold zf_read. by rewrite Hc.
Qed.

Lemma fresh_tmp_unused (w : world) :
  tmp_files w !! fresh (dom (tmp_files w)) = None.
Proof. apply not_elem_of_dom, is_fresh. Qed.

Section loader_facts.
Context `{Platform}.

Lemma extract_newer (zf : archive) (w : world) (compressed : bytes) :
  anki21b ∈ namelist zf -> zf_read zf anki21b = Ok compressed ->
  extract_collection_db zf w =
    let tmp_path := fresh (dom (tmp_files w)) in
    match zstd_decompress compressed with
    | Some decompressed =>
        (Ok tmp_path,
         World (apkg w) (<[tmp_path := decompressed]> (tmp_files w))
           (output_dir w) (source_notes w) (media_dir w))
    | None =>
        (Raise ZstdError,
         World (apkg w) (<[tmp_path := []]> (tmp_files w))
           (output_dir w) (source_notes w) (media_dir w))
    end.
Proof.
  intros Hin Hread. unfold extract_collection_db.
  unfold io_bind at 1. unfold named_temporary_file. cbv beta iota zeta.
  rewrite decide_True by done.
  cbv [io_bind io_lift io_ret tmp_write decompress].
  rewrite Hread. destruct (zstd_decompress compressed); [|done].
  cbn. by rewrite alter_insert_eq.
Qed.

Lemma extract_legacy (zf : archive) (w : world) (data : bytes) :
  anki21b ∉ namelist zf -> anki2 ∈ namelist zf -> zf_read zf anki2 = Ok data ->
  extract_collection_db zf w =
    let tmp_path := fresh (dom (tmp_files w)) in
    (Ok tmp_path,
     World (apkg w) (<[tmp_path := data]> (tmp_files w))
       (output_dir w) (source_notes w) (media_dir w)).
Proof.
  intros Hnew Hold Hread. unfold extract_collection_db.
  unfold io_bind at 1. unfold named_temporary_file. cbv beta iota zeta.
  rewrite decide_False, decide_True by done.
  cbv [io_bind io_lift io_ret tmp_write].
  rewrite Hread. cbn. by rewrite alter_insert_eq.
Qed.

Lemma extract_neither (zf : archive) (w : world) :
  anki21b ∉ namelist zf -> anki2 ∉ namelist zf ->
  extract_collection_db zf w = (Raise ValueError, w).
Proof.
  intros Hnew Hold. unfold extract_collection_db.
  unfold io_bind at 1. unfold named_temporary_file. cbv beta iota zeta.
  rewrite !decide_False by done.
  cbv [io_bind io_lift io_raise io_ret unlink].
  cbn. rewrite lookup_insert_eq, delete_insert_id by apply fresh_tmp_unused.
  by destruct w.
Qed.

(** C5. The loader picks the database by the presence of the two entry
    names and prefers the newer one: when [collection.anki21b] is in the
    archive, whether or not [collection.anki2] is, the temporary file it
    returns holds the zstd decompression of that entry (for an entry that
    decompresses); when only [collection.anki2] is there, the file holds
    that entry's bytes unchanged.  The file is a new one in both cases. *)
Theorem loader_prefers_newer_entry (zf : archive) (w : world) :
  (anki21b ∈ namelist zf ->
   exists compressed,
     zf_read zf anki21b = Ok compressed /\
     forall decompressed,
       zstd_decompress compressed = Some decompressed ->
       exists tmp_path w',
         extract_collection_db zf w = (Ok tmp_path, w') /\
         tmp_files w !! tmp_path = None /\
         tmp_files w' = <[tmp_path := decompressed]> (tmp_files w)) /\
  (anki21b ∉ namelist zf -> anki2 ∈ namelist zf ->
   exists data,
     zf_read zf anki2 = Ok data /\
     exists tmp_path w',
       extract_collection_db zf w = (Ok tmp_path, w') /\
       tmp_files w !! tmp_path = None /\
       tmp_files w' = <[tmp_path := data]> (tmp_files w)).
Proof.
  split.
  - intros Hnew. destruct (zf_read_present _ _ Hnew) as [compressed Hread].
    exists compressed. split; [done|]. intros decompressed Hdec.
    rewrite (extract_newer zf w compressed), Hdec by done.
    eexists _, _. split; [reflexivity|]. split; [apply fresh_tmp_unused|done].
  - intros Hnew Hold. destruct (zf_read_present _ _ Hold) as [data Hread].
    exists data. split; [done|].
    rewrite (extract_legacy zf w data) by done.
    eexists _, _. split; [reflexivity|]. split; [apply fresh_tmp_unused|done].
Qed.

(** ** The orchestrator *)

Lemma main_run (zf : archive) (w : world) :
  apkg w = Some zf -> main w = run_on zf w.
Proof. unfold main. by intros ->. Qed.

Lemma run_on_loader_raises (zf : archive) (w w1 : world) (e : exn) :
  extract_collection_db zf w = (Raise e, w1) -> run_on zf w = (Raise e, w1).
Proof. intros Hx. unfold run_on, io_bind at 1. by rewrite Hx. Qed.

(** C6. The loader fails with the error for a missing database, Python's
    [ValueError], exactly when neither [collection.anki21b] nor
    [collection.anki2] is in the archive; and then [main] stops with that
    error in the world it started in: no output directory, table or media
    directory is created or changed, and no temporary file is left. *)
Theorem no_database_is_fatal (zf : archive) (w : world) :
  ((exists w', extract_collection_db zf w = (Raise ValueError, w')) <->
   (anki21b ∉ namelist zf) /\ (anki2 ∉ namelist zf)) /\
  (anki21b ∉ namelist zf -> anki2 ∉ namelist zf -> apkg w = Some zf ->
   exists w',
     main w = (Raise ValueError, w') /\ same_output w w' /\
     tmp_files w' = tmp_files w).
Proof.
  split.
  - split.
    + intros [w' Hx].
      destruct (decide (anki21b ∈ namelist zf)) as [Hnew|Hnew].
      { destruct (zf_read_present _ _ Hnew) as [compressed Hread].
        rewrite (extract_newer zf w compressed) in Hx by done.
        simpl in Hx. by destruct (zstd_decompress compressed). }
      destruct (decide (anki2 ∈ namelist zf)) as [Hold|Hold]; [|done].
      destruct (zf_read_present _ _ Hold) as [data Hread].
      by rewrite (extract_legacy zf w data) in Hx.
    + intros [Hnew Hold]. exists w. by apply extract_neither.
  - intros Hnew Hold Hzf. exists w. split; [|done].
    rewrite (main_run zf) by done.
    apply run_on_loader_raises. by apply extract_neither.
Qed.

End loader_facts.

(** ** Later stages and the temporary files *)

Lemma preserves_tmp_ret {A} (a : A) : preserves_tmp (io_ret a).
Proof. by intros w r w' [= _ <-]. Qed.

Lemma preserves_tmp_lift {A} (r : outcome A) : preserves_tmp (io_lift r).
Proof. by intros w r' w' [= _ <-]. Qed.

Lemma preserves_tmp_bind {A B} (m : io A) (f : A -> io B) :
  preserves_tmp m -> (forall a, preserves_tmp (f a)) ->
  preserves_tmp (io_bind m f).
Proof.
  intros Hm Hf w r w'. unfold io_bind.
  destruct (m w) as [[a|e|] w1] eqn:Hmw; pose proof (Hm _ _ _ Hmw) as H1.
  - intros Hfa%Hf. congruence.
  - intros [= _ <-]. done.
  - intros [= _ <-]. done.
Qed.

Lemma preserves_tmp_mkdir_output : preserves_tmp mkdir_output.
Proof. by intros w r w' [= _ <-]. Qed.

Lemma preserves_tmp_write_notes notes : preserves_tmp (write_notes notes).
Proof.
  intros w r w'. unfold write_notes.
  by destruct (decide _); intros [= _ <-].
Qed.

Lemma preserves_tmp_reset_media_dir : preserves_tmp reset_media_dir.
Proof. by intros w r w' [= _ <-]. Qed.

Lemma preserves_tmp_write_media `{Platform} filename data :
  preserves_tmp (write_media filename data).
Proof.
  intros w r w'. unfold write_media.
  destruct (write_bytes (media_dir w) filename data) as [r0 dir].
  by intros [= _ <-].
Qed.

Lemma preserves_tmp_copy_media `{Platform} zf filename_to_entry referenced :
  preserves_tmp (copy_media zf filename_to_entry referenced).
Proof.
  induction referenced as [|filename rest IH]; simpl.
  - apply preserves_tmp_ret.
  - destruct (dict_get filename filename_to_entry); [|apply preserves_tmp_lift].
    apply preserves_tmp_bind; [apply preserves_tmp_lift|]. intros data.
    apply preserves_tmp_bind; [apply preserves_tmp_write_media|]. by intros _.
Qed.

Section main_facts.
Context `{Platform}.

(** The stages of [run_on] after the query. *)
Lemma preserves_tmp_after_query (zf : archive) (rows : list row) :
  preserves_tmp
    (io_bind (io_lift (transform_all rows ∅ [])) (fun transformed =>
       let '(all_media_refs, notes) := transformed in
       io_bind mkdir_output (fun _ =>
       io_bind (write_notes notes) (fun _ =>
       io_bind (io_lift (zf_read zf (lit "media"))) (fun media =>
       io_bind (io_lift (parse_media_manifest media)) (fun manifest =>
         let filename_to_entry := invert manifest in
         let referenced :=
           filter (fun f => f ∈ dict_keys filename_to_entry) all_media_refs in
         io_bind reset_media_dir (fun _ =>
           copy_media zf filename_to_entry (elements referenced)))))))).
Proof.
  apply preserves_tmp_bind; [apply preserves_tmp_lift|]. intros [refs notes].
  apply preserves_tmp_bind; [apply preserves_tmp_mkdir_output|]. intros _.
  apply preserves_tmp_bind; [apply preserves_tmp_write_notes|]. intros _.
  apply preserves_tmp_bind; [apply preserves_tmp_lift|]. intros media.
  apply preserves_tmp_bind; [apply preserves_tmp_lift|]. intros manifest.
  apply preserves_tmp_bind; [apply preserves_tmp_reset_media_dir|]. intros _.
  apply preserves_tmp_copy_media.
Qed.

(** The query stage with its [finally], on a fresh temporary file. *)
Lemma query_stage_releases (w : world) (tmp_path : nat) (db : bytes) :
  tmp_files w !! tmp_path = None ->
  exists r,
    try_finally (query_notes tmp_path) (unlink tmp_path)
      (World (apkg w) (<[tmp_path := db]> (tmp_files w)) (output_dir w)
         (source_notes w) (media_dir w)) = (r, w).
Proof.
  intros Hfresh. unfold try_finally, query_notes, io_bind, tmp_contents.
  cbn. rewrite lookup_insert_eq.
  destruct (sqlite_select_notes db ANKING_MODEL_ID) as [rows|];
    cbv [io_ret io_raise io_lift unlink]; cbn;
    rewrite lookup_insert_eq, delete_insert_id by done;
    destruct w; by eexists.
Qed.

(** Once the loader has returned, every path of [main] ends with the
    temporary files it started with. *)
Lemma run_on_releases (zf : archive) (w w1 : world) (tmp_path : nat) :
  extract_collection_db zf w = (Ok tmp_path, w1) ->
  forall r w', run_on zf w = (r, w') -> tmp_files w' = tmp_files w.
Proof.
  intros Hx r w'. unfold run_on. unfold io_bind at 1. rewrite Hx.
  assert (tmp_files w !! tmp_path = None /\
          exists db, w1 = World (apkg w) (<[tmp_path := db]> (tmp_files w))
                         (output_dir w) (source_notes w) (media_dir w))
    as [Hfresh [db ->]].
  { destruct (decide (anki21b ∈ namelist zf)) as [Hnew|Hnew].
    - destruct (zf_read_present _ _ Hnew) as [compressed Hread].
      rewrite (extract_newer zf w compressed) in Hx by done. simpl in Hx.
      destruct (zstd_decompress compressed) as [d|]; [|done].
      injection Hx as <- <-. split; [apply fresh_tmp_unused|by eexists].
    - destruct (decide (anki2 ∈ namelist zf)) as [Hold|Hold].
      + destruct (zf_read_present _ _ Hold) as [data Hread].
        rewrite (extract_legacy zf w data) in Hx by done. simpl in Hx.
        injection Hx as <- <-. split; [apply fresh_tmp_unused|by eexists].
      + by rewrite extract_neither in Hx. }
  unfold io_bind at 1.
  destruct (query_stage_releases w tmp_path db Hfresh) as [rq ->].
  destruct rq as [rows|e|]; [|by intros [= _ <-]..].
  apply preserves_tmp_after_query.
Qed.

(** C7, the failing path. When [collection.anki21b] is present and its
    bytes are not a valid zstd frame, [main] ends with the decompression
    error and the temporary file the loader created is still there, empty:
    nothing deletes it.  On the other paths the temporary file is gone
    when [main] ends: when the loader returns, whatever happens later, and
    when it finds no database. *)
Theorem temp_db_leaks_when_decompression_fails (zf : archive) (w : world) :
  apkg w = Some zf ->
  (forall compressed,
     anki21b ∈ namelist zf -> zf_read zf anki21b = Ok compressed ->
     zstd_decompress compressed = None ->
     exists tmp_path w',
       main w = (Raise ZstdError, w') /\
       tmp_files w !! tmp_path = None /\
       tmp_files w' = <[tmp_path := []]> (tmp_files w)) /\
  (forall tmp_path w1,
     extract_collection_db zf w = (Ok tmp_path, w1) ->
     forall r w', main w = (r, w') -> tmp_files w' = tmp_files w) /\
  (anki21b ∉ namelist zf -> anki2 ∉ namelist zf ->
     forall r w', main w = (r, w') -> tmp_files w' = tmp_files w).
Proof.
  intros Hzf. rewrite (main_run zf) by done. split; [|split].
  - intros compressed Hnew Hread Hdec.
    pose proof (extract_newer zf w compressed Hnew Hread) as Hx.
    simpl in Hx. rewrite Hdec in Hx.
    eexists _, _. split; [exact (run_on_loader_raises _ _ _ _ Hx)|].
    split; [apply fresh_tmp_unused|reflexivity].
  - intros tmp_path w1 Hx r w'. by eapply run_on_releases.
  - intros Hnew Hold r w'.
    rewrite (run_on_loader_raises _ _ _ _ (extract_neither zf w Hnew Hold)).
    by intros [= _ <-].
Qed.

End main_facts.

Lemma loader_prefers_newer_entry_witness :
  anki21b ∈ namelist both_archive /\
  (anki21b ∉ namelist legacy_archive) /\ anki2 ∈ namelist legacy_archive /\
  (exists tmp_path w',
     @extract_collection_db test_platform both_archive (start both_archive) =
       (Ok tmp_path, w') /\
     tmp_files w' = <[tmp_path := blit "new"]> ∅) /\
  (exists tmp_path w',
     @extract_collection_db test_platform legacy_archive (start legacy_archive) =
       (Ok tmp_path, w') /\
     tmp_files w' = <[tmp_path := blit "old"]> ∅).
Proof.
  assert (anki21b ∈ namelist both_archive) as Hboth by by_eval.
  assert (anki21b ∉ namelist legacy_archive) as Hnew by by_eval.
  assert (anki2 ∈ namelist legacy_archive) as Hold by by_eval.
  do 3 (split; [assumption|]). split.
  - destruct (proj1 (@loader_prefers_newer_entry test_platform both_archive
                       (start both_archive)) Hboth)
      as (compressed & Hread & Hall).
    injection Hread as <-.
    destruct (Hall (blit "new") eq_refl) as (tmp_path & w' & Hx & _ & Htmp).
    by exists tmp_path, w'.
  - destruct (proj2 (@loader_prefers_newer_entry test_platform legacy_archive
                       (start legacy_archive)) Hnew Hold)
      as (data & Hread & tmp_path & w' & Hx & _ & Htmp).
    injection Hread as <-.
    by exists tmp_path, w'.
Defined.

Lemma no_database_is_fatal_witness :
  (anki21b ∉ namelist no_db_archive) /\ (anki2 ∉ namelist no_db_archive) /\
  apkg (start no_db_archive) = Some no_db_archive /\
  exists w',
    @main test_platform (start no_db_archive) = (Raise ValueError, w') /\
    same_output (start no_db_archive) w' /\
    tmp_files w' = tmp_files (start no_db_archive).
Proof.
  assert (anki21b ∉ namelist no_db_archive) as Hnew by by_eval.
  assert (anki2 ∉ namelist no_db_archive) as Hold by by_eval.
  do 2 (split; [assumption|]). split; [reflexivity|].
  exact (proj2 (@no_database_is_fatal test_platform no_db_archive
                  (start no_db_archive)) Hnew Hold eq_refl).
Defined.

Lemma temp_db_leaks_when_decompression_fails_witness :
  apkg (start broken_archive) = Some broken_archive /\
  anki21b ∈ namelist broken_archive /\
  zf_read broken_archive anki21b = Ok (blit "not a frame") /\
  @zstd_decompress test_platform (blit "not a frame") = None /\
  exists tmp_path w',
    @main test_platform (start broken_archive) = (Raise ZstdError, w') /\
    tmp_files (start broken_archive) !! tmp_path = None /\
    tmp_files w' = <[tmp_path := []]> (tmp_files (start broken_archive)).
Proof.
  assert (anki21b ∈ namelist broken_archive) as Hnew by by_eval.
  split; [reflexivity|]. split; [assumption|].
  split; [reflexivity|]. split; [reflexivity|].
  exact (proj1 (@temp_db_leaks_when_decompression_fails test_platform
                  broken_archive (start broken_archive) eq_refl)
           (blit "not a frame") Hnew eq_refl eq_refl).
Defined.

(** ** The text sanitizer *)

(** The protecting pass over any text: the images are recorded in the
    order they occur and the one of index [i] gives way to the placeholder
    of index [i]. *)
Lemma save_img_fold (tokens : list token) : forall (saved : list str) (out : str),
  foldl (fun '(st, out) t =>
           match t with
           | Text a => (st, out ++ [a])
           | Match g0 _ => let '(st', r) := _save_img st g0 in (st', out ++ r)
           end) (saved, out) tokens =
    (saved ++ matched tokens, out ++ protected tokens (length saved)).
Proof.
  induction tokens as [|[a|g0 g1] tokens IH]; intros saved out;
    cbn [foldl matched protected].
  - by rewrite !app_nil_r.
  - cbv beta iota. rewrite IH, <- app_assoc. reflexivity.
  - unfold _save_img. cbv beta iota zeta.
    rewrite IH, !length_app, <- !app_assoc. cbn [length app].
    replace (length saved + 1 - 1)%nat with (length saved) by lia.
    replace (length saved + 1)%nat with (S (length saved)) by lia.
    reflexivity.
Qed.

Lemma protect_images (re : regex) (raw : str) :
  sub_fn re _save_img [] raw =
    (matched (scan re raw 0), protected (scan re raw 0) 0).
Proof. unfold sub_fn. by rewrite save_img_fold. Qed.


(** ** Splitting the fields *)

Lemma split_nonempty (sep : N) (s : str) : split sep s <> [].
Proof.
  destruct s as [|a s]; simpl; [done|].
  destruct (a =? sep)%N; [done|]. by destruct (split sep s).
Qed.

Lemma split_no_sep (sep : N) (s : str) : sep ∉ s -> split sep s = [s].
Proof.
  induction s as [|a s IH]; simpl; [done|].
  rewrite not_elem_of_cons. intros [Hne Hnot].
  destruct (N.eqb_spec a sep) as [->|_]; [done|]. by rewrite IH.
Qed.

Lemma split_with_sep (sep : N) (s : str) :
  sep ∈ s -> (2 <= length (split sep s))%nat.
Proof.
  induction s as [|a s IH]; simpl; [by intros ?%elem_of_nil|].
  pose proof (split_nonempty sep s) as Hne.
  destruct (N.eqb_spec a sep) as [->|Hneq].
  - intros _. destruct (split sep s); [done|]. simpl. lia.
  - rewrite elem_of_cons. intros [->|Hin]; [done|].
    specialize (IH Hin). destruct (split sep s); simpl in *; lia.
Qed.

Lemma split_single_iff (sep : N) (s : str) :
  sep ∉ s <-> len (split sep s) < 2.
Proof.
  unfold len. split.
  - intros Hnot. rewrite split_no_sep by done. simpl. lia.
  - intros Hlen Hin%split_with_sep. lia.
Qed.

Lemma getitem_in_range {A} (l : list A) (i : Z) :
  0 <= i < len l -> exists x, getitem l i = Ok x.
Proof.
  intros Hi. rewrite getitem_nonneg by lia.
  destruct (lookup_lt_is_Some_2 l (Z.to_nat i)) as [x ->]; [|by eexists].
  unfold len in Hi. lia.
Qed.

Section note_facts.
Context `{Platform}.

Lemma transform_note_short (r : row) :
  len (split FIELD_SEP (row_flds r)) < 2 -> transform_note r = Raise IndexError.
Proof.
  intros Hlen. unfold transform_note.
  pose proof (split_nonempty FIELD_SEP (row_flds r)) as Hne.
  destruct (split FIELD_SEP (row_flds r)) as [|raw_text [|raw_extra rest]];
    [done| |].
  - reflexivity.
  - unfold len in Hlen. simpl in Hlen. lia.
Qed.

Lemma transform_note_long (r : row) :
  2 <= len (split FIELD_SEP (row_flds r)) ->
  exists n refs,
    transform_note r = Ok (n, refs) /\
    (len (split FIELD_SEP (row_flds r)) <= IDX_ONE_BY_ONE ->
     one_by_one n = if is_one_by_one_truthy [] then 1 else 0).
Proof.
  intros Hlen. unfold transform_note.
  set (fields := split FIELD_SEP (row_flds r)) in *.
  destruct (getitem_in_range fields IDX_TEXT) as [raw_text ->];
    [unfold IDX_TEXT; lia|].
  destruct (getitem_in_range fields IDX_EXTRA) as [raw_extra ->];
    [unfold IDX_EXTRA; lia|].
  cbn [mbind outcome_bind].
  destruct (Z.ltb_spec IDX_ONE_BY_ONE (len fields)) as [Hmark|Hmark].
  - destruct (getitem_in_range fields IDX_ONE_BY_ONE) as [marker ->];
      [unfold IDX_ONE_BY_ONE in *; lia|].
    cbn [mbind outcome_bind]. eexists _, _. split; [reflexivity|]. lia.
  - cbn [mbind outcome_bind]. eexists _, _. split; [reflexivity|]. done.
Qed.

Lemma transform_note_outcome (r : row) :
  transform_note r = Raise IndexError \/
  exists n refs, transform_note r = Ok (n, refs).
Proof.
  destruct (Z.lt_ge_cases (len (split FIELD_SEP (row_flds r))) 2).
  - left. by apply transform_note_short.
  - right. destruct (transform_note_long r) as (n & refs & Hn & _); [lia|].
    by eexists _, _.
Qed.

Lemma transform_all_short (rows : list row) : forall refs notes r,
  r ∈ rows -> len (split FIELD_SEP (row_flds r)) < 2 ->
  transform_all rows refs notes = Raise IndexError.
Proof.
  induction rows as [|r0 rows IH]; intros refs notes r Hin Hshort.
  - by apply elem_of_nil in Hin.
  - simpl. destruct (transform_note_outcome r0) as [->|(n & refs0 & Hn)]; [done|].
    apply elem_of_cons in Hin as [->|Hin].
    + by rewrite transform_note_short in Hn.
    + rewrite Hn. cbn [mbind outcome_bind]. by eapply IH.
Qed.

(** C10. A source record whose [flds] holds no separator splits into one
    field, and transforming it fails with [IndexError] at the read of the
    extra field, position 1; so does the loop over any list of records that
    contains one.  With two fields or more the transformation returns, and
    with at most sixteen the marker of position 16 is taken as empty: only
    that read is guarded by the number of fields. *)
Theorem short_record_fails (r : row) :
  (FIELD_SEP ∉ row_flds r <-> len (split FIELD_SEP (row_flds r)) < 2) /\
  (len (split FIELD_SEP (row_flds r)) < 2 ->
   transform_note r = Raise IndexError /\
   forall rows refs notes,
     r ∈ rows -> transform_all rows refs notes = Raise IndexError) /\
  (2 <= len (split FIELD_SEP (row_flds r)) ->
   exists n refs,
     transform_note r = Ok (n, refs) /\
     (len (split FIELD_SEP (row_flds r)) <= IDX_ONE_BY_ONE ->
      one_by_one n = if is_one_by_one_truthy [] then 1 else 0)).
Proof.
  split; [apply split_single_iff|]. split.
  - intros Hshort. split; [by apply transform_note_short|].
    intros rows refs notes Hin. by eapply transform_all_short.
  - apply transform_note_long.
Qed.

End note_facts.

Lemma short_record_fails_witness :
  len (split FIELD_SEP (row_flds (Row 7 (lit "{{c1::only text}}") []))) < 2 /\
  2 <= len (split FIELD_SEP
              (row_flds (Row 8 (lit "text" ++ [FIELD_SEP] ++ lit "extra") []))) /\
  @transform_note test_platform (Row 7 (lit "{{c1::only text}}") []) =
    Raise IndexError /\
  exists n refs,
    @transform_note test_platform
      (Row 8 (lit "text" ++ [FIELD_SEP] ++ lit "extra") []) = Ok (n, refs).
Proof.
  assert (len (split FIELD_SEP
                 (row_flds (Row 7 (lit "{{c1::only text}}") []))) < 2)
    as Hshort by (vm_compute; reflexivity).
  assert (2 <= len (split FIELD_SEP
            (row_flds (Row 8 (lit "text" ++ [FIELD_SEP] ++ lit "extra") []))))
    as Hlong by (vm_compute; discriminate).
  do 2 (split; [assumption|]). split.
  - exact (proj1 (proj1 (proj2 (@short_record_fails test_platform
             (Row 7 (lit "{{c1::only text}}") []))) Hshort)).
  - destruct (proj2 (proj2 (@short_record_fails test_platform
             (Row 8 (lit "text" ++ [FIELD_SEP] ++ lit "extra") []))) Hlong)
      as (n & refs & Hn & _).
    by exists n, refs.
Defined.

(** ** The matcher on a greedy run *)

Lemma class_run {A} (c : A -> bool) (s : list A) :
  exists run rest,
    s = run ++ rest /\ Forall (fun a => c a = true) run /\ stops c rest.
Proof.
  induction s as [|a s (run & rest & -> & Hrun & Hrest)].
  - by exists [], [].
  - destruct (c a) eqn:Ha.
    + exists (a :: run), rest. repeat split; [by constructor|done].
    + exists [], (a :: run ++ rest). by repeat split.
Qed.

(** A greedy repetition before a continuation that refuses every character
    of the class: the repetition takes the whole run or the match fails. *)
Lemma rep_greedy_run {R} (k : str -> nat -> option R) (c : N -> bool) :
  (forall a s n, c a = true -> k (a :: s) n = None) ->
  forall ds rest min n,
    Forall (fun a => c a = true) ds -> stops c rest ->
    rep k c min true (ds ++ rest) n =
      if decide (min <= length ds)%nat then k rest (n + length ds)%nat else None.
Proof.
  intros Hk ds. induction ds as [|d ds IH]; intros rest min n Hds Hrest.
  - simpl. rewrite Nat.add_0_r.
    destruct min as [|min], rest as [|a rest]; simpl in *; try done.
    + by rewrite Hrest.
    + by rewrite Hrest.
  - apply Forall_cons in Hds as [Hd Hds]. simpl app.
    destruct min as [|min]; simpl rep; rewrite Hd, IH by done.
    + rewrite decide_True by lia. simpl length.
      replace (n + S (length ds))%nat with (S n + length ds)%nat by lia.
      destruct (k rest (S n + length ds)%nat) eqn:Hrest_k; [done|].
      rewrite decide_True by lia. by apply Hk.
    + simpl length.
      replace (n + S (length ds))%nat with (S n + length ds)%nat by lia.
      destruct (decide (min <= length ds)%nat);
        [by rewrite decide_True by lia|by rewrite decide_False by lia].
Qed.

Lemma scan_cons (re : regex) (a : N) (s : str) (skip : nat) :
  scan re (a :: s) skip =
    match skip with
    | S k => scan re s k
    | O =>
        match match_here re (a :: s) with
        | Some (S n, (gs, ge)) =>
            Match (take (S n) (a :: s)) (take (ge - gs) (drop gs (a :: s)))
              :: scan re s n
        | _ => Text a :: scan re s 0
        end
    end.
Proof. reflexivity. Qed.

(** ** No pattern of the script matches the empty string *)

Lemma rep_consumes (k : str -> nat -> option (nat * (nat * nat))) (c : N -> bool)
    (m : nat) :
  (forall s n r, k s n = Some r -> (n + m <= r.1)%nat) ->
  forall s min greedy n r,
    rep k c min greedy s n = Some r -> (n + min + m <= r.1)%nat.
Proof.
  intros Hk s. induction s as [|a s IH]; intros min greedy n r.
  - destruct min as [|min]; simpl; [|done].
    destruct greedy; [|destruct (k [] n) eqn:Hkn; [|done]];
      intros Hr; [apply Hk in Hr|injection Hr as <-; apply Hk in Hkn]; lia.
  - destruct min as [|min]; simpl.
    + destruct greedy.
      * destruct (c a).
        -- destruct (rep k c 0 true s (S n)) as [r'|] eqn:Hrep.
           ++ intros [= <-]. apply IH in Hrep. lia.
           ++ intros Hr%Hk. lia.
        -- intros Hr%Hk. lia.
      * destruct (k (a :: s) n) as [r'|] eqn:Hkn.
        -- intros [= <-]. apply Hk in Hkn. lia.
        -- destruct (c a); [|done]. intros Hr%IH. lia.
    + destruct (c a); [|done]. intros Hr%IH. lia.
Qed.

Lemma run_consumes (re : regex) : forall s n g r,
  run re s n g = Some r -> (n + min_length re <= r.1)%nat.
Proof.
  induction re as [|[c|c min greedy| |] re IH]; intros s n g r; simpl.
  - intros [= <-]. simpl. lia.
  - destruct s as [|a s]; [done|]. destruct (c a); [|done].
    intros Hr%IH. lia.
  - intros Hr. apply (rep_consumes _ _ (min_length re)) in Hr; [lia|].
    intros s' n' r' Hr'. by eapply IH.
  - apply IH.
  - apply IH.
Qed.

Lemma match_here_nonempty (re : regex) (s : str) (g : nat * nat) :
  (0 < min_length re)%nat -> match_here re s <> Some (0%nat, g).
Proof.
  intros Hmin Hm. apply run_consumes in Hm. simpl in Hm. lia.
Qed.

Lemma script_patterns_nonempty `{Platform} (re : regex) (s : str) (g : nat * nat) :
  re ∈ [RE_CLOZE_NUM; RE_IMG_TAG; RE_SOUND_REF; RE_HTML_TAG; RE_MULTI_NEWLINE] ->
  match_here re s <> Some (0%nat, g).
Proof.
  intros Hre. apply match_here_nonempty.
  repeat (apply elem_of_cons in Hre as [->|Hre]; [simpl; lia|]).
  by apply elem_of_nil in Hre.
Qed.

(** ** The cloze pattern *)

Lemma is_char_true (a : ascii) (c : N) : is_char a c = true <-> c = chr a.
Proof. unfold is_char. apply N.eqb_eq. Qed.

Section cloze_facts.
Context `{Platform}.

(** What the pattern needs from the Unicode tables: the two punctuation
    characters of the opener are not decimal digits. *)
Hypothesis brace_not_decimal : unicode_isdecimal (chr "{") = false.
Hypothesis colon_not_decimal : unicode_isdecimal (chr ":") = false.

Let digit (c : N) : Prop := unicode_isdecimal c = true.

(** The rest of the pattern after the digits: [)::]. *)
Let after_digits (s : str) (n : nat) : option (nat * (nat * nat)) :=
  run [GroupClose; One (is_char ":"); One (is_char ":")] s n (3%nat, 0%nat).

Lemma after_digits_refuses (a : N) (s : str) (n : nat) :
  unicode_isdecimal a = true -> after_digits (a :: s) n = None.
Proof.
  intros Ha. unfold after_digits. cbn.
  destruct (is_char ":" a) eqn:Hc; [|done].
  apply is_char_true in Hc. subst a. congruence.
Qed.

Lemma after_digits_colons (post : str) (n : nat) :
  after_digits (lit "::" ++ post) n = Some (n + 2, (3, n))%nat.
Proof. unfold after_digits. cbn. do 3 f_equal. lia. Qed.

Lemma after_digits_inv (s : str) (n : nat) r :
  after_digits s n = Some r ->
  exists post, s = lit "::" ++ post /\ r = (n + 2, (3, n))%nat.
Proof.
  unfold after_digits. cbn.
  destruct s as [|a [|b post]]; try done.
  - by destruct (is_char ":" a).
  - destruct (is_char ":" a) eqn:Ha; [|done].
    destruct (is_char ":" b) eqn:Hb; [|done].
    apply is_char_true in Ha, Hb. subst. intros [= <-].
    exists post. split; [done|]. do 2 f_equal. lia.
Qed.

Lemma match_here_cloze_digits (s3 : str) :
  match_here RE_CLOZE_NUM (lit "{{c" ++ s3) =
    rep after_digits unicode_isdecimal 1 true s3 3.
Proof. reflexivity. Qed.

Lemma stops_colon (post : str) : stops unicode_isdecimal (lit "::" ++ post).
Proof. exact colon_not_decimal. Qed.

(** The opener at the start of a text is matched, with its digits as
    group 1. *)
Lemma match_here_cloze_opener (N post : str) :
  N <> [] -> Forall digit N ->
  match_here RE_CLOZE_NUM (lit "{{c" ++ N ++ lit "::" ++ post) =
    Some (5 + length N, (3, 3 + length N))%nat.
Proof.
  intros Hne HN. rewrite match_here_cloze_digits.
  rewrite (rep_greedy_run after_digits unicode_isdecimal after_digits_refuses)
    by (done || apply stops_colon).
  rewrite decide_True by (destruct N; simpl; [done|lia]).
  rewrite after_digits_colons. do 2 f_equal. lia.
Qed.

(** A match of the pattern is an opener. *)
Lemma match_here_cloze_inv (s : str) (n gs ge : nat) :
  match_here RE_CLOZE_NUM s = Some (n, (gs, ge)) ->
  exists N post,
    s = lit "{{c" ++ N ++ lit "::" ++ post /\ N <> [] /\ Forall digit N /\
    n = (5 + length N)%nat /\ gs = 3%nat /\ ge = (3 + length N)%nat.
Proof.
  destruct s as [|a0 [|a1 [|a2 s3]]]; try done.
  - unfold match_here. cbn. by destruct (is_char "{" a0).
  - unfold match_here. cbn.
    by destruct (is_char "{" a0), (is_char "{" a1).
  - destruct (is_char "{" a0) eqn:H0;
      [|by unfold match_here; cbn; rewrite H0].
    destruct (is_char "{" a1) eqn:H1;
      [|by unfold match_here; cbn; rewrite H0, H1].
    destruct (is_char "c" a2) eqn:H2;
      [|by unfold match_here; cbn; rewrite H0, H1, H2].
    apply is_char_true in H0, H1, H2. subst a0 a1 a2.
    change (chr "{" :: chr "{" :: chr "c" :: s3) with (lit "{{c" ++ s3).
    rewrite match_here_cloze_digits.
    destruct (class_run unicode_isdecimal s3) as (ds & rest & -> & Hds & Hrest).
    rewrite (rep_greedy_run after_digits unicode_isdecimal after_digits_refuses)
      by done.
    destruct (decide (1 <= length ds)%nat) as [Hlen|]; [|done].
    intros (post & -> & [= -> -> ->])%after_digits_inv.
    exists ds, post. repeat split; try done; try lia.
    intros ->. simpl in Hlen. lia.
Qed.

(** Two openers do not overlap: an opener that starts after the start of
    another one starts after its end. *)
Lemma digits_then_brace (N1 post1 pre tail : str) :
  Forall digit N1 ->
  N1 ++ lit "::" ++ post1 = pre ++ chr "{" :: tail ->
  (length N1 + 2 <= length pre)%nat.
Proof.
  revert pre. induction N1 as [|d N1 IH]; intros pre HN1 Heq.
  - destruct pre as [|p0 [|p1 pre]]; simpl in *; [done|done|lia].
  - apply Forall_cons in HN1 as [Hd HN1].
    destruct pre as [|p0 pre]; simpl in *.
    + injection Heq as -> _. unfold digit in Hd. congruence.
    + injection Heq as _ Heq. specialize (IH pre HN1 Heq). lia.
Qed.

Lemma openers_disjoint (N1 post1 pre N post : str) :
  Forall digit N1 -> pre <> [] ->
  lit "{{c" ++ N1 ++ lit "::" ++ post1 = pre ++ lit "{{c" ++ N ++ lit "::" ++ post ->
  (5 + length N1 <= length pre)%nat.
Proof.
  intros HN1 Hpre Heq.
  destruct pre as [|p0 [|p1 [|p2 pre]]]; [done|done|done|].
  simpl in Heq. injection Heq as _ _ _ Heq.
  pose proof (digits_then_brace N1 post1 pre _ HN1 Heq). simpl. lia.
Qed.

Lemma cloze_opener_cons (a : N) (N text : str) :
  cloze_opener N text -> cloze_opener N (a :: text).
Proof.
  intros (Hne & HN & pre & post & ->).
  repeat split; [done..|]. by exists (a :: pre), post.
Qed.

Lemma scan_cloze_sound (s : str) : forall skip g0 g1,
  Match g0 g1 ∈ scan RE_CLOZE_NUM s skip -> cloze_opener g1 s.
Proof.
  induction s as [|a s IH]; intros skip g0 g1.
  - by intros ?%elem_of_nil.
  - rewrite scan_cons. destruct skip as [|k].
    + destruct (match_here RE_CLOZE_NUM (a :: s)) as [[[|n] [gs ge]]|] eqn:Hm.
      * intros [?|Hin]%elem_of_cons; [done|].
        by eapply cloze_opener_cons, IH.
      * apply match_here_cloze_inv in Hm
          as (N & post & Hs & Hne & HN & Hn & -> & ->).
        intros [Heq|Hin]%elem_of_cons;
          [|by eapply cloze_opener_cons, IH].
        assert (g1 = N) as ->.
        { rewrite Hs in Heq.
          change (drop 3 (lit "{{c" ++ N ++ lit "::" ++ post))
            with (N ++ lit "::" ++ post) in Heq.
          replace (3 + length N - 3)%nat with (length N) in Heq by lia.
          rewrite take_app_length in Heq. congruence. }
        rewrite Hs.
        repeat split; [done..|]. by exists [], post.
      * intros [?|Hin]%elem_of_cons; [done|].
        by eapply cloze_opener_cons, IH.
    + intros Hin. by eapply cloze_opener_cons, IH.
Qed.

Lemma scan_cloze_complete (s : str) : forall skip pre N post,
  s = pre ++ lit "{{c" ++ N ++ lit "::" ++ post ->
  N <> [] -> Forall digit N -> (skip <= length pre)%nat ->
  exists g0, Match g0 N ∈ scan RE_CLOZE_NUM s skip.
Proof.
  induction s as [|a s IH]; intros skip pre N post Hs Hne HN Hskip.
  - by destruct pre.
  - rewrite scan_cons. destruct skip as [|k].
    + destruct pre as [|p0 pre].
      * rewrite app_nil_l in Hs. rewrite Hs.
        rewrite (match_here_cloze_opener N post) by done.
        change (5 + length N)%nat with (S (4 + length N)).
        eexists. apply elem_of_cons. left.
        replace (3 + length N - 3)%nat with (length N) by lia.
        change (drop 3 (lit "{{c" ++ N ++ lit "::" ++ post))
          with (N ++ lit "::" ++ post).
        by rewrite take_app_length.
      * injection Hs as -> Hs.
        destruct (match_here RE_CLOZE_NUM (p0 :: s))
          as [[[|n] [gs ge]]|] eqn:Hm.
        -- destruct (IH 0%nat pre N post Hs Hne HN ltac:(lia)) as [g0 Hg0].
           exists g0. by apply elem_of_cons; right.
        -- apply match_here_cloze_inv in Hm
             as (N1 & post1 & Hs1 & Hne1 & HN1 & Hn & -> & ->).
           pose proof (openers_disjoint N1 post1 (p0 :: pre) N post HN1
                         ltac:(done)) as Hdisj.
           rewrite <- Hs1 in Hdisj. simpl in Hdisj.
           rewrite Hs in Hdisj. specialize (Hdisj eq_refl).
           destruct (IH n pre N post Hs Hne HN ltac:(simpl in *; lia))
             as [g0 Hg0].
           exists g0. by apply elem_of_cons; right.
        -- destruct (IH 0%nat pre N post Hs Hne HN ltac:(lia)) as [g0 Hg0].
           exists g0. by apply elem_of_cons; right.
    + destruct pre as [|p0 pre]; [simpl in Hskip; lia|].
      injection Hs as -> Hs.
      apply (IH k pre N post Hs Hne HN). simpl in Hskip. lia.
Qed.

(** [findall] returns exactly the cloze-group numbers that occur. *)
Lemma findall_cloze_iff (N text : str) :
  N ∈ findall RE_CLOZE_NUM text <-> cloze_opener N text.
Proof.
  unfold findall, finditer. rewrite list_elem_of_fmap. split.
  - intros ([g0 g1] & -> & Hin). apply list_elem_of_omap in Hin
      as ([a|g0' g1'] & Hin & Ht); [done|].
    injection Ht as -> ->. by eapply scan_cloze_sound.
  - intros (Hne & HN & pre & post & Hs).
    destruct (scan_cloze_complete text 0%nat pre N post Hs Hne HN ltac:(lia))
      as [g0 Hg0].
    exists (g0, N). split; [done|].
    apply list_elem_of_omap. by exists (Match g0 N).
Qed.

Lemma count_cloze_numbers_distinct (text : str) (Ns : list str) :
  NoDup Ns -> (forall N, N ∈ Ns <-> cloze_opener N text) ->
  count_cloze_numbers text = Z.of_nat (length Ns).
Proof.
  intros Hnodup HNs. unfold count_cloze_numbers. f_equal.
  rewrite <- (size_list_to_set (C := gset str) Ns) by done.
  f_equal. apply set_eq. intros N.
  by rewrite !elem_of_list_to_set, findall_cloze_iff, HNs.
Qed.

Lemma cloze_numbers_listed (text : str) :
  exists Ns, NoDup Ns /\ forall N, N ∈ Ns <-> cloze_opener N text.
Proof.
  exists (remove_dups (findall RE_CLOZE_NUM text)).
  split; [apply NoDup_remove_dups|]. intros N.
  by rewrite elem_of_remove_dups, findall_cloze_iff.
Qed.

End cloze_facts.

Section cloze_claim.
Context `{Platform}.

Hypothesis brace_not_decimal : unicode_isdecimal (chr "{") = false.
Hypothesis colon_not_decimal : unicode_isdecimal (chr ":") = false.

Lemma transform_note_fields (r : row) (n : note) (refs : gset str) :
  transform_note r = Ok (n, refs) ->
  exists raw_text raw_extra rest,
    split FIELD_SEP (row_flds r) = raw_text :: raw_extra :: rest /\
    num_cards n = count_cloze_numbers raw_text /\
    note_text n = clean_text raw_text /\
    note_extra n = clean_text raw_extra.
Proof.
  unfold transform_note.
  destruct (split FIELD_SEP (row_flds r)) as [|raw_text [|raw_extra rest]];
    [done..|].
  rewrite (getitem_nonneg _ IDX_TEXT), (getitem_nonneg _ IDX_EXTRA)
    by (unfold IDX_TEXT, IDX_EXTRA; lia).
  change (Z.to_nat IDX_TEXT) with 0%nat. change (Z.to_nat IDX_EXTRA) with 1%nat.
  cbn [lookup list_lookup mbind outcome_bind].
  destruct (if IDX_ONE_BY_ONE <? len (raw_text :: raw_extra :: rest)
            then getitem (raw_text :: raw_extra :: rest) IDX_ONE_BY_ONE
            else Ok []) as [marker|e|]; [|done..].
  cbn [mbind outcome_bind]. intros [= <- _].
  by exists raw_text, raw_extra, rest.
Qed.

(** C9, as amended. For every source record that transforms into a note,
    [num_cards] is the number of distinct cloze-group numbers [N] whose
    opener [{{cN::] occurs in the unsanitized text field, the first field of
    the record: [N] a non-empty run of decimal digits taken as written, the
    same [N] counted once however often it occurs, whether or not closing
    braces follow.  The count is taken on the raw field; the sanitized text
    of the note is computed from the same raw field and plays no part. *)
Theorem num_cards_counts_cloze_openers (r : row) (n : note) (refs : gset str) :
  transform_note r = Ok (n, refs) ->
  exists raw_text rest,
    split FIELD_SEP (row_flds r) = raw_text :: rest /\
    note_text n = clean_text raw_text /\
    (exists Ns, NoDup Ns /\ forall N, N ∈ Ns <-> cloze_opener N raw_text) /\
    (forall Ns,
       NoDup Ns -> (forall N, N ∈ Ns <-> cloze_opener N raw_text) ->
       num_cards n = Z.of_nat (length Ns)).
Proof.
  intros (raw_text & raw_extra & rest & Hsplit & Hcount & Htext & _)
    %transform_note_fields.
  exists raw_text, (raw_extra :: rest). split; [done|]. split; [done|].
  split; [by apply cloze_numbers_listed|].
  intros Ns Hnodup HNs. rewrite Hcount.
  by apply count_cloze_numbers_distinct.
Qed.

End cloze_claim.

Lemma num_cards_counts_cloze_openers_witness :
  @unicode_isdecimal test_platform (chr "{") = false /\
  @unicode_isdecimal test_platform (chr ":") = false /\
  exists n refs,
    @transform_note test_platform
      (Row 1 (lit "{{c1::foo}} and {{c2::bar}} and {{c1::baz}}"
              ++ [FIELD_SEP] ++ lit "extra") []) = Ok (n, refs) /\
    num_cards n = 2.
Proof.
  split; [reflexivity|]. split; [reflexivity|].
  destruct (@transform_note test_platform
      (Row 1 (lit "{{c1::foo}} and {{c2::bar}} and {{c1::baz}}"
              ++ [FIELD_SEP] ++ lit "extra") [])) as [[n refs]|e|] eqn:Hn;
    [|vm_compute in Hn; discriminate..].
  exists n, refs. split; [reflexivity|].
  destruct (@num_cards_counts_cloze_openers test_platform eq_refl eq_refl
              _ n refs Hn) as (raw_text & rest & Hsplit & _ & _ & Hcount).
  assert (split FIELD_SEP
            (lit "{{c1::foo}} and {{c2::bar}} and {{c1::baz}}"
             ++ [FIELD_SEP] ++ lit "extra") =
          [lit "{{c1::foo}} and {{c2::bar}} and {{c1::baz}}"; lit "extra"])
    as Hfields by (vm_compute; reflexivity).
  cbn [row_flds] in Hsplit. rewrite Hfields in Hsplit.
  injection Hsplit as <- _.
  apply (Hcount [lit "1"; lit "2"]).
  - apply (bool_decide_unpack _). vm_compute. exact I.
  - intros N. rewrite <- (@findall_cloze_iff test_platform eq_refl eq_refl).
    assert (findall (@RE_CLOZE_NUM test_platform)
              (lit "{{c1::foo}} and {{c2::bar}} and {{c1::baz}}") =
            [lit "1"; lit "2"; lit "1"]) as -> by (vm_compute; reflexivity).
    rewrite !elem_of_cons, elem_of_nil. tauto.
Defined.

(** C9 as stated fails: the text [{{c1::open] holds an opener and no
    closing braces, so no pattern of the shape [{{cN::...}}] occurs in it,
    and yet the note has [num_cards = 1]. *)
Lemma num_cards_counts_unclosed_opener :
  (forall N, ~ @cloze_pattern test_platform N (lit "{{c1::open")) /\
  exists n refs,
    @transform_note test_platform
      (Row 1 (lit "{{c1::open" ++ [FIELD_SEP] ++ lit "extra") []) =
      Ok (n, refs) /\
    num_cards n = 1.
Proof.
  split.
  - intros N (_ & _ & pre & body & post & Htext).
    assert (chr "}" ∈ lit "{{c1::open") as Hin.
    { rewrite Htext, !elem_of_app. do 5 right. left. by_eval. }
    revert Hin. by_eval.
  - eexists _, _. split; vm_compute; reflexivity.
Qed.

(** The order matters: sanitizing first can create an opener that the raw
    text does not hold. *)
Example cloze_count_differs_after_sanitizing :
  @count_cloze_numbers test_platform (lit "{{c<b>1</b>::x}}") = 0 /\
  @count_cloze_numbers test_platform
    (@clean_text test_platform (lit "{{c<b>1</b>::x}}")) = 1.
Proof. split; vm_compute; reflexivity. Qed.

(** ** Every match lies in the language of its pattern *)

Lemma rep_sound {R} (k : str -> nat -> option R) (c : N -> bool) (s : str) :
  forall min greedy n r,
    rep k c min greedy s n = Some r ->
    exists ds rest,
      s = ds ++ rest /\ Forall (fun a => c a = true) ds /\
      (min <= length ds)%nat /\ k rest (n + length ds)%nat = Some r.
Proof.
  assert (forall (s : str) n r, k s n = Some r ->
            exists ds rest,
              s = ds ++ rest /\ Forall (fun a => c a = true) ds /\
              (0 <= length ds)%nat /\ k rest (n + length ds)%nat = Some r)
    as Hstop.
  { intros s0 n r Hk. exists [], s0. simpl. rewrite Nat.add_0_r.
    repeat split; [constructor|lia|done]. }
  assert (forall a (s' : str) min n r,
            c a = true ->
            (exists ds rest,
               s' = ds ++ rest /\ Forall (fun a => c a = true) ds /\
               (min <= length ds)%nat /\ k rest (S n + length ds)%nat = Some r) ->
            exists ds rest,
              a :: s' = ds ++ rest /\ Forall (fun a => c a = true) ds /\
              (S min <= length ds)%nat /\ k rest (n + length ds)%nat = Some r)
    as Hmore.
  { intros a s' min n r Ha (ds & rest & -> & Hds & Hlen & Hk).
    exists (a :: ds), rest. simpl.
    replace (n + S (length ds))%nat with (S n + length ds)%nat by lia.
    repeat split; [by constructor|lia|done]. }
  induction s as [|a s IH]; intros min greedy n r.
  - destruct min as [|min]; simpl; [|done].
    destruct greedy; [apply Hstop|].
    destruct (k [] n) eqn:Hk; [|done]. intros [= <-]. by apply Hstop.
  - destruct min as [|min]; simpl.
    + destruct greedy.
      * destruct (c a) eqn:Ha; [|apply Hstop].
        destruct (rep k c 0 true s (S n)) as [r'|] eqn:Hrep; [|apply Hstop].
        intros [= <-]. apply IH in Hrep.
        destruct (Hmore a s 0%nat n r' Ha Hrep) as (ds & rest & ? & ? & ? & ?).
        exists ds, rest. repeat split; [done..|lia|done].
      * destruct (k (a :: s) n) as [r'|] eqn:Hk.
        -- intros [= <-]. by apply Hstop.
        -- destruct (c a) eqn:Ha; [|done]. intros Hrep%IH.
           destruct (Hmore a s 0%nat n r Ha Hrep) as (ds & rest & ? & ? & ? & ?).
           exists ds, rest. repeat split; [done..|lia|done].
    + destruct (c a) eqn:Ha; [|done]. intros Hrep%IH. by apply Hmore.
Qed.

Lemma run_accepts (re : regex) : forall s n g r,
  run re s n g = Some r -> accepts re s n g r.
Proof.
  induction re as [|[c|c min greedy| |] re IH]; intros s n g r; simpl.
  - by intros [= <-].
  - destruct s as [|a s]; [done|]. destruct (c a) eqn:Ha; [|done].
    intros Hr%IH. by exists a, s.
  - intros (ds & rest & -> & Hds & Hlen & Hr%IH)%rep_sound.
    by exists ds, rest.
  - apply IH.
  - apply IH.
Qed.

(** A match reported by a scan was found at some suffix of the text. *)
Lemma scan_match_inv (re : regex) (s : str) : forall skip g0 g1,
  Match g0 g1 ∈ scan re s skip ->
  exists pre u n gs ge,
    s = pre ++ u /\ match_here re u = Some (n, (gs, ge)) /\
    g0 = take n u /\ g1 = take (ge - gs) (drop gs u).
Proof.
  assert (forall a (s' : str) g0 g1,
            (exists pre u n gs ge,
               s' = pre ++ u /\ match_here re u = Some (n, (gs, ge)) /\
               g0 = take n u /\ g1 = take (ge - gs) (drop gs u)) ->
            exists pre u n gs ge,
              a :: s' = pre ++ u /\ match_here re u = Some (n, (gs, ge)) /\
              g0 = take n u /\ g1 = take (ge - gs) (drop gs u)) as Hcons.
  { intros a s' g0 g1 (pre & u & n & gs & ge & -> & Hm & Hg0 & Hg1).
    by exists (a :: pre), u, n, gs, ge. }
  induction s as [|a s IH]; intros skip g0 g1.
  - by intros ?%elem_of_nil.
  - rewrite scan_cons. destruct skip as [|k].
    + destruct (match_here re (a :: s)) as [[[|n] [gs ge]]|] eqn:Hm.
      * intros [?|Hin]%elem_of_cons; [done|]. by eapply Hcons, IH.
      * intros [[= -> ->]|Hin]%elem_of_cons; [|by eapply Hcons, IH].
        by exists [], (a :: s), (S n), gs, ge.
      * intros [?|Hin]%elem_of_cons; [done|]. by eapply Hcons, IH.
    + intros Hin. by eapply Hcons, IH.
Qed.

Lemma findall_scan (re : regex) (s f : str) :
  f ∈ findall re s <-> exists g0, Match g0 f ∈ scan re s 0.
Proof.
  unfold findall, finditer. rewrite list_elem_of_fmap. split.
  - intros ([g0 g1] & -> & Hin). apply list_elem_of_omap in Hin
      as ([a|g0' g1'] & Hin & Ht); [done|].
    injection Ht as -> ->. by exists g0.
  - intros [g0 Hin]. exists (g0, f). split; [done|].
    apply list_elem_of_omap. by exists (Match g0 f).
Qed.

(** What [findall] returns is group 1 of a match in the language of the
    pattern, found at some place of the text. *)
Lemma findall_accepts (re : regex) (s f : str) :
  f ∈ findall re s ->
  exists pre u n gs ge,
    s = pre ++ u /\ accepts re u 0%nat (0%nat, 0%nat) (n, (gs, ge)) /\
    f = take (ge - gs) (drop gs u).
Proof.
  intros [g0 Hin]%findall_scan.
  apply scan_match_inv in Hin as (pre & u & n & gs & ge & -> & Hm & _ & ->).
  exists pre, u, n, gs, ge. split; [done|]. split; [|done].
  by apply run_accepts.
Qed.

(** ** The media references *)

(** One step of reading a match off [accepts]. *)
Tactic Notation "peel_one" hyp(H) "as" ident(a) ident(Ha) :=
  let s := fresh "s" in
  destruct H as (a & s & -> & Ha & H).

Tactic Notation "peel_many" hyp(H) "as" ident(ds) ident(Hds) ident(Hlen) :=
  let rest := fresh "rest" in
  destruct H as (ds & rest & -> & Hds & Hlen & H).

Lemma not_char_Forall (a : ascii) (ds : str) :
  Forall (fun c => not_char a c = true) ds -> chr a ∉ ds.
Proof.
  intros Hds Hin. rewrite Forall_forall in Hds. specialize (Hds _ Hin).
  unfold not_char in Hds. by rewrite N.eqb_refl in Hds.
Qed.

Lemma sound_ref_inv (s f : str) :
  f ∈ findall RE_SOUND_REF s -> f <> [] /\ sound_marker f s.
Proof.
  intros (pre & u & n & gs & ge & -> & Hacc & ->)%findall_accepts.
  unfold RE_SOUND_REF in Hacc. cbn [accepts] in Hacc.
  peel_one Hacc as c0 H0. peel_one Hacc as c1 H1. peel_one Hacc as c2 H2.
  peel_one Hacc as c3 H3. peel_one Hacc as c4 H4. peel_one Hacc as c5 H5.
  peel_one Hacc as c6 H6. peel_many Hacc as ds Hds Hlen.
  destruct Hacc as (c7 & post & -> & H7 & Hacc).
  injection Hacc as -> -> ->. cbn [fst snd].
  apply is_char_true in H0, H1, H2, H3, H4, H5, H6, H7. subst.
  cbn [skipn Nat.sub]. rewrite Nat.sub_0_r, drop_0, take_app_length.
  split; [intros ->; simpl in *; lia|].
  split; [by apply not_char_Forall|].
  by exists pre, post.
Qed.

Lemma class_not_gt (c : N -> bool) (a : N) :
  c (chr ">") = false -> c a = true -> a <> chr ">".
Proof. intros Hc Ha ->. congruence. Qed.

Lemma img_ref_inv (s f : str) :
  f ∈ findall RE_IMG_TAG s -> f <> [] /\ quoted_in_element f s.
Proof.
  intros (pre & u & n & gs & ge & -> & Hacc & ->)%findall_accepts.
  unfold RE_IMG_TAG in Hacc. cbn [accepts] in Hacc.
  peel_one Hacc as lt Hlt. peel_one Hacc as a0 Ha0. peel_one Hacc as a1 Ha1.
  peel_one Hacc as a2 Ha2. peel_one Hacc as a3 Ha3.
  peel_many Hacc as ds Hds Hlen.
  peel_one Hacc as a4 Ha4. peel_one Hacc as a5 Ha5. peel_one Hacc as a6 Ha6.
  peel_many Hacc as ds0 Hds0 Hlen0. peel_one Hacc as eq Heq.
  peel_many Hacc as ds1 Hds1 Hlen1. peel_one Hacc as q1 Hq1.
  peel_many Hacc as ds2 Hds2 Hlen2. peel_one Hacc as q2 Hq2.
  peel_many Hacc as ds3 Hds3 Hlen3.
  destruct Hacc as (gt & post & -> & Hgt & Hacc).
  injection Hacc as -> -> ->. cbn [fst snd].
  apply is_char_true in Hlt, Heq, Hgt. subst lt eq gt.
  set (inside := a0 :: a1 :: a2 :: a3 :: ds ++ a4 :: a5 :: a6 :: ds0
                   ++ chr "=" :: ds1).
  assert (chr "<" :: a0 :: a1 :: a2 :: a3 :: ds ++ a4 :: a5 :: a6 :: ds0
            ++ chr "=" :: ds1 ++ q1 :: ds2 ++ q2 :: ds3 ++ chr ">" :: post =
          (chr "<" :: inside ++ [q1]) ++ ds2 ++ q2 :: ds3 ++ chr ">" :: post)
    as ->.
  { unfold inside. by list_normal. }
  rewrite drop_app_length', take_app_length';
    [| |unfold inside; simpl; rewrite !length_app; simpl;
        rewrite !length_app; simpl; lia].
  2: { match goal with |- (?x - ?y)%nat = _ => assert (x = y + length ds2)%nat
         as -> by lia end. lia. }
  split; [intros ->; simpl in *; lia|]. split.
  - eapply Forall_impl; [exact Hds2|]. intros c Hc.
    unfold not_quote in Hc. by destruct (is_quote c).
  - exists pre, inside, q1, q2, ds3, post. split.
    { by list_normal. }
    split; [done|]. split; [done|]. split; [|by apply not_char_Forall].
    assert (Forall (fun a => a <> chr ">") inside) as Hinside.
    { unfold inside.
      repeat first [apply Forall_cons; split | apply Forall_app; split];
        first [ done
              | by eapply class_not_gt; [|eassumption]
              | eapply Forall_impl; [eassumption|];
                intros c Hc; by eapply class_not_gt; [|exact Hc] ]. }
    intros Hin. rewrite Forall_forall in Hinside. by apply (Hinside _ Hin).
Qed.

Lemma collect_media_refs_elem (text extra f : str) :
  f ∈ collect_media_refs text extra <->
  f ∈ findall RE_IMG_TAG text \/ f ∈ findall RE_SOUND_REF text \/
  f ∈ findall RE_IMG_TAG extra \/ f ∈ findall RE_SOUND_REF extra.
Proof.
  unfold collect_media_refs. cbn [foldl].
  rewrite !elem_of_union, !elem_of_list_to_set, elem_of_empty. tauto.
Qed.

(** X1. Every name [collect_media_refs] returns is non-empty and is marked
    up in one of the two fields: as an audio marker [[sound:NAME]], the name
    free of []], or between two quote characters (not necessarily the same
    one) inside markup that runs from a [<] to a [>].  Fields without [<]
    and without [[] give no reference at all. *)
Theorem collected_refs_are_marked_up (text extra : str) :
  (forall f,
     f ∈ collect_media_refs text extra ->
     f <> [] /\
     exists field,
       field ∈ [text; extra] /\
       (sound_marker f field \/ quoted_in_element f field)) /\
  (chr "<" ∉ text ++ extra -> chr "[" ∉ text ++ extra ->
   collect_media_refs text extra = ∅).
Proof.
  assert (forall f,
     f ∈ collect_media_refs text extra ->
     f <> [] /\
     exists field,
       field ∈ [text; extra] /\
       (sound_marker f field \/ quoted_in_element f field)) as Hmarked.
  { intros f [Hf|[Hf|[Hf|Hf]]]%collect_media_refs_elem.
    - apply img_ref_inv in Hf as [Hne Hq]. split; [done|].
      exists text. split; [by left|by right].
    - apply sound_ref_inv in Hf as [Hne Hs]. split; [done|].
      exists text. split; [by left|by left].
    - apply img_ref_inv in Hf as [Hne Hq]. split; [done|].
      exists extra. split; [by right; left|by right].
    - apply sound_ref_inv in Hf as [Hne Hs]. split; [done|].
      exists extra. split; [by right; left|by left]. }
  split; [exact Hmarked|].
  intros Hlt Hbr. apply set_eq. intros f. rewrite elem_of_empty.
  split; [|done]. intros (_ & field & Hfield & Hshape)%Hmarked.
  assert (forall c, c ∈ field -> c ∈ text ++ extra) as Hsub.
  { intros c Hc. rewrite elem_of_app.
    apply elem_of_cons in Hfield as [->|Hfield]; [by left|].
    apply elem_of_cons in Hfield as [->|Hfield]; [by right|].
    by apply elem_of_nil in Hfield. }
  destruct Hshape as [(_ & pre & post & ->)
    |(_ & pre & inside & q1 & q2 & tail & post & -> & _)].
  - apply Hbr, Hsub. rewrite elem_of_app. right. by left.
  - apply Hlt, Hsub. rewrite elem_of_app. right. by left.
Qed.

Lemma collected_refs_are_marked_up_witness :
  lit "x.mp3" ∈ collect_media_refs (lit "hear [sound:x.mp3]") (lit "plain") /\
  (chr "<" ∉ lit "plain" ++ lit "text") /\
  (chr "[" ∉ lit "plain" ++ lit "text") /\
  lit "x.mp3" <> [] /\
  collect_media_refs (lit "plain") (lit "text") = ∅.
Proof.
  assert (lit "x.mp3" ∈
            collect_media_refs (lit "hear [sound:x.mp3]") (lit "plain")) as Hin
    by by_eval.
  assert (chr "<" ∉ lit "plain" ++ lit "text") as Hlt by by_eval.
  assert (chr "[" ∉ lit "plain" ++ lit "text") as Hbr by by_eval.
  do 3 (split; [assumption|]). split.
  - exact (proj1 (proj1 (collected_refs_are_marked_up _ _) _ Hin)).
  - exact (proj2 (collected_refs_are_marked_up _ _) Hlt Hbr).
Defined.

(** ** More on the varint decoder *)

Lemma read_varint_ok_shape (data : bytes) (pos v p : Z) :
  0 <= pos -> _read_varint data pos = Ok (v, p) ->
  exists body last rest,
    drop (Z.to_nat pos) data = body ++ last :: rest /\
    Forall has_more body /\ ~ has_more last /\
    v = base128 (body ++ [last]) /\ p = pos + len body + 1.
Proof.
  intros Hpos Hok.
  destruct (flagged_run (drop (Z.to_nat pos) data))
    as [Hall|(body & last & rest & Hdrop & Hbody & Hlast)].
  - by rewrite read_varint_unterminated in Hok.
  - rewrite (read_varint_terminated data pos body last rest) in Hok by done.
    injection Hok as <- <-. by exists body, last, rest.
Qed.

Lemma read_varint_inside (data : bytes) (pos v p : Z) :
  0 <= pos -> _read_varint data pos = Ok (v, p) -> pos < p <= len data.
Proof.
  intros Hpos (body & last & rest & Hdrop & _ & _ & -> & ->)%read_varint_ok_shape;
    [|done].
  pose proof (len_nonneg body).
  assert (length (drop (Z.to_nat pos) data) = length (body ++ last :: rest))
    as Hlen by (by rewrite Hdrop).
  rewrite length_drop, length_app in Hlen. simpl in Hlen.
  unfold len in *. lia.
Qed.

(** X2. A varint read at an offset inside the buffer consumes at least one
    byte and stays inside the buffer, and the value of [k] consumed bytes is
    non-negative and below [2^(7k)]. *)
Theorem read_varint_bounds (data : bytes) (pos v p : Z) :
  0 <= pos -> _read_varint data pos = Ok (v, p) ->
  pos < p <= len data /\ 0 <= v < 2 ^ (7 * (p - pos)).
Proof.
  intros Hpos (body & last & rest & Hdrop & _ & _ & -> & ->)%read_varint_ok_shape;
    [|done].
  pose proof (base128_range (body ++ [last])) as Hrange.
  rewrite len_app in Hrange. change (len [last]) with 1 in Hrange.
  pose proof (len_nonneg body).
  assert (length (drop (Z.to_nat pos) data) = length (body ++ last :: rest))
    as Hlen by (by rewrite Hdrop).
  rewrite length_drop, length_app in Hlen. simpl in Hlen.
  replace (pos + len body + 1 - pos) with (len body + 1) by lia.
  unfold len in *. lia.
Qed.

Lemma read_varint_bounds_witness :
  0 <= 1 /\ _read_varint [x0a; xac; x02; x0a] 1 = Ok (300, 3) /\
  1 < 3 <= len [x0a; xac; x02; x0a] /\ 0 <= 300 < 2 ^ (7 * (3 - 1)).
Proof.
  assert (_read_varint [x0a; xac; x02; x0a] 1 = Ok (300, 3)) as Hok
    by reflexivity.
  split; [lia|]. split; [exact Hok|].
  exact (read_varint_bounds _ 1 300 3 ltac:(lia) Hok).
Defined.

(** X3. A varint read depends only on the bytes it consumed: any buffer
    that agrees with the first one up to the returned offset gives the same
    value and offset at the same start.  Bytes appended to a buffer never
    change a read that succeeded. *)
Theorem read_varint_local (data data' : bytes) (pos v p : Z) :
  0 <= pos -> _read_varint data pos = Ok (v, p) ->
  take (Z.to_nat p) data' = take (Z.to_nat p) data ->
  _read_varint data' pos = Ok (v, p).
Proof.
  intros Hpos Hok Hsame.
  pose proof (read_varint_inside data pos v p Hpos Hok) as Hp.
  apply read_varint_ok_shape in Hok
    as (body & last & rest & Hdrop & Hbody & Hlast & -> & ->); [|done].
  pose proof (len_nonneg body).
  assert (take (Z.to_nat (pos + len body + 1)) data =
          take (Z.to_nat pos) data ++ body ++ [last]) as Htake.
  { rewrite <- (take_drop (Z.to_nat pos) data) at 1. rewrite Hdrop.
    rewrite take_app_ge by (rewrite length_take; unfold len in *; lia).
    rewrite length_take.
    replace (Z.to_nat (pos + len body + 1)
             - Z.to_nat pos `min` length data)%nat
      with (length (body ++ [last]))
      by (rewrite length_app; simpl; unfold len in *; lia).
    replace (body ++ last :: rest) with ((body ++ [last]) ++ rest)
      by (by rewrite <- app_assoc).
    by rewrite take_app_length. }
  apply (read_varint_terminated data' pos body last
           (drop (Z.to_nat (pos + len body + 1)) data')); try done.
  rewrite <- (take_drop (Z.to_nat (pos + len body + 1)) data') at 1.
  rewrite Hsame, Htake.
  rewrite <- app_assoc, drop_app_length'
    by (rewrite length_take; unfold len in *; lia).
  by rewrite <- app_assoc.
Qed.

Lemma read_varint_local_witness :
  0 <= 1 /\ _read_varint [x0a; xac; x02; x0a] 1 = Ok (300, 3) /\
  take (Z.to_nat 3) [x0a; xac; x02] = take (Z.to_nat 3) [x0a; xac; x02; x0a] /\
  _read_varint [x0a; xac; x02] 1 = Ok (300, 3).
Proof.
  assert (_read_varint [x0a; xac; x02; x0a] 1 = Ok (300, 3)) as Hok
    by reflexivity.
  split; [lia|]. split; [exact Hok|]. split; [reflexivity|].
  exact (read_varint_local _ [x0a; xac; x02] 1 300 3 ltac:(lia) Hok eq_refl).
Defined.

(** ** The manifest decoder on any buffer *)

Lemma slots_below_nil (idx : nat) : slots_below idx [].
Proof. exists []. repeat split; constructor. Qed.

Lemma slots_below_skip (idx : nat) (m : pydict str) :
  slots_below idx m -> slots_below (S idx) m.
Proof.
  intros (slots & Hkeys & Hsorted & Hbelow). exists slots.
  repeat split; [done..|]. eapply Forall_impl; [exact Hbelow|].
  intros i Hi. simpl in Hi. lia.
Qed.

Lemma slots_below_fresh (idx : nat) (m : pydict str) :
  slots_below idx m -> str_of_nat idx ∉ dict_keys m.
Proof.
  intros (slots & -> & _ & Hbelow) (i & Heq%str_of_nat_inj & Hin)%list_elem_of_fmap.
  subst i. rewrite Forall_forall in Hbelow. specialize (Hbelow _ Hin).
  simpl in Hbelow. lia.
Qed.

Lemma slots_below_record (idx : nat) (m : pydict str) (filename : str) :
  slots_below idx m ->
  slots_below (S idx) (dict_set (str_of_nat idx) filename m).
Proof.
  intros Hm. pose proof (slots_below_fresh idx m Hm) as Hfresh.
  destruct Hm as (slots & Hkeys & Hsorted & Hbelow).
  rewrite dict_set_fresh by done. exists (slots ++ [idx]).
  unfold dict_keys in *. rewrite fmap_app, Hkeys, fmap_app. split; [done|].
  split.
  - apply StronglySorted_app_2; [|done|repeat constructor].
    intros i j Hi ->%list_elem_of_singleton.
    rewrite Forall_forall in Hbelow. by apply Hbelow.
  - apply Forall_app. split; [|repeat constructor; lia].
    eapply Forall_impl; [exact Hbelow|]. intros i Hi. simpl in Hi. lia.
Qed.

Lemma record_filename_cases (data : bytes) (m m' : pydict str)
    (pos entry_end : Z) (idx : nat) :
  record_filename data m pos entry_end idx = Ok m' ->
  m' = m \/ exists filename, m' = dict_set (str_of_nat idx) filename m.
Proof.
  unfold record_filename.
  destruct (pos <? entry_end); [|intros [= <-]; by left].
  destruct (getitem data pos) as [b|e|]; [|done..].
  cbn [mbind outcome_bind].
  destruct (byte_val b =? 10); [|intros [= <-]; by left].
  destruct (_read_varint data (pos + 1)) as [[name_len p]|e|]; [|done..].
  cbn [mbind outcome_bind].
  destruct (utf8_decode _) as [filename|e|]; [|done..].
  cbn [mbind outcome_bind]. intros [= <-]. right. by exists filename.
Qed.

Lemma manifest_loop_invariant (fuel : nat) : forall data m pos idx m' pos' idx',
  0 <= pos -> slots_below idx m ->
  manifest_loop fuel data m pos idx = Ok (m', pos', idx') ->
  slots_below idx' m' /\
  (idx <= idx')%nat /\
  pos + 2 * (Z.of_nat idx' - Z.of_nat idx) <= pos' /\
  (len data <= pos' \/
   exists b, getitem data pos' = Ok b /\ b <> x0a).
Proof.
  induction fuel as [|fuel IH]; intros data m pos idx m' pos' idx' Hpos Hm;
    [done|].
  cbn [manifest_loop].
  destruct (Z.ltb_spec pos (len data)) as [Hin|Hout].
  2: { intros [= <- <- <-]. repeat split; [done|lia|lia|by left]. }
  destruct (getitem data pos) as [b|e|] eqn:Hb; [|done..].
  cbn [mbind outcome_bind]. rewrite tag_test.
  case_bool_decide as Htag; cbn [negb].
  2: { intros [= <- <- <-]. repeat split; [done|lia|lia|].
       right. by exists b. }
  destruct (read_varint_cases data (pos + 1)) as [->|(v & p & -> & Hv & Hp)];
    [lia|done|].
  cbn [mbind outcome_bind].
  destruct (record_filename data m p (p + v) idx) as [m1|e|] eqn:Hrec;
    [|done..].
  cbn [mbind outcome_bind]. intros Hloop.
  assert (slots_below (S idx) m1) as Hm1.
  { apply record_filename_cases in Hrec as [->|[filename ->]].
    - by apply slots_below_skip.
    - by apply slots_below_record. }
  apply IH in Hloop as (Hm' & Hidx & Hpos' & Hstop); [|lia|done].
  repeat split; [done|lia|lia|done].
Qed.

(** X4. On every buffer on which the manifest decoder returns, the keys of
    the mapping are the decimal strings of strictly increasing slot numbers
    (so no key is repeated and they stand in slot order), each below the
    number of entries read; every entry read took at least two bytes; and
    the decoder stopped at or beyond the end of the buffer or at a byte that
    is not the entry tag. *)
Theorem manifest_keys_increasing (data : bytes) (m : pydict str) (pos : Z)
    (idx : nat) :
  manifest_run data = Ok (m, pos, idx) ->
  slots_below idx m /\ NoDup (dict_keys m) /\
  2 * Z.of_nat idx <= pos /\
  (len data <= pos \/ exists b, getitem data pos = Ok b /\ b <> x0a).
Proof.
  intros Hrun. unfold manifest_run in Hrun.
  apply manifest_loop_invariant in Hrun as (Hm & _ & Hpos & Hstop);
    [|lia|apply slots_below_nil].
  split; [done|]. split; [|split; [lia|done]].
  destruct Hm as (slots & -> & Hsorted & _).
  apply @NoDup_fmap_2; [exact str_of_nat_inj|]. clear -Hsorted.
  induction Hsorted as [|i slots _ IH Hall]; constructor; [|done].
  intros Hin. rewrite Forall_forall in Hall. specialize (Hall _ Hin). lia.
Qed.

Lemma manifest_keys_increasing_witness :
  manifest_run [x0a; x00; x0a; x03; x0a; x01; x61; xff] =
    Ok ([(lit "1", lit "a")], 7, 2%nat) /\
  NoDup (dict_keys [(lit "1", lit "a")]) /\ 2 * Z.of_nat 2 <= 7.
Proof.
  assert (manifest_run [x0a; x00; x0a; x03; x0a; x01; x61; xff] =
            Ok ([(lit "1", lit "a")], 7, 2%nat)) as Hrun
    by (vm_compute; reflexivity).
  split; [exact Hrun|].
  destruct (manifest_keys_increasing _ _ _ _ Hrun) as (_ & Hnodup & Hpos & _).
  by split.
Defined.

Lemma slice_from {A} (pre rest : list A) (lo k : Z) :
  lo = len pre -> 0 <= k ->
  slice (pre ++ rest) lo (lo + k) = take (Z.to_nat k) rest.
Proof.
  intros -> Hk. unfold slice, slice_bound.
  pose proof (len_nonneg pre). pose proof (len_nonneg rest).
  rewrite len_app.
  destruct (Z.ltb_spec (len pre) 0); [lia|].
  destruct (Z.ltb_spec (len pre + k) 0); [lia|].
  rewrite (Z.min_l (len pre)) by lia.
  replace (Z.to_nat (len pre)) with (length pre) by (unfold len; lia).
  rewrite drop_app_length.
  destruct (Z.le_gt_cases k (len rest)).
  - rewrite Z.min_l by lia. f_equal. lia.
  - rewrite Z.min_r by lia. rewrite !take_ge; [done|unfold len in *; lia..].
Qed.

(** The name statement on a buffer that holds, at [pos], the name tag, a
    length [k] and then [rest]: the name is made of the next [k] bytes of
    the buffer, or of all that is left when fewer are. *)
Lemma record_filename_reads (pre rest : bytes) (k : Z) (m : pydict str)
    (pos entry_end : Z) (idx : nat) :
  pos = len pre -> pos < entry_end -> 0 <= k ->
  record_filename (pre ++ x0a :: encode_varint k ++ rest) m pos entry_end idx =
    filename ← utf8_decode (take (Z.to_nat k) rest);
    Ok (dict_set (str_of_nat idx) filename m).
Proof.
  intros -> Hend Hk. unfold record_filename.
  destruct (Z.ltb_spec (len pre) entry_end); [|lia].
  rewrite (getitem_at pre x0a) by done. cbn [mbind outcome_bind].
  change (byte_val x0a =? 10) with true. cbv iota.
  replace (pre ++ x0a :: encode_varint k ++ rest)
    with ((pre ++ [x0a]) ++ encode_varint k ++ rest) by (by list_normal).
  rewrite read_varint_encoded;
    [|done|rewrite len_app; unfold len; simpl; lia].
  cbn [mbind outcome_bind].
  replace ((pre ++ [x0a]) ++ encode_varint k ++ rest)
    with (((pre ++ [x0a]) ++ encode_varint k) ++ rest) by (by list_normal).
  rewrite slice_from; [done| |done].
  rewrite !len_app. unfold len. simpl. lia.
Qed.

(** One turn of the loop on an entry whose body starts with a name field. *)
Lemma manifest_loop_named (fuel : nat) (pre rest : bytes) (L k : Z)
    (m : pydict str) (pos : Z) (idx : nat) :
  0 < L -> 0 <= k -> pos = len pre ->
  manifest_loop (S fuel)
    (pre ++ x0a :: encode_varint L ++ x0a :: encode_varint k ++ rest)
    m pos idx =
    filename ← utf8_decode (take (Z.to_nat k) rest);
    manifest_loop fuel
      (pre ++ x0a :: encode_varint L ++ x0a :: encode_varint k ++ rest)
      (dict_set (str_of_nat idx) filename m)
      (pos + 1 + len (encode_varint L) + L) (S idx).
Proof.
  intros HL Hk ->. cbn [manifest_loop].
  pose proof (len_nonneg rest). pose proof (len_nonneg (encode_varint L)).
  pose proof (len_nonneg (encode_varint k)).
  assert ((len pre <?
           len (pre ++ x0a :: encode_varint L ++ x0a :: encode_varint k
                  ++ rest)) = true) as ->.
  { apply Z.ltb_lt. rewrite len_app, len_cons, len_app, len_cons, len_app.
    lia. }
  rewrite (getitem_at pre x0a) by done. cbn [mbind outcome_bind].
  change (negb (byte_val x0a =? 10)) with false. cbv iota.
  replace (pre ++ x0a :: encode_varint L ++ x0a :: encode_varint k ++ rest)
    with ((pre ++ [x0a]) ++ encode_varint L
            ++ (x0a :: encode_varint k ++ rest)) by (by list_normal).
  rewrite read_varint_encoded;
    [|lia|rewrite len_app; unfold len; simpl; lia].
  cbn [mbind outcome_bind].
  replace ((pre ++ [x0a]) ++ encode_varint L ++ x0a :: encode_varint k ++ rest)
    with (((pre ++ [x0a]) ++ encode_varint L)
            ++ x0a :: encode_varint k ++ rest) by (by list_normal).
  rewrite record_filename_reads;
    [|rewrite !len_app; unfold len; simpl; lia|lia|done].
  destruct (utf8_decode (take (Z.to_nat k) rest)); [|done..].
  cbn [mbind outcome_bind]. f_equal; lia.
Qed.

(** X5. The name of an entry is not bounded by the entry.  An entry whose
    declared length is shorter than its name field is still recorded with
    its whole name, read by the name's own length; the loop then goes on at
    the declared end, which lies inside the name field.  When the byte there
    is not the entry tag the decoder stops at it and returns the names read
    so far, this one included, whatever follows in the buffer.  And a last
    entry whose name is cut short by the end of the buffer is recorded with
    the name bytes that are present. *)
Theorem name_read_ignores_entry_end :
  (forall fuel pre name rest L filename m idx,
     0 < L -> L < 1 + len (encode_varint (len name)) + len name ->
     utf8_decode name = Ok filename ->
     manifest_loop (S fuel)
       (pre ++ x0a :: encode_varint L
          ++ x0a :: encode_varint (len name) ++ name ++ rest)
       m (len pre) idx =
       manifest_loop fuel
         (pre ++ x0a :: encode_varint L
            ++ x0a :: encode_varint (len name) ++ name ++ rest)
         (dict_set (str_of_nat idx) filename m)
         (len pre + 1 + len (encode_varint L) + L) (S idx) /\
     len pre + 1 + len (encode_varint L) + L <
       len (pre ++ x0a :: encode_varint L
              ++ x0a :: encode_varint (len name) ++ name)) /\
  (forall es name rest L filename before b after,
     Forall entry_ok es -> 0 < L -> utf8_decode name = Ok filename ->
     encode_varint (len name) ++ name = before ++ b :: after ->
     len before = L - 1 -> b <> x0a ->
     parse_manifest_bytes
       (encode_manifest es ++ x0a :: encode_varint L
          ++ x0a :: encode_varint (len name) ++ name ++ rest) =
       Ok (dict_set (str_of_nat (length es)) filename (record_entries 0 es []))) /\
  (forall es L k rest name,
     Forall entry_ok es -> 0 <= k ->
     1 + len (encode_varint k) + len rest <= L ->
     utf8_go (map byte_val (take (Z.to_nat k) rest)) = Some name ->
     parse_manifest_bytes
       (encode_manifest es ++ x0a :: encode_varint L
          ++ x0a :: encode_varint k ++ rest) =
       Ok (dict_set (str_of_nat (length es)) name (record_entries 0 es []))).
Proof.
  assert (forall name rest : bytes,
            take (Z.to_nat (len name)) (name ++ rest) = name) as Htake.
  { intros name rest. unfold len. rewrite Nat2Z.id. apply take_app_length. }
  split; [|split].
  - intros fuel pre name rest L filename m idx HL Hshort Hname.
    pose proof (len_nonneg name). pose proof (len_nonneg pre).
    pose proof (len_nonneg (encode_varint L)).
    pose proof (len_nonneg (encode_varint (len name))).
    split.
    + rewrite manifest_loop_named by (done || lia).
      rewrite Htake, Hname. reflexivity.
    + rewrite len_app, len_cons, len_app, len_cons, len_app. lia.
  - intros es name rest L filename before b after Hok HL Hname Hfield Hlen Hb.
    pose proof (len_nonneg name). pose proof (len_nonneg before).
    pose proof (len_nonneg (encode_manifest es)).
    pose proof (len_nonneg (encode_varint L)).
    destruct (manifest_run_prefix es
                (x0a :: encode_varint L
                   ++ x0a :: encode_varint (len name) ++ name ++ rest) Hok)
      as (fuel & Hfuel & Hrun).
    assert (length (encode_varint (len name) ++ name ++ rest) >= 1)%nat
      as Hfield_len.
    { rewrite app_assoc, Hfield, !length_app. simpl. lia. }
    destruct fuel as [|[|fuel]].
    { simpl in Hfuel. lia. }
    { simpl in Hfuel. rewrite !length_app in Hfuel. simpl in Hfuel.
      rewrite !length_app in Hfield_len. lia. }
    eapply parse_manifest_bytes_run. rewrite Hrun.
    rewrite manifest_loop_named by (done || lia).
    rewrite Htake, Hname. cbn [mbind outcome_bind].
    replace (encode_manifest es ++ x0a :: encode_varint L
               ++ x0a :: encode_varint (len name) ++ name ++ rest)
      with ((encode_manifest es ++ x0a :: encode_varint L ++ x0a :: before)
              ++ b :: (after ++ rest)).
    2:{ rewrite (app_assoc (encode_varint (len name))), Hfield.
        by list_normal. }
    apply manifest_loop_break; [done|].
    rewrite len_app, len_cons, len_app, len_cons. lia.
  - intros es L k rest name Hok Hk HL Hname.
    pose proof (len_nonneg rest). pose proof (len_nonneg (encode_manifest es)).
    pose proof (encode_varint_nonempty k Hk) as Henc.
    pose proof (encode_varint_nonempty L ltac:(lia)) as HencL.
    destruct (manifest_run_prefix es
                (x0a :: encode_varint L ++ x0a :: encode_varint k ++ rest) Hok)
      as (fuel & Hfuel & Hrun).
    destruct fuel as [|[|fuel]]; [simpl in Hfuel; lia| |].
    { simpl in Hfuel. rewrite !length_app in Hfuel. simpl in Hfuel. lia. }
    eapply parse_manifest_bytes_run. rewrite Hrun.
    rewrite manifest_loop_named by (done || lia).
    unfold utf8_decode. rewrite Hname. cbn [mbind outcome_bind].
    apply manifest_loop_exhausted.
    rewrite !len_app, len_cons, len_app, len_cons, len_app. lia.
Qed.

Lemma name_read_ignores_entry_end_witness :
  0 < 1 /\
  1 < 1 + len (encode_varint
                 (len [x02; x0a; x01; x61; x78; x78; x78; x78; x78; x78]))
        + len [x02; x0a; x01; x61; x78; x78; x78; x78; x78; x78] /\
  utf8_decode [x02; x0a; x01; x61; x78; x78; x78; x78; x78; x78] =
    Ok [2; 10; 1; 97; 120; 120; 120; 120; 120; 120]%N /\
  manifest_run
    [x0a; x01; x0a; x0a; x02; x0a; x01; x61; x78; x78; x78; x78; x78; x78] =
    manifest_loop 14
      [x0a; x01; x0a; x0a; x02; x0a; x01; x61; x78; x78; x78; x78; x78; x78]
      [(lit "0", [2; 10; 1; 97; 120; 120; 120; 120; 120; 120]%N)] 3 1%nat /\
  parse_manifest_bytes
    [x0a; x01; x0a; x0a; x02; x0a; x01; x61; x78; x78; x78; x78; x78; x78] =
    Ok [(lit "0", [2; 10; 1; 97; 120; 120; 120; 120; 120; 120]%N);
        (lit "1", lit "a")].
Proof.
  assert (1 < 1 + len (encode_varint
                         (len [x02; x0a; x01; x61; x78; x78; x78; x78; x78; x78]))
                + len [x02; x0a; x01; x61; x78; x78; x78; x78; x78; x78])
    as Hshort by (vm_compute; reflexivity).
  assert (utf8_decode [x02; x0a; x01; x61; x78; x78; x78; x78; x78; x78] =
            Ok [2; 10; 1; 97; 120; 120; 120; 120; 120; 120]%N) as Hname
    by (vm_compute; reflexivity).
  split; [lia|]. split; [exact Hshort|]. split; [exact Hname|].
  pose proof (proj1 (proj1 name_read_ignores_entry_end 14%nat []
                       [x02; x0a; x01; x61; x78; x78; x78; x78; x78; x78] []
                       1 _ [] 0%nat ltac:(lia) Hshort Hname)) as Hturn.
  split; [exact Hturn|].
  unfold parse_manifest_bytes.
  change (manifest_run
            [x0a; x01; x0a; x0a; x02; x0a; x01; x61; x78; x78; x78; x78; x78;
             x78])
    with (manifest_loop 15
            ([] ++ x0a :: encode_varint 1
               ++ x0a :: encode_varint
                           (len [x02; x0a; x01; x61; x78; x78; x78; x78; x78;
                                 x78])
               ++ [x02; x0a; x01; x61; x78; x78; x78; x78; x78; x78] ++ [])
            [] (len ([] : bytes)) 0%nat).
  rewrite Hturn. vm_compute. reflexivity.
Defined.

(** ** Substitution and scans without a match *)

Lemma sub_fn_const_fold (repl : str) (tokens : list token) : forall out,
  foldl (fun '(st, out) t =>
           match t with
           | Text a => (st, out ++ [a])
           | Match g0 _ =>
               let '(st', r) := (fun (_ : unit) (_ : str) => (tt, repl)) st g0 in
               (st', out ++ r)
           end) (tt, out) tokens = (tt, out ++ emit repl tokens).
Proof.
  induction tokens as [|[a|g0 g1] tokens IH]; intros out; cbn [foldl].
  - unfold emit. simpl. by rewrite app_nil_r.
  - cbv beta iota. rewrite IH. unfold emit. simpl. by rewrite <- app_assoc.
  - cbv beta iota. rewrite IH. unfold emit. simpl. by rewrite <- app_assoc.
Qed.

Lemma sub_emit (re : regex) (repl s : str) :
  sub re repl s = emit repl (scan re s 0).
Proof. unfold sub, sub_fn. by rewrite sub_fn_const_fold. Qed.

Lemma emit_cons_text (repl : str) (a : N) (tokens : list token) :
  emit repl (Text a :: tokens) = a :: emit repl tokens.
Proof. reflexivity. Qed.

Lemma emit_cons_match (repl g0 g1 : str) (tokens : list token) :
  emit repl (Match g0 g1 :: tokens) = repl ++ emit repl tokens.
Proof. reflexivity. Qed.

Lemma emit_texts (repl s : str) : emit repl (Text <$> s) = s.
Proof.
  induction s as [|a s IH]; [done|].
  rewrite fmap_cons, emit_cons_text. by rewrite IH.
Qed.

(** Skipping the characters of a match. *)
Lemma scan_skip (re : regex) (ds rest : str) :
  scan re (ds ++ rest) (length ds) = scan re rest 0.
Proof. induction ds as [|d ds IH]; [done|]. simpl app. by rewrite scan_cons. Qed.

(** A pattern whose first character is nowhere in the text matches
    nowhere. *)
Lemma scan_first_absent (c : N -> bool) (re : regex) (s : str) :
  Forall (fun a => c a = false) s -> scan (One c :: re) s 0 = Text <$> s.
Proof.
  induction 1 as [|a s Ha _ IH]; [done|].
  rewrite scan_cons. unfold match_here. cbn [run]. rewrite Ha.
  by rewrite IH.
Qed.

Lemma absent_char (a : ascii) (s : str) :
  chr a ∉ s -> Forall (fun c => is_char a c = false) s.
Proof.
  intros Hnot. apply Forall_forall. intros c Hc.
  destruct (is_char a c) eqn:E; [|done].
  apply is_char_true in E. by subst.
Qed.

Lemma no_tags_without_lt (s : str) :
  chr "<" ∉ s ->
  sub_fn RE_IMG_TAG _save_img [] s = ([], s) /\ sub RE_HTML_TAG [] s = s.
Proof.
  intros Hs%absent_char. split.
  - rewrite protect_images. unfold RE_IMG_TAG.
    rewrite scan_first_absent by done. clear Hs.
    induction s as [|a s IH]; [done|].
    rewrite fmap_cons. cbn [matched protected]. by injection IH as -> ->.
  - rewrite sub_emit. unfold RE_HTML_TAG.
    rewrite scan_first_absent by done. apply emit_texts.
Qed.

(** ** Collapsing blank lines *)

Definition is_newline (c : N) : bool := (c =? 10)%N.

Lemma rep_greedy_total (g : nat * nat) (c : N -> bool) (ds : str) :
  forall rest min n,
    Forall (fun a => c a = true) ds -> stops c rest ->
    rep (fun (_ : str) n' => Some (n', g)) c min true (ds ++ rest) n =
      if decide (min <= length ds)%nat then Some ((n + length ds)%nat, g)
      else None.
Proof.
  induction ds as [|d ds IH]; intros rest min n Hds Hrest.
  - simpl. rewrite Nat.add_0_r.
    destruct min as [|min], rest as [|a rest]; simpl in *; try done.
    + by rewrite Hrest.
    + by rewrite Hrest.
  - apply Forall_cons in Hds as [Hd Hds]. simpl app.
    destruct min as [|min]; simpl rep; rewrite Hd, IH by done; simpl length.
    + rewrite decide_True by lia. rewrite decide_True by lia.
      do 2 f_equal. lia.
    + destruct (decide (min <= length ds)%nat).
      * rewrite decide_True by lia. do 2 f_equal. lia.
      * by rewrite decide_False by lia.
Qed.

Lemma match_here_newlines (ds rest : str) :
  Forall (fun a => is_newline a = true) ds -> stops is_newline rest ->
  match_here RE_MULTI_NEWLINE (ds ++ rest) =
    if decide (3 <= length ds)%nat then Some (length ds, (0, 0))%nat else None.
Proof.
  intros Hds Hrest.
  exact (rep_greedy_total (0, 0)%nat is_newline ds rest 3 0 Hds Hrest).
Qed.

Lemma newlines_take2 (ds : str) :
  Forall (fun a => is_newline a = true) ds ->
  take 2 ds = if decide (3 <= length ds)%nat then [10; 10]%N else ds.
Proof.
  intros Hds. destruct ds as [|d0 [|d1 [|d2 ds]]]; try done.
  simpl. apply Forall_cons in Hds as [H0 Hds].
  apply Forall_cons in Hds as [H1 _].
  apply N.eqb_eq in H0, H1. by subst.
Qed.

Lemma collapse_short_run (ds rest : str) :
  Forall (fun a => is_newline a = true) ds -> stops is_newline rest ->
  (length ds < 3)%nat ->
  scan RE_MULTI_NEWLINE (ds ++ rest) 0 =
    (Text <$> ds) ++ scan RE_MULTI_NEWLINE rest 0.
Proof.
  induction ds as [|d ds IH]; intros Hds Hrest Hlen; [done|].
  simpl app. rewrite scan_cons.
  change (d :: ds ++ rest) with ((d :: ds) ++ rest).
  rewrite match_here_newlines, decide_False by (done || lia).
  apply Forall_cons in Hds as [_ Hds]. rewrite IH; [done..|].
  simpl in Hlen. lia.
Qed.

Lemma collapse_run (ds rest : str) :
  Forall (fun a => is_newline a = true) ds -> stops is_newline rest ->
  emit [10; 10]%N (scan RE_MULTI_NEWLINE (ds ++ rest) 0) =
    take 2 ds ++ emit [10; 10]%N (scan RE_MULTI_NEWLINE rest 0).
Proof.
  intros Hds Hrest. rewrite newlines_take2 by done.
  destruct (decide (3 <= length ds)%nat) as [Hlong|Hshort].
  - destruct ds as [|d ds]; [simpl in Hlong; lia|].
    simpl app. rewrite scan_cons.
    change (d :: ds ++ rest) with ((d :: ds) ++ rest).
    rewrite match_here_newlines, decide_True by done.
    cbn [length]. by rewrite scan_skip, emit_cons_match.
  - rewrite collapse_short_run by (done || lia).
    unfold emit. rewrite map_app, concat_app. f_equal.
    apply (emit_texts [10; 10]%N ds).
Qed.

Lemma squeeze_stops (seen : nat) (rest : str) :
  stops is_newline rest -> squeeze seen rest = squeeze 0 rest.
Proof.
  destruct rest as [|b rest]; [done|]. simpl. unfold is_newline.
  by intros ->.
Qed.

Lemma squeeze_run (ds : str) : forall seen rest,
  Forall (fun a => is_newline a = true) ds -> stops is_newline rest ->
  squeeze seen (ds ++ rest) = take (2 - seen) ds ++ squeeze 0 rest.
Proof.
  induction ds as [|d ds IH]; intros seen rest Hds Hrest.
  - simpl. rewrite take_nil. by apply squeeze_stops.
  - apply Forall_cons in Hds as [Hd Hds]. simpl app. simpl squeeze.
    unfold is_newline in Hd. rewrite Hd, IH by done.
    destruct (Nat.ltb_spec seen 2).
    + replace (2 - seen)%nat with (S (2 - S seen)) by lia. done.
    + replace (2 - seen)%nat with 0%nat by lia.
      replace (2 - S seen)%nat with 0%nat by lia. done.
Qed.

Lemma collapse_squeeze_emit (s : str) :
  emit [10; 10]%N (scan RE_MULTI_NEWLINE s 0) = squeeze 0 s.
Proof.
  remember (length s) as n eqn:Hn. revert s Hn.
  induction n as [n IH] using lt_wf_ind. intros s ->.
  destruct (class_run is_newline s) as (ds & rest & -> & Hds & Hrest).
  destruct ds as [|d ds].
  - simpl app. destruct rest as [|b rest]; [done|].
    simpl in Hrest. rewrite scan_cons.
    change (b :: rest) with ([] ++ b :: rest) at 1.
    rewrite match_here_newlines, decide_False by (done || simpl; lia).
    rewrite emit_cons_text. simpl squeeze.
    unfold is_newline in Hrest. rewrite Hrest.
    f_equal. apply (IH (length rest)); [simpl; lia|done].
  - rewrite collapse_run, squeeze_run by done. f_equal.
    apply (IH (length rest)); [|done].
    rewrite length_app. simpl. lia.
Qed.

Lemma no_triple_leading (s : str) : has_triple s = false -> (leading s <= 2)%nat.
Proof.
  destruct s as [|a s]; [simpl; lia|]. cbn [has_triple].
  intros [Hlead _]%orb_false_iff. apply Nat.leb_gt in Hlead. lia.
Qed.

Lemma squeeze_fixed (s : str) : forall seen,
  (leading s + seen <= 2)%nat -> has_triple s = false -> squeeze seen s = s.
Proof.
  induction s as [|a s IH]; intros seen Hlead Hnone; [done|].
  cbn [has_triple] in Hnone. apply orb_false_iff in Hnone as [_ Hnone].
  simpl in Hlead |- *. destruct (a =? 10)%N.
  - destruct (Nat.ltb_spec seen 2); [|lia]. f_equal. apply IH; [lia|done].
  - f_equal. apply IH; [|done]. apply no_triple_leading in Hnone. lia.
Qed.

(** X6. Replacing every run of three or more newlines by two, as
    [RE_MULTI_NEWLINE.sub] does, is the same as one pass over the text that
    keeps the first two newlines of each run and drops the rest of the run:
    shorter runs and all other characters are kept as they are.  So a text
    with no three newlines in a row is returned unchanged. *)
Theorem collapse_is_squeeze (s : str) :
  sub RE_MULTI_NEWLINE [10; 10]%N s = squeeze 0 s /\
  (has_triple s = false -> sub RE_MULTI_NEWLINE [10; 10]%N s = s).
Proof.
  rewrite sub_emit, collapse_squeeze_emit. split; [done|].
  intros Hnone. apply squeeze_fixed; [|done].
  apply no_triple_leading in Hnone. lia.
Qed.

Lemma collapse_is_squeeze_witness :
  has_triple [97; 10; 10; 98]%N = false /\
  sub RE_MULTI_NEWLINE [10; 10]%N [97; 10; 10; 98]%N = [97; 10; 10; 98]%N.
Proof.
  split; [reflexivity|].
  exact (proj2 (collapse_is_squeeze [97; 10; 10; 98]%N) eq_refl).
Defined.

(** ** The shape of sanitized text *)

Lemma lstrip_head (s : str) (c : N) (rest : str) :
  lstrip s = c :: rest -> is_space c = false.
Proof.
  induction s as [|a s IH]; simpl; [done|].
  destruct (is_space a) eqn:Ha; [done|]. by intros [= <- _].
Qed.

Lemma lstrip_suffix (s : str) : exists pre, s = pre ++ lstrip s.
Proof.
  induction s as [|a s [pre Hpre]]; [by exists []|]. simpl.
  destruct (is_space a); [|by exists []].
  exists (a :: pre). simpl. by f_equal.
Qed.

Lemma lstrip_fixed (s : str) :
  (forall c rest, s = c :: rest -> is_space c = false) -> lstrip s = s.
Proof.
  destruct s as [|a s]; [done|]. intros Hhead. simpl.
  by rewrite (Hhead a s eq_refl).
Qed.

Lemma strip_trimmed (s : str) : trimmed (strip s).
Proof.
  unfold strip. split.
  - intros c rest Heq.
    destruct (lstrip_suffix (rev (lstrip s))) as [pre Hpre].
    apply (f_equal (@rev N)) in Heq. rewrite rev_involutive in Heq.
    rewrite Heq in Hpre. apply (f_equal (@rev N)) in Hpre.
    rewrite rev_involutive, !rev_app_distr, rev_involutive in Hpre.
    simpl in Hpre. by apply lstrip_head in Hpre.
  - intros init c Heq.
    apply (f_equal (@rev N)) in Heq.
    rewrite rev_involutive, rev_app_distr in Heq. simpl in Heq.
    by apply lstrip_head in Heq.
Qed.

Lemma strip_fixed (s : str) : trimmed s -> strip s = s.
Proof.
  intros [Hhead Hlast]. unfold strip.
  rewrite (lstrip_fixed s Hhead), lstrip_fixed; [apply rev_involutive|].
  intros c rest Heq. apply (f_equal (@rev N)) in Heq.
  rewrite rev_involutive in Heq. simpl in Heq. by apply (Hlast (rev rest)).
Qed.

Lemma not_space_not_newline (c : N) : is_space c = false -> (c =? 10)%N = false.
Proof.
  intros Hc. destruct (N.eqb_spec c 10) as [->|]; [|done].
  vm_compute in Hc. discriminate.
Qed.

Lemma squeeze_snoc (init : str) (c : N) : forall seen,
  (c =? 10)%N = false -> squeeze seen (init ++ [c]) = squeeze seen init ++ [c].
Proof.
  induction init as [|a init IH]; intros seen Hc; simpl.
  - by rewrite Hc.
  - destruct (a =? 10)%N, (seen <? 2)%nat; by rewrite IH.
Qed.

Lemma squeeze_trimmed (s : str) : trimmed s -> trimmed (squeeze 0 s).
Proof.
  intros [Hhead Hlast]. split.
  - intros c rest Heq. destruct s as [|a s]; [done|].
    pose proof (Hhead a s eq_refl) as Ha. simpl in Heq.
    rewrite (not_space_not_newline a Ha) in Heq. by injection Heq as <- _.
  - intros init c Heq. destruct s as [|a s _] using rev_ind.
    + by destruct init.
    + pose proof (Hlast s a eq_refl) as Ha.
      rewrite squeeze_snoc in Heq by by apply not_space_not_newline.
      by apply app_inj_tail in Heq as [_ <-].
Qed.

Lemma squeeze_leading (s : str) : forall seen,
  (leading (squeeze seen s) + Nat.min seen 2 <= 2)%nat.
Proof.
  induction s as [|a s IH]; intros seen; simpl; [lia|].
  destruct (a =? 10)%N eqn:Ha.
  - destruct (Nat.ltb_spec seen 2).
    + simpl. rewrite Ha. specialize (IH (S seen)). lia.
    + specialize (IH (S seen)). lia.
  - simpl. rewrite Ha. lia.
Qed.

Lemma squeeze_no_triple (s : str) : forall seen,
  has_triple (squeeze seen s) = false.
Proof.
  induction s as [|a s IH]; intros seen; [done|].
  pose proof (squeeze_leading (a :: s) seen) as Hlead. simpl in Hlead |- *.
  destruct (a =? 10)%N eqn:Ha, (seen <? 2)%nat; try apply IH.
  - cbn [has_triple]. rewrite IH, orb_false_r. apply Nat.leb_gt. lia.
  - cbn [has_triple]. rewrite IH, orb_false_r. apply Nat.leb_gt. lia.
  - cbn [has_triple]. rewrite IH, orb_false_r. apply Nat.leb_gt. lia.
Qed.


Lemma has_triple_occurs (pre post : str) :
  has_triple (pre ++ [10; 10; 10]%N ++ post) = true.
Proof.
  induction pre as [|p pre IH]; [done|].
  rewrite <- app_comm_cons. cbn [has_triple]. rewrite IH. apply orb_true_r.
Qed.

Lemma squeeze_idempotent (s : str) : forall seen,
  squeeze (Nat.min seen 2) (squeeze seen s) = squeeze seen s.
Proof.
  induction s as [|a s IH]; intros seen; [done|]. simpl.
  destruct (a =? 10)%N eqn:Ha.
  - destruct (Nat.ltb_spec seen 2) as [Hlt|Hge].
    + rewrite Nat.min_l by lia. simpl. rewrite Ha.
      apply Nat.ltb_lt in Hlt as Hlt'. rewrite Hlt'. f_equal.
      specialize (IH (S seen)). by rewrite Nat.min_l in IH by lia.
    + specialize (IH (S seen)). rewrite Nat.min_r in IH by lia.
      by rewrite Nat.min_r by lia.
  - simpl. rewrite Ha. f_equal. apply (IH 0%nat).
Qed.

Lemma squeeze_subset (s : str) (x : N) : forall seen,
  x ∈ squeeze seen s -> x ∈ s.
Proof.
  induction s as [|a s IH]; intros seen; simpl; [done|].
  destruct (a =? 10)%N, (seen <? 2)%nat; rewrite ?elem_of_cons;
    try (intros [->|Hx]; [by left|right; eauto]); intros Hx; right; eauto.
Qed.

Lemma lstrip_subset (s : str) (x : N) : x ∈ lstrip s -> x ∈ s.
Proof.
  destruct (lstrip_suffix s) as [pre Hpre]. intros Hx.
  rewrite Hpre. apply elem_of_app. by right.
Qed.

Lemma strip_subset (s : str) (x : N) : x ∈ strip s -> x ∈ s.
Proof.
  unfold strip. rewrite list_elem_of_In, <- in_rev, <- list_elem_of_In.
  intros Hx%lstrip_subset.
  rewrite list_elem_of_In, <- in_rev, <- list_elem_of_In in Hx.
  by apply lstrip_subset.
Qed.

Lemma restore_imgs_nil (text : str) : restore_imgs [] text = text.
Proof. done. Qed.

Section sanitizer_shape.
Context `{Platform}.

(** X7. Whatever the raw field and whatever the entity decoder does, the
    text [clean_text] returns neither starts nor ends with white space and
    holds no three newlines in a row. *)
Theorem clean_text_trimmed_no_blank_run (raw : str) :
  trimmed (clean_text raw) /\
  forall pre post, clean_text raw <> pre ++ [10; 10; 10]%N ++ post.
Proof.
  unfold clean_text.
  destruct (sub_fn RE_IMG_TAG _save_img [] raw) as [img_placeholders text].
  rewrite sub_emit, collapse_squeeze_emit. split.
  - apply squeeze_trimmed, strip_trimmed.
  - intros pre post Heq.
    pose proof (squeeze_no_triple
                  (strip (restore_imgs img_placeholders
                            (sub RE_HTML_TAG [] (html_unescape text)))) 0)
      as Hnone.
    rewrite Heq, has_triple_occurs in Hnone. discriminate.
Qed.

(** [html.unescape] returns a text without an ampersand as it is. *)
Hypothesis unescape_plain : forall s : str, chr "&" ∉ s -> html_unescape s = s.

Lemma clean_text_plain (s : str) :
  chr "<" ∉ s -> chr "&" ∉ s -> clean_text s = squeeze 0 (strip s).
Proof.
  intros Hlt Hamp. unfold clean_text.
  destruct (no_tags_without_lt s Hlt) as [-> Htags].
  by rewrite (unescape_plain s Hamp), Htags, restore_imgs_nil,
    sub_emit, collapse_squeeze_emit.
Qed.

(** X8. On a text with no [<] and no [&] the sanitizer only trims the
    white space at both ends and collapses the runs of newlines; it is
    idempotent there, and leaves a text unchanged that is already trimmed
    and has no three newlines in a row. *)
Theorem clean_text_plain_text (s : str) :
  chr "<" ∉ s -> chr "&" ∉ s ->
  clean_text s = squeeze 0 (strip s) /\
  clean_text (clean_text s) = clean_text s /\
  (trimmed s -> has_triple s = false -> clean_text s = s).
Proof.
  intros Hlt Hamp. rewrite (clean_text_plain s Hlt Hamp).
  split; [done|split].
  - rewrite clean_text_plain.
    + rewrite strip_fixed by apply squeeze_trimmed, strip_trimmed.
      apply (squeeze_idempotent (strip s) 0).
    + by intros Hin%squeeze_subset%strip_subset.
    + by intros Hin%squeeze_subset%strip_subset.
  - intros Htrim Hnone. rewrite strip_fixed by done.
    apply squeeze_fixed; [|done]. apply no_triple_leading in Hnone. lia.
Qed.

End sanitizer_shape.

Lemma clean_text_trimmed_no_blank_run_witness :
  trimmed (@clean_text test_platform (lit " <p>a</p> ")) /\
  forall pre post,
    @clean_text test_platform (lit " <p>a</p> ") <> pre ++ [10; 10; 10]%N ++ post.
Proof.
  exact (@clean_text_trimmed_no_blank_run test_platform (lit " <p>a</p> ")).
Defined.

Lemma clean_text_plain_text_witness :
  (forall s : str, chr "&" ∉ s -> @html_unescape test_platform s = s) /\
  (chr "<" ∉ [32; 97; 10; 10; 10; 10; 98; 32]%N) /\
  (chr "&" ∉ [32; 97; 10; 10; 10; 10; 98; 32]%N) /\
  @clean_text test_platform [32; 97; 10; 10; 10; 10; 98; 32]%N =
    squeeze 0 (strip [32; 97; 10; 10; 10; 10; 98; 32]%N) /\
  @clean_text test_platform
    (@clean_text test_platform [32; 97; 10; 10; 10; 10; 98; 32]%N) =
    @clean_text test_platform [32; 97; 10; 10; 10; 10; 98; 32]%N.
Proof.
  assert (forall s : str, chr "&" ∉ s -> @html_unescape test_platform s = s)
    as Hplain by done.
  assert (chr "<" ∉ [32; 97; 10; 10; 10; 10; 98; 32]%N) as Hlt by by_eval.
  assert (chr "&" ∉ [32; 97; 10; 10; 10; 10; 98; 32]%N) as Hamp by by_eval.
  split; [exact Hplain|]. split; [exact Hlt|]. split; [exact Hamp|].
  split.
  - exact (proj1 (@clean_text_plain_text test_platform Hplain _ Hlt Hamp)).
  - exact (proj1 (proj2 (@clean_text_plain_text test_platform Hplain _ Hlt Hamp))).
Defined.

(** ** Stripping tags *)

Lemma not_char_false (a : ascii) (c : N) : not_char a c = false <-> c = chr a.
Proof.
  unfold not_char. rewrite negb_false_iff. apply N.eqb_eq.
Qed.

Lemma html_tag_match (ds rest : str) :
  Forall (fun a => not_char ">" a = true) ds -> stops (not_char ">") rest ->
  match_here RE_HTML_TAG (chr "<" :: ds ++ rest) =
    if decide (1 <= length ds)%nat then
      match rest with
      | _ :: _ => Some (S (S (length ds)), (0, 0))%nat
      | [] => None
      end
    else None.
Proof.
  intros Hds Hrest. unfold match_here, RE_HTML_TAG. cbn [run].
  replace (is_char "<" (chr "<")) with true by done.
  rewrite rep_greedy_run; [|..|done|done].
  - destruct (decide (1 <= length ds)%nat); [|done].
    destruct rest as [|b rest]; [done|].
    simpl in Hrest. apply not_char_false in Hrest as ->.
    replace (is_char ">" (chr ">")) with true by done. done.
  - intros a s n Ha. unfold not_char in Ha. unfold is_char.
    by apply negb_true_iff in Ha as ->.
Qed.

Lemma html_tag_other (a : N) (s : str) :
  a <> chr "<" -> match_here RE_HTML_TAG (a :: s) = None.
Proof.
  intros Ha. unfold match_here, RE_HTML_TAG. cbn [run].
  destruct (is_char "<" a) eqn:E; [|done]. by apply is_char_true in E.
Qed.

Lemma emit_scan_subset (re : regex) (s : str) (x : N) : forall skip,
  x ∈ emit [] (scan re s skip) -> x ∈ s.
Proof.
  induction s as [|a s IH]; intros skip; [done|].
  rewrite scan_cons. destruct skip as [|k].
  - destruct (match_here re (a :: s)) as [[[|n] [gs ge]]|];
      rewrite ?emit_cons_text, ?emit_cons_match, ?elem_of_cons;
      try (intros [->|Hx]; [by left|right; eauto]).
    intros Hx. right. eauto.
  - intros Hx. apply elem_of_cons. right. eauto.
Qed.

Lemma strip_text (a : N) (s : str) :
  a <> chr "<" -> sub RE_HTML_TAG [] (a :: s) = a :: sub RE_HTML_TAG [] s.
Proof.
  intros Ha. rewrite !sub_emit, scan_cons, html_tag_other by done. done.
Qed.

Lemma strip_tag (ds post : str) :
  ds <> [] -> Forall (fun a => not_char ">" a = true) ds ->
  sub RE_HTML_TAG [] (chr "<" :: ds ++ chr ">" :: post) =
    sub RE_HTML_TAG [] post.
Proof.
  intros Hne Hds. rewrite !sub_emit, scan_cons, html_tag_match by done.
  rewrite decide_True by (destruct ds; [done|simpl; lia]).
  rewrite emit_cons_match. cbn [app].
  replace (ds ++ chr ">" :: post) with ((ds ++ [chr ">"]) ++ post)
    by by rewrite <- app_assoc.
  replace (S (length ds)) with (length (ds ++ [chr ">"]))
    by (rewrite length_app; simpl; lia).
  by rewrite scan_skip.
Qed.

Lemma strip_unclosed (ds : str) :
  Forall (fun a => not_char ">" a = true) ds ->
  sub RE_HTML_TAG [] (chr "<" :: ds) = chr "<" :: sub RE_HTML_TAG [] ds.
Proof.
  intros Hds. rewrite !sub_emit, scan_cons.
  rewrite <- (app_nil_r ds) at 1. rewrite html_tag_match by done.
  by destruct (decide (1 <= length ds)%nat).
Qed.

Lemma strip_empty_tag (r : str) :
  sub RE_HTML_TAG [] (chr "<" :: chr ">" :: r) =
    chr "<" :: chr ">" :: sub RE_HTML_TAG [] r.
Proof.
  rewrite sub_emit, scan_cons.
  change (chr "<" :: chr ">" :: r) with (chr "<" :: [] ++ chr ">" :: r).
  rewrite html_tag_match by done. cbn [length app].
  rewrite decide_False by lia. rewrite emit_cons_text, <- sub_emit.
  by rewrite strip_text.
Qed.

Lemma no_tag_cons (a : N) (out : str) :
  ~ tag_at (a :: out) -> no_tag_inside out -> no_tag_inside (a :: out).
Proof.
  intros Hhere Hout [|p pre] t Heq.
  - simpl in Heq. by subst.
  - injection Heq as _ Heq. by apply (Hout pre).
Qed.

Lemma strip_no_tag_inside (s : str) : no_tag_inside (sub RE_HTML_TAG [] s).
Proof.
  remember (length s) as n eqn:Hn. revert s Hn.
  induction n as [n IH] using lt_wf_ind. intros s ->.
  destruct s as [|a s].
  { intros pre t Heq (body & post & _ & _ & ->).
    rewrite sub_emit in Heq. by destruct pre. }
  destruct (decide (a = chr "<")) as [->|Ha].
  2:{ rewrite strip_text by done. apply no_tag_cons.
      - by intros (body & post & _ & _ & [= ? _]).
      - apply (IH (length s)); [simpl; lia|done]. }
  destruct (class_run (not_char ">") s) as (ds & rest & -> & Hds & Hrest).
  destruct rest as [|b r].
  - rewrite app_nil_r, strip_unclosed by done. apply no_tag_cons.
    + intros (body & post & _ & _ & [= Heq]).
      assert (chr ">" ∈ ds) as Hin.
      { apply (emit_scan_subset RE_HTML_TAG ds _ 0). rewrite <- sub_emit, Heq.
        apply elem_of_app. right. by left. }
      rewrite Forall_forall in Hds. by specialize (Hds _ Hin).
    + apply (IH (length ds)); [rewrite app_nil_r; simpl; lia|done].
  - simpl in Hrest. apply not_char_false in Hrest as ->.
    destruct ds as [|d ds].
    + cbn [app]. rewrite strip_empty_tag. apply no_tag_cons.
      * intros (body & post & Hne & Hnot & [= Heq]).
        destruct body as [|c body]; [done|]. injection Heq as <- _.
        apply Hnot. by left.
      * apply no_tag_cons.
        -- by intros (body & post & _ & _ & [= ? _]).
        -- apply (IH (length r)); [simpl; lia|done].
    + rewrite strip_tag by done.
      apply (IH (length r)); [|done].
      simpl. rewrite length_app. simpl. lia.
Qed.

Lemma no_tag_scan (t : str) :
  no_tag_inside t -> scan RE_HTML_TAG t 0 = Text <$> t.
Proof.
  induction t as [|a t IH]; intros Hnone; [done|].
  assert (match_here RE_HTML_TAG (a :: t) = None) as Hhere.
  { destruct (decide (a = chr "<")) as [->|Ha]; [|by apply html_tag_other].
    destruct (class_run (not_char ">") t) as (ds & rest & -> & Hds & Hrest).
    rewrite html_tag_match by done.
    destruct (decide (1 <= length ds)%nat) as [Hlen|]; [|done].
    destruct rest as [|b r]; [done|]. exfalso.
    simpl in Hrest. apply not_char_false in Hrest as ->.
    apply (Hnone [] (chr "<" :: ds ++ chr ">" :: r) eq_refl).
    exists ds, r. split; [by destruct ds; [simpl in Hlen; lia|]|].
    split; [|done]. intros Hin. rewrite Forall_forall in Hds.
    by specialize (Hds _ Hin). }
  rewrite scan_cons, Hhere, fmap_cons. f_equal. apply IH.
  intros pre u ->. by apply (Hnone (a :: pre)).
Qed.

(** X9. After the tags of a text are removed with [RE_HTML_TAG] no tag is
    left: nowhere in the result does [<] come with one or more characters
    other than [>] and then [>], also where removing a tag has brought its
    neighbours together.  So stripping the tags a second time changes
    nothing. *)
Theorem stripped_text_has_no_tag (s : str) :
  (forall pre body post,
     body <> [] -> chr ">" ∉ body ->
     sub RE_HTML_TAG [] s <> pre ++ chr "<" :: body ++ chr ">" :: post) /\
  sub RE_HTML_TAG [] (sub RE_HTML_TAG [] s) = sub RE_HTML_TAG [] s.
Proof.
  pose proof (strip_no_tag_inside s) as Hnone. split.
  - intros pre body post Hne Hnot Heq.
    apply (Hnone pre _ Heq). by exists body, post.
  - rewrite (sub_emit _ _ (sub RE_HTML_TAG [] s)), no_tag_scan by done.
    apply emit_texts.
Qed.

Lemma stripped_text_has_no_tag_witness :
  lit "b" <> [] /\ (chr ">" ∉ lit "b") /\
  sub RE_HTML_TAG [] (lit "<<b>b>x") <> [] ++ chr "<" :: lit "b" ++ chr ">" :: lit "x".
Proof.
  split; [done|]. split; [by_eval|].
  exact (proj1 (stripped_text_has_no_tag (lit "<<b>b>x")) [] (lit "b") (lit "x")
           ltac:(done) ltac:(by_eval)).
Defined.

(** ** The one-by-one marker *)

Lemma lstrip_nil (s : str) :
  lstrip s = [] <-> Forall (fun c => is_space c = true) s.
Proof.
  induction s as [|a s IH]; simpl; [done|].
  rewrite Forall_cons. destruct (is_space a); [|split; [done|by intros [? _]]].
  rewrite IH. by split; [|intros [_ ?]].
Qed.

Lemma strip_nil (s : str) :
  strip s = [] <-> Forall (fun c => is_space c = true) s.
Proof.
  unfold strip. rewrite <- lstrip_nil. split.
  - intros Hrev. apply (f_equal (@rev N)) in Hrev.
    rewrite rev_involutive in Hrev. simpl in Hrev.
    apply lstrip_nil, Forall_rev in Hrev. rewrite rev_involutive in Hrev.
    destruct (lstrip s) as [|c rest] eqn:Hs; [done|].
    apply lstrip_head in Hs. apply Forall_cons in Hrev as [Hc _]. congruence.
  - by intros ->.
Qed.

Lemma not_all_space (s : str) :
  ~ Forall (fun c => is_space c = true) s <->
  Exists (fun c => is_space c = false) s.
Proof.
  induction s as [|a s IH].
  - split; [by intros []|by intros ?%Exists_nil].
  - rewrite Forall_cons, Exists_cons, <- IH.
    destruct (is_space a).
    + split; [intros Hn; right; intros Hs; by apply Hn|].
      by intros [?|Hn] [_ Hs].
    + split; [by left|by intros _ [? _]].
Qed.

Section marker.
Context `{Platform}.

(** [str.lower] maps every character to one or more characters. *)
Hypothesis lower_empty : forall s : str, str_lower s = [] <-> s = [].

(** X10. The marker is truthy exactly when a character that is not white
    space is left of the value once its tags are removed, whatever that
    character is: lowering the case plays no part, and a value made of tags
    and white space only is falsy. *)
Theorem one_by_one_truthy_iff (value : str) :
  is_one_by_one_truthy value = true <->
  Exists (fun c => is_space c = false) (sub RE_HTML_TAG [] value).
Proof.
  unfold is_one_by_one_truthy.
  rewrite bool_decide_eq_true, lower_empty, strip_nil.
  apply not_all_space.
Qed.

End marker.

Lemma one_by_one_truthy_iff_witness :
  (forall s : str, @str_lower test_platform s = [] <-> s = []) /\
  (@is_one_by_one_truthy test_platform (lit "<b> </b><br>") = true <->
   Exists (fun c => is_space c = false)
     (sub RE_HTML_TAG [] (lit "<b> </b><br>"))).
Proof.
  assert (forall s : str, @str_lower test_platform s = [] <-> s = [])
    as Hlower by (by intros [|a s]).
  split; [exact Hlower|].
  exact (@one_by_one_truthy_iff test_platform Hlower (lit "<b> </b><br>")).
Defined.

(** ** The loop over the source records *)

Section loop_facts.
Context `{Platform}.

Lemma transform_note_meta (r : row) (n : note) (refs : gset str) :
  transform_note r = Ok (n, refs) ->
  note_id n = row_id r /\ note_tags n = row_tags r.
Proof.
  unfold transform_note.
  destruct (getitem _ IDX_TEXT) as [raw_text|e|]; [|done..].
  destruct (getitem _ IDX_EXTRA) as [raw_extra|e|]; [|done..].
  cbn [mbind outcome_bind].
  destruct (if IDX_ONE_BY_ONE <? _ then _ else _) as [marker|e|]; [|done..].
  cbn [mbind outcome_bind]. by intros [= <- _].
Qed.

Lemma transform_note_raise (r : row) (e : exn) :
  transform_note r = Raise e ->
  e = IndexError /\ len (split FIELD_SEP (row_flds r)) < 2.
Proof.
  intros Hr. destruct (Z.lt_ge_cases (len (split FIELD_SEP (row_flds r))) 2)
    as [Hlen|Hlen].
  - rewrite transform_note_short in Hr by done. by injection Hr as <-.
  - destruct (transform_note_long r) as (n & refs & Hn & _); [lia|]. congruence.
Qed.

(** X11. The loop over the rows either stops with [IndexError] at a row
    of fewer than two fields, or appends one note per row, in the order of
    the rows and with each row's id and tags, and returns the references it
    started with together with those of every row and no others. *)
Theorem transform_all_notes (rows : list row) :
  forall all_media_refs notes,
    (exists r,
       r ∈ rows /\ len (split FIELD_SEP (row_flds r)) < 2 /\
       transform_all rows all_media_refs notes = Raise IndexError) \/
    (exists added refs,
       transform_all rows all_media_refs notes = Ok (refs, notes ++ added) /\
       Forall2 (fun r n => exists found,
                  transform_note r = Ok (n, found) /\ found ⊆ refs)
         rows added /\
       note_id <$> added = row_id <$> rows /\
       note_tags <$> added = row_tags <$> rows /\
       all_media_refs ⊆ refs /\
       forall f,
         f ∈ refs ->
         f ∈ all_media_refs \/
         exists r n found,
           r ∈ rows /\ transform_note r = Ok (n, found) /\ f ∈ found).
Proof.
  induction rows as [|r rows IH]; intros all_media_refs notes.
  - right. exists [], all_media_refs. rewrite app_nil_r.
    repeat split; [constructor|done|by left].
  - cbn [transform_all].
    destruct (transform_note r) as [[n found]|e|] eqn:Hr; cbn [mbind outcome_bind].
    + destruct (IH (all_media_refs ∪ found) (notes ++ [n]))
        as [(r' & Hin & Hshort & Hraise)
           |(added & refs & Hok & Hall & Hids & Htags & Hsub & Hfrom)].
      * left. exists r'. split; [by right|done].
      * right. exists (n :: added), refs.
        destruct (transform_note_meta r n found Hr) as [Hid Htag].
        rewrite <- app_assoc in Hok. split; [exact Hok|].
        split; [|split; [|split; [|split]]].
        -- constructor; [|done]. exists found. split; [done|set_solver].
        -- rewrite !fmap_cons. by f_equal.
        -- rewrite !fmap_cons. by f_equal.
        -- set_solver.
        -- intros f [[Hf|Hf]%elem_of_union|(r' & n' & found' & Hin & Hr' & Hf)]%Hfrom.
           ++ by left.
           ++ right. exists r, n, found. split; [by left|done].
           ++ right. exists r', n', found'. split; [by right|done].
    + left. exists r. apply transform_note_raise in Hr as [-> Hshort].
      split; [by left|done].
    + exfalso. destruct (transform_note_outcome r) as [Hx|(n & found & Hx)];
        congruence.
Qed.

End loop_facts.

(** ** Inverting the manifest *)

Lemma invert_snoc (m : pydict str) (k v : str) :
  invert (m ++ [(k, v)]) = dict_set v k (invert m).
Proof. unfold invert. by rewrite foldl_app. Qed.

Lemma invert_keys (m : pydict str) (f : str) :
  f ∈ dict_keys (invert m) <-> f ∈ m.*2.
Proof.
  rewrite <- dict_get_keys.
  induction m as [|[k v] m IH] using rev_ind.
  - split; [by intros [? ?]|by intros ?%elem_of_nil].
  - rewrite invert_snoc, dict_get_set, fmap_app, elem_of_app, <- IH.
    cbn [fmap list_fmap snd]. rewrite list_elem_of_singleton.
    destruct (decide (v = f)) as [->|Hne].
    + split; [by right|by eexists].
    + split; [by left|]. by intros [?|?].
Qed.

Lemma invert_last (m1 m2 : pydict str) (k f : str) :
  f ∉ m2.*2 -> dict_get f (invert (m1 ++ (k, f) :: m2)) = Some k.
Proof.
  induction m2 as [|[k' f'] m2 IH] using rev_ind; intros Hnot.
  - rewrite invert_snoc, dict_get_set. by rewrite decide_True.
  - rewrite fmap_app, not_elem_of_app in Hnot. destruct Hnot as [Hnot Hne].
    cbn [fmap list_fmap snd] in Hne. rewrite list_elem_of_singleton in Hne.
    rewrite app_comm_cons, app_assoc, invert_snoc, dict_get_set.
    rewrite decide_False by done. by apply IH.
Qed.

Lemma invert_sound (m : pydict str) (f k : str) :
  dict_get f (invert m) = Some k -> (k, f) ∈ m.
Proof.
  induction m as [|[k' f'] m IH] using rev_ind; [done|].
  rewrite invert_snoc, dict_get_set, elem_of_app, list_elem_of_singleton.
  destruct (decide (f' = f)) as [->|Hne]; [by intros [= ->]; right|].
  intros Hget. left. by apply IH.
Qed.

Lemma dict_get_distinct {V} (d : pydict V) (k : str) (v : V) :
  NoDup (dict_keys d) -> (k, v) ∈ d -> dict_get k d = Some v.
Proof.
  unfold dict_keys. induction d as [|[k' v'] d IH]; intros Hnodup Hin.
  - by apply elem_of_nil in Hin.
  - cbn [fmap list_fmap fst] in Hnodup. apply NoDup_cons in Hnodup as [Hk Hnodup].
    simpl. apply elem_of_cons in Hin as [[= -> ->]|Hin].
    + by rewrite decide_True.
    + rewrite decide_False; [by apply IH|]. intros ->. apply Hk.
      apply list_elem_of_fmap. by exists (k, v).
Qed.

(** X12. The inverted manifest has the filenames of the manifest as its
    keys.  A filename that stands at several slots is mapped to the last of
    them; and when the slots of the manifest are distinct, as those the
    decoder returns are, the slot a filename is mapped to holds that
    filename. *)
Theorem invert_maps_name_to_last_slot (manifest : pydict str) :
  (forall f, f ∈ dict_keys (invert manifest) <-> f ∈ manifest.*2) /\
  (forall m1 k f m2,
     manifest = m1 ++ (k, f) :: m2 -> f ∉ m2.*2 ->
     dict_get f (invert manifest) = Some k) /\
  (NoDup (dict_keys manifest) ->
   forall f k,
     dict_get f (invert manifest) = Some k -> dict_get k manifest = Some f).
Proof.
  split; [apply invert_keys|]. split.
  - intros m1 k f m2 ->. apply invert_last.
  - intros Hnodup f k Hget%invert_sound. by apply dict_get_distinct.
Qed.

Lemma invert_maps_name_to_last_slot_witness :
  ([(lit "0", lit "a.png"); (lit "1", lit "b.png"); (lit "2", lit "a.png")] =
     [(lit "0", lit "a.png"); (lit "1", lit "b.png")]
       ++ (lit "2", lit "a.png") :: []) /\
  (lit "a.png" ∉ ([] : pydict str).*2) /\
  dict_get (lit "a.png")
    (invert [(lit "0", lit "a.png"); (lit "1", lit "b.png");
             (lit "2", lit "a.png")]) = Some (lit "2").
Proof.
  assert (lit "a.png" ∉ ([] : pydict str).*2) as Hnot by apply not_elem_of_nil.
  split; [reflexivity|]. split; [exact Hnot|].
  exact (proj1 (proj2 (invert_maps_name_to_last_slot
           [(lit "0", lit "a.png"); (lit "1", lit "b.png");
            (lit "2", lit "a.png")]))
           [(lit "0", lit "a.png"); (lit "1", lit "b.png")]
           (lit "2") (lit "a.png") [] eq_refl Hnot).
Defined.

(** ** Copying the media files *)

Section run_facts.
Context `{Platform}.

Lemma copy_media_run (zf : archive) (filename_to_entry : pydict str)
    (referenced : list str) :
  (forall files f data,
     f ∈ referenced ->
     write_bytes (Some files) f data = (Ok tt, Some (<[f := data]> files))) ->
  forall w files,
    media_dir w = Some files ->
    (forall f, f ∈ referenced -> is_Some (dict_get f filename_to_entry)) ->
    exists r files',
      copy_media zf filename_to_entry referenced w =
        (r, World (apkg w) (tmp_files w) (output_dir w) (source_notes w)
              (Some files')) /\
      (forall g data,
         files' !! g = Some data ->
         files !! g = Some data \/
         g ∈ referenced /\
         dict_get g filename_to_entry ≫= getinfo zf = Some data) /\
      ((forall f, f ∈ referenced ->
          is_Some (dict_get f filename_to_entry ≫= getinfo zf)) ->
       r = Ok tt /\
       (forall f, f ∈ referenced ->
          files' !! f = dict_get f filename_to_entry ≫= getinfo zf) /\
       (forall f, f ∉ referenced -> files' !! f = files !! f)) /\
      ((exists f, f ∈ referenced /\
          dict_get f filename_to_entry ≫= getinfo zf = None) ->
       r = Raise KeyError).
Proof.
  induction referenced as [|filename rest IH]; intros Hchild w files Hdir Hkeys.
  - exists (Ok tt), files. cbn [copy_media]. unfold io_ret.
    split; [destruct w; simpl in *; by subst|].
    split; [by left|]. split.
    + intros _. split; [done|]. split; [by intros f ?%elem_of_nil|done].
    + by intros (f & ?%elem_of_nil & _).
  - cbn [copy_media].
    destruct (Hkeys filename) as [entry_num Hentry]; [by left|].
    rewrite Hentry. unfold io_bind at 1, io_lift, zf_read.
    destruct (getinfo zf entry_num) as [data|] eqn:Hmember.
    + unfold io_bind at 1, write_media.
      rewrite Hdir, (Hchild files filename data) by by left.
      assert (forall files f data,
                f ∈ rest ->
                write_bytes (Some files) f data =
                  (Ok tt, Some (<[f := data]> files))) as Hlater.
      { intros files0 f data0 Hf. apply Hchild. by right. }
      destruct (IH Hlater
                  (World (apkg w) (tmp_files w) (output_dir w)
                      (source_notes w) (Some (<[filename := data]> files)))
                  (<[filename := data]> files) eq_refl)
        as (r & files' & Hrun & Hfrom & Hall & Hsome).
      { intros f Hf. apply Hkeys. by right. }
      exists r, files'. split; [exact Hrun|]. split; [|split].
      * intros g d [Hg|[Hg Hd]]%Hfrom.
        -- destruct (decide (filename = g)) as [->|Hne].
           ++ rewrite lookup_insert_eq in Hg. injection Hg as <-.
              right. split; [by left|]. by rewrite Hentry.
           ++ rewrite lookup_insert_ne in Hg by done. by left.
        -- right. split; [by right|done].
      * intros Hmembers. destruct Hall as (-> & Hin & Hout).
        { intros f Hf. apply Hmembers. by right. }
        split; [done|]. split.
        -- intros f Hf. destruct (decide (f ∈ rest)) as [Hrest|Hrest];
             [by apply Hin|].
           apply elem_of_cons in Hf as [->|Hf]; [|done].
           rewrite (Hout _ Hrest), lookup_insert_eq, Hentry. done.
        -- intros f [Hne Hrest]%not_elem_of_cons.
           by rewrite (Hout _ Hrest), lookup_insert_ne.
      * intros (f & Hf & Hnone). apply Hsome.
        apply elem_of_cons in Hf as [->|Hf]; [|by exists f].
        rewrite Hentry in Hnone. simpl in Hnone. congruence.
    + exists (Raise KeyError), files.
      split; [destruct w; simpl in *; by subst|].
      split; [by left|]. split; [|done].
      intros Hmembers. destruct (Hmembers filename) as [d Hd]; [by left|].
      rewrite Hentry in Hd. simpl in Hd. congruence.
Qed.

(** What the loader leaves when it returns: one new temporary file. *)
Lemma extract_ok_shape (zf : archive) (w w1 : world) (tmp_path : nat) :
  extract_collection_db zf w = (Ok tmp_path, w1) ->
  tmp_files w !! tmp_path = None /\
  exists db, w1 = World (apkg w) (<[tmp_path := db]> (tmp_files w))
                    (output_dir w) (source_notes w) (media_dir w).
Proof.
  intros Hx. destruct (decide (anki21b ∈ namelist zf)) as [Hnew|Hnew].
  - destruct (zf_read_present _ _ Hnew) as [compressed Hread].
    rewrite (extract_newer zf w compressed) in Hx by done. simpl in Hx.
    destruct (zstd_decompress compressed) as [d|]; [|done].
    injection Hx as <- <-. split; [apply fresh_tmp_unused|by eexists].
  - destruct (decide (anki2 ∈ namelist zf)) as [Hold|Hold].
    + destruct (zf_read_present _ _ Hold) as [data Hread].
      rewrite (extract_legacy zf w data) in Hx by done. simpl in Hx.
      injection Hx as <- <-. split; [apply fresh_tmp_unused|by eexists].
    + by rewrite extract_neither in Hx.
Qed.

Lemma query_stage_rows (w : world) (tmp_path : nat) (db : bytes)
    (rows : list row) :
  tmp_files w !! tmp_path = None ->
  sqlite_select_notes db ANKING_MODEL_ID = Some rows ->
  try_finally (query_notes tmp_path) (unlink tmp_path)
    (World (apkg w) (<[tmp_path := db]> (tmp_files w)) (output_dir w)
       (source_notes w) (media_dir w)) = (Ok rows, w).
Proof.
  intros Hfresh Hrows. unfold try_finally, query_notes, io_bind, tmp_contents.
  cbn. rewrite lookup_insert_eq, Hrows.
  cbv [io_ret io_raise io_lift unlink]. cbn.
  rewrite lookup_insert_eq, delete_insert_id by done. by destruct w.
Qed.

(** The run up to the point where the table has been written. *)
Lemma run_on_notes_written (zf : archive) (w w1 : world) (tmp_path : nat)
    (db : bytes) (rows : list row) (refs : gset str) (notes : list note) :
  extract_collection_db zf w = (Ok tmp_path, w1) ->
  tmp_files w1 !! tmp_path = Some db ->
  sqlite_select_notes db ANKING_MODEL_ID = Some rows ->
  transform_all rows ∅ [] = Ok (refs, notes) ->
  NoDup (note_id <$> notes) ->
  run_on zf w =
    io_bind (io_lift (zf_read zf (lit "media"))) (fun media =>
    io_bind (io_lift (parse_media_manifest media)) (fun manifest =>
      let filename_to_entry := invert manifest in
      let referenced :=
        filter (fun f => f ∈ dict_keys filename_to_entry) refs in
      io_bind reset_media_dir (fun _ =>
        copy_media zf filename_to_entry (elements referenced))))
      (World (apkg w) (tmp_files w) true (Some notes) (media_dir w)).
Proof.
  intros Hx Hdb Hrows Hnotes Hids. unfold run_on. unfold io_bind at 1.
  rewrite Hx. destruct (extract_ok_shape _ _ _ _ Hx) as [Hfresh [db0 ->]].
  cbn [tmp_files] in Hdb. rewrite lookup_insert_eq in Hdb.
  injection Hdb as ->. unfold io_bind at 1.
  rewrite (query_stage_rows w tmp_path db rows Hfresh Hrows).
  unfold io_bind at 1, io_lift at 1. rewrite Hnotes.
  unfold io_bind at 1, mkdir_output. unfold io_bind at 1, write_notes.
  cbn [apkg tmp_files output_dir source_notes media_dir].
  by rewrite decide_True.
Qed.

(** X13. A run in which every stage succeeds: the loader returns a
    database, the query returns rows, every row has its two fields, the
    note ids are distinct, the archive has a [media] member that decodes,
    every referenced file of the manifest is a member of the archive under
    its slot that can be read, and the file system takes every referenced name of the
    manifest as the name of a file directly in the media directory and
    writes it.  Then [main] returns normally; the table holds the
    notes of the rows; the media directory holds exactly the referenced
    files that the manifest names, each with the bytes of the archive member
    at the last slot of that name, and nothing of what it held before; the
    output directory exists and the temporary files are those of the
    start. *)
Theorem main_success (zf : archive) (w w1 : world) (tmp_path : nat)
    (db media : bytes) (rows : list row) (refs : gset str)
    (notes : list note) (manifest : pydict str) :
  apkg w = Some zf ->
  extract_collection_db zf w = (Ok tmp_path, w1) ->
  tmp_files w1 !! tmp_path = Some db ->
  sqlite_select_notes db ANKING_MODEL_ID = Some rows ->
  transform_all rows ∅ [] = Ok (refs, notes) ->
  NoDup (note_id <$> notes) ->
  zf_read zf (lit "media") = Ok media ->
  parse_media_manifest media = Ok manifest ->
  (forall f entry_num,
     f ∈ refs -> dict_get f (invert manifest) = Some entry_num ->
     is_Some (getinfo zf entry_num)) ->
  (forall files f data,
     f ∈ refs -> f ∈ dict_keys (invert manifest) ->
     write_bytes (Some files) f data = (Ok tt, Some (<[f := data]> files))) ->
  exists files,
    main w =
      (Ok tt, World (apkg w) (tmp_files w) true (Some notes) (Some files)) /\
    forall f data,
      files !! f = Some data <->
      f ∈ refs /\
      exists entry_num,
        dict_get f (invert manifest) = Some entry_num /\
        getinfo zf entry_num = Some data.
Proof.
  intros Hzf Hx Hdb Hrows Hnotes Hids Hmedia Hmanifest Hmembers Hchild.
  rewrite (main_run zf) by done.
  rewrite (run_on_notes_written zf w w1 tmp_path db rows refs notes) by done.
  unfold io_bind at 1, io_lift at 1. rewrite Hmedia.
  unfold io_bind at 1, io_lift at 1. rewrite Hmanifest. cbv zeta.
  unfold io_bind at 1, reset_media_dir.
  cbn [apkg tmp_files output_dir source_notes media_dir].
  set (fte := invert manifest).
  set (referenced := filter (fun f => f ∈ dict_keys fte) refs).
  assert (forall f, f ∈ elements referenced <-> f ∈ refs /\ f ∈ dict_keys fte)
    as Href.
  { intros f. unfold referenced. rewrite elem_of_elements, elem_of_filter.
    tauto. }
  destruct (copy_media_run zf fte (elements referenced))
    with (w := World (apkg w) (tmp_files w) true (Some notes) (Some ∅))
         (files := (∅ : gmap str bytes))
    as (r & files & Hrun & _ & Hall & _); [|done|..].
  { intros files f data [Hf Hkey]%Href. by apply Hchild. }
  { intros f Hf. apply dict_get_keys. by apply Href. }
  destruct Hall as (-> & Hin & Hout).
  { intros f [Hf [entry_num Hentry]%dict_get_keys]%Href.
    rewrite Hentry. simpl. by apply (Hmembers f). }
  exists files. split; [exact Hrun|]. intros f data. split.
  - intros Hfile. destruct (decide (f ∈ elements referenced)) as [Hf|Hf].
    + rewrite (Hin f Hf) in Hfile. apply Href in Hf as [Hf _].
      split; [done|].
      destruct (dict_get f fte) as [entry_num|]; [|done]. by exists entry_num.
    + by rewrite (Hout f Hf) in Hfile.
  - intros (Hf & entry_num & Hentry & Hdata).
    rewrite Hin, Hentry; [done|]. apply Href. split; [done|].
    apply dict_get_keys. by eexists.
Qed.

(** X14. When the notes have been written and the archive has no [media]
    member, or its manifest does not decode, [main] stops with that error:
    the table already holds the new notes, and the media directory is as it
    was before the run. *)
Theorem media_stage_fails_after_notes (zf : archive) (w w1 : world)
    (tmp_path : nat) (db : bytes) (rows : list row) (refs : gset str)
    (notes : list note) :
  apkg w = Some zf ->
  extract_collection_db zf w = (Ok tmp_path, w1) ->
  tmp_files w1 !! tmp_path = Some db ->
  sqlite_select_notes db ANKING_MODEL_ID = Some rows ->
  transform_all rows ∅ [] = Ok (refs, notes) ->
  NoDup (note_id <$> notes) ->
  (lit "media" ∉ namelist zf ->
   main w =
     (Raise KeyError,
      World (apkg w) (tmp_files w) true (Some notes) (media_dir w))) /\
  (forall media e,
     zf_read zf (lit "media") = Ok media ->
     parse_media_manifest media = Raise e ->
     main w =
       (Raise e,
        World (apkg w) (tmp_files w) true (Some notes) (media_dir w))).
Proof.
  intros Hzf Hx Hdb Hrows Hnotes Hids.
  rewrite (main_run zf) by done.
  rewrite (run_on_notes_written zf w w1 tmp_path db rows refs notes) by done.
  split.
  - intros Hnone. unfold io_bind at 1, io_lift at 1, zf_read.
    destruct (getinfo zf (lit "media")) as [media|] eqn:Hget; [|done].
    exfalso. apply Hnone, getinfo_namelist. by eexists.
  - intros media e Hmedia Hmanifest.
    unfold io_bind at 1, io_lift at 1. rewrite Hmedia.
    unfold io_bind at 1, io_lift at 1. by rewrite Hmanifest.
Qed.

(** X15. When a referenced file of the manifest has no member in the
    archive under its slot, and the file system takes every referenced name
    of the manifest as the name of a file directly in the media directory
    and writes it, [main] stops with [KeyError] after the media directory
    has been emptied: what the directory held before is gone, and it holds
    at most files that were referenced and copied from the archive before
    the missing one was reached. *)
Theorem missing_member_leaves_partial_media (zf : archive) (w w1 : world)
    (tmp_path : nat) (db media : bytes) (rows : list row) (refs : gset str)
    (notes : list note) (manifest : pydict str) (f entry_num : str) :
  apkg w = Some zf ->
  extract_collection_db zf w = (Ok tmp_path, w1) ->
  tmp_files w1 !! tmp_path = Some db ->
  sqlite_select_notes db ANKING_MODEL_ID = Some rows ->
  transform_all rows ∅ [] = Ok (refs, notes) ->
  NoDup (note_id <$> notes) ->
  zf_read zf (lit "media") = Ok media ->
  parse_media_manifest media = Ok manifest ->
  f ∈ refs -> dict_get f (invert manifest) = Some entry_num ->
  getinfo zf entry_num = None ->
  (forall files g data,
     g ∈ refs -> g ∈ dict_keys (invert manifest) ->
     write_bytes (Some files) g data = (Ok tt, Some (<[g := data]> files))) ->
  exists files,
    main w =
      (Raise KeyError,
       World (apkg w) (tmp_files w) true (Some notes) (Some files)) /\
    files !! f = None /\
    forall g data,
      files !! g = Some data ->
      g ∈ refs /\
      exists slot,
        dict_get g (invert manifest) = Some slot /\
        getinfo zf slot = Some data.
Proof.
  intros Hzf Hx Hdb Hrows Hnotes Hids Hmedia Hmanifest Hf Hentry Hmissing
    Hchild.
  rewrite (main_run zf) by done.
  rewrite (run_on_notes_written zf w w1 tmp_path db rows refs notes) by done.
  unfold io_bind at 1, io_lift at 1. rewrite Hmedia.
  unfold io_bind at 1, io_lift at 1. rewrite Hmanifest. cbv zeta.
  unfold io_bind at 1, reset_media_dir.
  cbn [apkg tmp_files output_dir source_notes media_dir].
  set (fte := invert manifest) in *.
  set (referenced := filter (fun f => f ∈ dict_keys fte) refs).
  assert (forall f, f ∈ elements referenced <-> f ∈ refs /\ f ∈ dict_keys fte)
    as Href.
  { intros g. unfold referenced. rewrite elem_of_elements, elem_of_filter.
    tauto. }
  destruct (copy_media_run zf fte (elements referenced))
    with (w := World (apkg w) (tmp_files w) true (Some notes) (Some ∅))
         (files := (∅ : gmap str bytes))
    as (r & files & Hrun & Hfrom & _ & Hfail); [|done|..].
  { intros files g data [Hg Hkey]%Href. by apply Hchild. }
  { intros g Hg. apply dict_get_keys. by apply Href. }
  rewrite Hfail in Hrun.
  2:{ exists f. split; [|by rewrite Hentry].
      apply Href. split; [done|]. apply dict_get_keys. by eexists. }
  exists files. split; [exact Hrun|].
  assert (forall g data,
            files !! g = Some data ->
            g ∈ refs /\
            exists slot, dict_get g fte = Some slot /\ getinfo zf slot = Some data)
    as Hfiles.
  { intros g data [Hg|[Hg Hd]]%Hfrom; [done|].
    apply Href in Hg as [Hg _]. split; [done|].
    destruct (dict_get g fte) as [slot|]; [|done]. by exists slot. }
  split; [|exact Hfiles].
  destruct (files !! f) as [data|] eqn:Hfile; [|done].
  destruct (Hfiles f data Hfile) as (_ & slot & Hslot & Hdata). congruence.
Qed.

End run_facts.

Lemma main_success_witness :
  apkg (start deck_archive) = Some deck_archive /\
  @extract_collection_db test_platform deck_archive (start deck_archive) =
    (Ok 0%nat, loaded deck_archive) /\
  tmp_files (loaded deck_archive) !! 0%nat = Some deck_db /\
  @sqlite_select_notes test_platform deck_db ANKING_MODEL_ID = Some deck_rows /\
  @transform_all test_platform deck_rows ∅ [] = Ok (deck_refs, deck_notes) /\
  NoDup (note_id <$> deck_notes) /\
  zf_read deck_archive (lit "media") = Ok deck_manifest /\
  @parse_media_manifest test_platform deck_manifest =
    Ok [(lit "0", lit "a.png")] /\
  (forall files f data,
     f ∈ deck_refs -> f ∈ dict_keys (invert [(lit "0", lit "a.png")]) ->
     @write_bytes test_platform (Some files) f data =
       (Ok tt, Some (<[f := data]> files))) /\
  exists files,
    @main test_platform (start deck_archive) =
      (Ok tt, World (Some deck_archive) ∅ true (Some deck_notes) (Some files)) /\
    files !! lit "a.png" = Some (blit "PNG") /\
    files !! lit "b.mp3" = None.
Proof.
  assert (@extract_collection_db test_platform deck_archive (start deck_archive) =
            (Ok 0%nat, loaded deck_archive)) as Hx
    by (vm_compute; reflexivity).
  assert (tmp_files (loaded deck_archive) !! 0%nat = Some deck_db) as Hdb
    by (vm_compute; reflexivity).
  assert (@sqlite_select_notes test_platform deck_db ANKING_MODEL_ID =
            Some deck_rows) as Hrows
    by (vm_compute; reflexivity).
  assert (@transform_all test_platform deck_rows ∅ [] =
            Ok (deck_refs, deck_notes)) as Hnotes
    by (vm_compute; reflexivity).
  assert (NoDup (note_id <$> deck_notes)) as Hids by by_eval.
  assert (zf_read deck_archive (lit "media") = Ok deck_manifest) as Hmedia
    by (vm_compute; reflexivity).
  assert (@parse_media_manifest test_platform deck_manifest =
            Ok [(lit "0", lit "a.png")]) as Hmanifest
    by (vm_compute; reflexivity).
  assert (forall f entry_num,
            f ∈ deck_refs ->
            dict_get f (invert [(lit "0", lit "a.png")]) = Some entry_num ->
            is_Some (getinfo deck_archive entry_num)) as Hmembers.
  { intros f entry_num _ Hget.
    change (invert [(lit "0", lit "a.png")])
      with [(lit "a.png", lit "0")] in Hget.
    cbn [dict_get] in Hget. destruct (decide (lit "a.png" = f)); [|done].
    injection Hget as <-. exists (blit "PNG"). vm_compute. reflexivity. }
  assert (forall files f data,
            f ∈ deck_refs -> f ∈ dict_keys (invert [(lit "0", lit "a.png")]) ->
            @write_bytes test_platform (Some files) f data =
              (Ok tt, Some (<[f := data]> files))) as Hchild.
  { intros files f data _ Hkey.
    change (dict_keys (invert [(lit "0", lit "a.png")]))
      with [lit "a.png"] in Hkey.
    apply list_elem_of_singleton in Hkey as ->. reflexivity. }
  split; [reflexivity|]. do 8 (split; [assumption|]).
  destruct (@main_success test_platform deck_archive (start deck_archive)
              (loaded deck_archive) 0%nat deck_db deck_manifest deck_rows
              deck_refs deck_notes [(lit "0", lit "a.png")]
              eq_refl Hx Hdb Hrows Hnotes Hids Hmedia Hmanifest Hmembers
              Hchild)
    as (files & Hmain & Hfiles).
  exists files. split; [exact Hmain|]. split.
  - apply Hfiles. split; [by_eval|]. exists (lit "0").
    split; vm_compute; reflexivity.
  - destruct (files !! lit "b.mp3") as [data|] eqn:Hfile; [|done].
    apply Hfiles in Hfile as (_ & slot & Hslot & _).
    vm_compute in Hslot. discriminate.
Defined.

Lemma media_stage_fails_after_notes_witness :
  apkg (start no_media_archive) = Some no_media_archive /\
  @extract_collection_db test_platform no_media_archive (start no_media_archive) =
    (Ok 0%nat, loaded no_media_archive) /\
  tmp_files (loaded no_media_archive) !! 0%nat = Some deck_db /\
  @sqlite_select_notes test_platform deck_db ANKING_MODEL_ID = Some deck_rows /\
  @transform_all test_platform deck_rows ∅ [] = Ok (deck_refs, deck_notes) /\
  NoDup (note_id <$> deck_notes) /\
  (lit "media" ∉ namelist no_media_archive) /\
  @main test_platform (start no_media_archive) =
    (Raise KeyError,
     World (Some no_media_archive) ∅ true (Some deck_notes) None).
Proof.
  assert (@extract_collection_db test_platform no_media_archive
            (start no_media_archive) = (Ok 0%nat, loaded no_media_archive))
    as Hx by (vm_compute; reflexivity).
  assert (tmp_files (loaded no_media_archive) !! 0%nat = Some deck_db) as Hdb
    by (vm_compute; reflexivity).
  assert (@sqlite_select_notes test_platform deck_db ANKING_MODEL_ID =
            Some deck_rows) as Hrows
    by (vm_compute; reflexivity).
  assert (@transform_all test_platform deck_rows ∅ [] =
            Ok (deck_refs, deck_notes)) as Hnotes
    by (vm_compute; reflexivity).
  assert (NoDup (note_id <$> deck_notes)) as Hids by by_eval.
  assert (lit "media" ∉ namelist no_media_archive) as Hnone by by_eval.
  split; [reflexivity|]. do 6 (split; [assumption|]).
  exact (proj1 (@media_stage_fails_after_notes test_platform no_media_archive
                  (start no_media_archive) (loaded no_media_archive) 0%nat
                  deck_db deck_rows deck_refs deck_notes
                  eq_refl Hx Hdb Hrows Hnotes Hids) Hnone).
Defined.

Lemma missing_member_leaves_partial_media_witness :
  apkg (start no_member_archive) = Some no_member_archive /\
  @extract_collection_db test_platform no_member_archive
    (start no_member_archive) = (Ok 0%nat, loaded no_member_archive) /\
  tmp_files (loaded no_member_archive) !! 0%nat = Some deck_db /\
  @sqlite_select_notes test_platform deck_db ANKING_MODEL_ID = Some deck_rows /\
  @transform_all test_platform deck_rows ∅ [] = Ok (deck_refs, deck_notes) /\
  NoDup (note_id <$> deck_notes) /\
  zf_read no_member_archive (lit "media") = Ok deck_manifest /\
  @parse_media_manifest test_platform deck_manifest =
    Ok [(lit "0", lit "a.png")] /\
  lit "a.png" ∈ deck_refs /\
  dict_get (lit "a.png") (invert [(lit "0", lit "a.png")]) = Some (lit "0") /\
  getinfo no_member_archive (lit "0") = None /\
  (forall files f data,
     f ∈ deck_refs -> f ∈ dict_keys (invert [(lit "0", lit "a.png")]) ->
     @write_bytes test_platform (Some files) f data =
       (Ok tt, Some (<[f := data]> files))) /\
  exists files,
    @main test_platform (start no_member_archive) =
      (Raise KeyError,
       World (Some no_member_archive) ∅ true (Some deck_notes) (Some files)) /\
    files !! lit "a.png" = None.
Proof.
  assert (@extract_collection_db test_platform no_member_archive
            (start no_member_archive) = (Ok 0%nat, loaded no_member_archive))
    as Hx by (vm_compute; reflexivity).
  assert (tmp_files (loaded no_member_archive) !! 0%nat = Some deck_db) as Hdb
    by (vm_compute; reflexivity).
  assert (@sqlite_select_notes test_platform deck_db ANKING_MODEL_ID =
            Some deck_rows) as Hrows
    by (vm_compute; reflexivity).
  assert (@transform_all test_platform deck_rows ∅ [] =
            Ok (deck_refs, deck_notes)) as Hnotes
    by (vm_compute; reflexivity).
  assert (NoDup (note_id <$> deck_notes)) as Hids by by_eval.
  assert (zf_read no_member_archive (lit "media") = Ok deck_manifest) as Hmedia
    by (vm_compute; reflexivity).
  assert (@parse_media_manifest test_platform deck_manifest =
            Ok [(lit "0", lit "a.png")]) as Hmanifest
    by (vm_compute; reflexivity).
  assert (lit "a.png" ∈ deck_refs) as Hf by by_eval.
  assert (dict_get (lit "a.png") (invert [(lit "0", lit "a.png")]) =
            Some (lit "0")) as Hentry
    by (vm_compute; reflexivity).
  assert (getinfo no_member_archive (lit "0") = None) as Hmissing
    by (vm_compute; reflexivity).
  assert (forall files f data,
            f ∈ deck_refs -> f ∈ dict_keys (invert [(lit "0", lit "a.png")]) ->
            @write_bytes test_platform (Some files) f data =
              (Ok tt, Some (<[f := data]> files))) as Hchild.
  { intros files f data _ Hkey.
    change (dict_keys (invert [(lit "0", lit "a.png")]))
      with [lit "a.png"] in Hkey.
    apply list_elem_of_singleton in Hkey as ->. reflexivity. }
  split; [reflexivity|]. do 11 (split; [assumption|]).
  destruct (@missing_member_leaves_partial_media test_platform
              no_member_archive (start no_member_archive)
              (loaded no_member_archive) 0%nat deck_db deck_manifest deck_rows
              deck_refs deck_notes [(lit "0", lit "a.png")] (lit "a.png")
              (lit "0") eq_refl Hx Hdb Hrows Hnotes Hids Hmedia Hmanifest Hf
              Hentry Hmissing Hchild)
    as (files & Hmain & Hnone & _).
  exists files. by split.
Defined.

(** ** What the loader and the early stages leave behind *)

Section early_facts.
Context `{Platform}.

(** X16. On an archive whose members can be read, however the loader
    ends, it leaves the package, the output directory, the table and the
    media directory as they are, and every temporary file that existed
    before with its contents.  When it returns, the path it returns was not
    in use before, a file is there now, and no other temporary file has
    been added or changed. *)
Theorem loader_changes_only_its_file (zf : archive) (w : world) :
  exists r w',
    extract_collection_db zf w = (r, w') /\
    apkg w' = apkg w /\ same_output w w' /\
    (forall p, is_Some (tmp_files w !! p) ->
               tmp_files w' !! p = tmp_files w !! p) /\
    (forall tmp_path,
       r = Ok tmp_path ->
       tmp_files w !! tmp_path = None /\
       is_Some (tmp_files w' !! tmp_path) /\
       forall p, p <> tmp_path -> tmp_files w' !! p = tmp_files w !! p).
Proof.
  assert (forall p (data : bytes),
            is_Some (tmp_files w !! p) ->
            <[fresh (dom (tmp_files w)) := data]> (tmp_files w) !! p =
              tmp_files w !! p) as Hkept.
  { intros p data Hp. apply lookup_insert_ne. intros <-.
    rewrite fresh_tmp_unused in Hp. by destruct Hp. }
  assert (forall (data : bytes) tmp_path,
            Ok (fresh (dom (tmp_files w))) = Ok tmp_path ->
            tmp_files w !! tmp_path = None /\
            is_Some (<[fresh (dom (tmp_files w)) := data]> (tmp_files w)
                       !! tmp_path) /\
            forall p, p <> tmp_path ->
                      <[fresh (dom (tmp_files w)) := data]> (tmp_files w) !! p =
                        tmp_files w !! p) as Hnew_file.
  { intros data tmp_path [= <-]. split; [apply fresh_tmp_unused|].
    split; [rewrite lookup_insert_eq; by eexists|].
    intros p Hp. by apply lookup_insert_ne. }
  destruct (decide (anki21b ∈ namelist zf)) as [Hnew|Hnew].
  - destruct (zf_read_present _ _ Hnew) as [compressed Hread].
    rewrite (extract_newer zf w compressed) by done. cbv zeta.
    destruct (zstd_decompress compressed) as [d|]; eexists _, _;
      (split; [reflexivity|]); (split; [done|]); (split; [done|]).
    + split; [intros p Hp; by apply Hkept|apply Hnew_file].
    + split; [intros p Hp; by apply Hkept|by intros tmp_path [=]].
  - destruct (decide (anki2 ∈ namelist zf)) as [Hold|Hold].
    + destruct (zf_read_present _ _ Hold) as [data Hread].
      rewrite (extract_legacy zf w data) by done. cbv zeta.
      eexists _, _. split; [reflexivity|]. split; [done|]. split; [done|].
      split; [intros p Hp; by apply Hkept|apply Hnew_file].
    + rewrite extract_neither by done. eexists _, _.
      split; [reflexivity|]. split; [done|]. split; [done|].
      split; [done|by intros tmp_path [=]].
Qed.

(** X17. When the query on the extracted database fails, or a row it
    returns has fewer than two fields, [main] stops with the error before
    anything is written: the temporary database has been deleted, and the
    output directory, the table and the media directory are untouched. *)
Theorem early_failure_writes_nothing (zf : archive) (w w1 : world)
    (tmp_path : nat) (db : bytes) :
  apkg w = Some zf ->
  extract_collection_db zf w = (Ok tmp_path, w1) ->
  tmp_files w1 !! tmp_path = Some db ->
  (sqlite_select_notes db ANKING_MODEL_ID = None ->
   main w = (Raise DatabaseError, w)) /\
  (forall rows r,
     sqlite_select_notes db ANKING_MODEL_ID = Some rows ->
     r ∈ rows -> len (split FIELD_SEP (row_flds r)) < 2 ->
     main w = (Raise IndexError, w)).
Proof.
  intros Hzf Hx Hdb. rewrite (main_run zf) by done.
  destruct (extract_ok_shape _ _ _ _ Hx) as [Hfresh [db0 ->]].
  cbn [tmp_files] in Hdb. rewrite lookup_insert_eq in Hdb.
  injection Hdb as ->. split.
  - intros Hnone. unfold run_on. unfold io_bind at 1. rewrite Hx.
    unfold io_bind at 1.
    unfold try_finally, query_notes, io_bind, tmp_contents.
    cbn. rewrite lookup_insert_eq, Hnone.
    cbv [io_ret io_raise io_lift unlink]. cbn.
    rewrite lookup_insert_eq, delete_insert_id by done. by destruct w.
  - intros rows r Hrows Hin Hshort.
    unfold run_on. unfold io_bind at 1. rewrite Hx. unfold io_bind at 1.
    rewrite (query_stage_rows w tmp_path db rows Hfresh Hrows).
    unfold io_bind at 1, io_lift at 1.
    by rewrite (transform_all_short rows ∅ [] r Hin Hshort).
Qed.

End early_facts.

Lemma early_failure_writes_nothing_witness :
  (apkg (start bad_db_archive) = Some bad_db_archive /\
   @extract_collection_db test_platform bad_db_archive (start bad_db_archive) =
     (Ok 0%nat, World (Some bad_db_archive) {[ 0%nat := [xff] ]} false None None) /\
   @sqlite_select_notes test_platform [xff] ANKING_MODEL_ID = None /\
   @main test_platform (start bad_db_archive) =
     (Raise DatabaseError, start bad_db_archive)) /\
  (apkg (start short_archive) = Some short_archive /\
   @extract_collection_db test_platform short_archive (start short_archive) =
     (Ok 0%nat,
      World (Some short_archive) {[ 0%nat := blit "one field" ]} false None None) /\
   @sqlite_select_notes test_platform (blit "one field") ANKING_MODEL_ID =
     Some [Row 1 (lit "one field") []] /\
   len (split FIELD_SEP (row_flds (Row 1 (lit "one field") []))) < 2 /\
   @main test_platform (start short_archive) =
     (Raise IndexError, start short_archive)).
Proof.
  split.
  - assert (@extract_collection_db test_platform bad_db_archive
              (start bad_db_archive) =
              (Ok 0%nat,
               World (Some bad_db_archive) {[ 0%nat := [xff] ]} false None None))
      as Hx by (vm_compute; reflexivity).
    assert (@sqlite_select_notes test_platform [xff] ANKING_MODEL_ID = None)
      as Hnone by (vm_compute; reflexivity).
    split; [reflexivity|]. do 2 (split; [assumption|]).
    refine (proj1 (@early_failure_writes_nothing test_platform bad_db_archive
                     (start bad_db_archive) _ 0%nat [xff] eq_refl Hx _) Hnone).
    vm_compute. reflexivity.
  - assert (@extract_collection_db test_platform short_archive
              (start short_archive) =
              (Ok 0%nat,
               World (Some short_archive) {[ 0%nat := blit "one field" ]}
                 false None None))
      as Hx by (vm_compute; reflexivity).
    assert (@sqlite_select_notes test_platform (blit "one field")
              ANKING_MODEL_ID = Some [Row 1 (lit "one field") []])
      as Hrows by (vm_compute; reflexivity).
    assert (len (split FIELD_SEP (row_flds (Row 1 (lit "one field") []))) < 2)
      as Hshort by (vm_compute; reflexivity).
    split; [reflexivity|]. do 3 (split; [assumption|]).
    refine (proj2 (@early_failure_writes_nothing test_platform short_archive
                     (start short_archive) _ 0%nat (blit "one field")
                     eq_refl Hx _) _ _ Hrows _ Hshort).
    + vm_compute. reflexivity.
    + by left.
Defined.

(** ** Protecting and restoring the images *)

(** *** The characters of a placeholder *)








(** *** The pieces of a scan *)





(** *** Stripping the tags around the placeholders *)









(** *** Replacing one placeholder *)














(** *** Restoring the images *)







(** *** The sanitizer on a text with images *)



Section image_facts.
Context `{Platform}.

(** What the script relies on from [html.unescape]: a text without an
    ampersand has no character reference and is returned as it is. *)
Hypothesis unescape_plain : forall s : str, chr "&" ∉ s -> html_unescape s = s.



End image_facts.



(** ** Markup the collector finds *)

Lemma scan_prefix_absent (c : N -> bool) (re : regex) (pre u : str) :
  Forall (fun a => c a = false) pre ->
  scan (One c :: re) (pre ++ u) 0 = (Text <$> pre) ++ scan (One c :: re) u 0.
Proof.
  induction 1 as [|a pre Ha _ IH]; [done|].
  simpl app. rewrite scan_cons. unfold match_here. cbn [run]. rewrite Ha.
  by rewrite IH.
Qed.

Lemma findall_at (re : regex) (pre : str) (a : N) (u : str) (n gs ge : nat) :
  scan re (pre ++ a :: u) 0 = (Text <$> pre) ++ scan re (a :: u) 0 ->
  match_here re (a :: u) = Some (S n, (gs, ge)) ->
  take (ge - gs) (drop gs (a :: u)) ∈ findall re (pre ++ a :: u).
Proof.
  intros Hscan Hmatch. apply findall_scan. exists (take (S n) (a :: u)).
  rewrite Hscan, elem_of_app. right.
  rewrite scan_cons, Hmatch. by left.
Qed.

Lemma rep_greedy_stop {R} (k : str -> nat -> option R) (c : N -> bool)
    (s : str) (n : nat) :
  stops c s -> rep k c 0 true s n = k s n.
Proof. destruct s as [|a s]; simpl; [done|]. by intros ->. Qed.

Lemma match_here_sound_marker (f post : str) :
  f <> [] -> chr "]" ∉ f ->
  match_here RE_SOUND_REF (lit "[sound:" ++ f ++ chr "]" :: post) =
    Some (S (7 + length f), (7, 7 + length f))%nat.
Proof.
  intros Hne Hnot. unfold match_here, RE_SOUND_REF.
  change (lit "[sound:" ++ f ++ chr "]" :: post)
    with (chr "[" :: chr "s" :: chr "o" :: chr "u" :: chr "n" :: chr "d"
            :: chr ":" :: (f ++ chr "]" :: post)).
  cbn [run]. unfold is_char at 1 2 3 4 5 6 7. rewrite !N.eqb_refl.
  cbn [fst snd].
  rewrite rep_greedy_run.
  - rewrite decide_True by (destruct f; [done|simpl; lia]).
    cbn [run fst snd]. unfold is_char. by rewrite N.eqb_refl.
  - intros a s n Ha. cbn [run]. unfold not_char in Ha. unfold is_char.
    by apply negb_true_iff in Ha as ->.
  - apply Forall_forall. intros a Ha. unfold not_char.
    apply negb_true_iff, N.eqb_neq. by intros ->.
  - simpl. unfold not_char. by rewrite N.eqb_refl.
Qed.

Lemma is_quote_cases (q : N) : is_quote q = true -> q = 0x22%N \/ q = 0x27%N.
Proof.
  unfold is_quote, one_of. rewrite bool_decide_eq_true, !elem_of_cons.
  intros [->|[->|?%elem_of_nil]]; tauto.
Qed.

Lemma match_here_img_element (q q' : N) (f post : str) :
  is_quote q = true -> is_quote q' = true ->
  f <> [] -> Forall (fun c => is_quote c = false) f ->
  match_here RE_IMG_TAG
    (lit "<img src=" ++ q :: f ++ q' :: chr ">" :: post) =
    Some (S (11 + length f), (10, 10 + length f))%nat.
Proof.
  intros Hq Hq' Hne Hf. unfold match_here, RE_IMG_TAG.
  change (lit "<img src=" ++ q :: f ++ q' :: chr ">" :: post)
    with (chr "<" :: chr "i" :: chr "m" :: chr "g" :: chr " " :: chr "s"
            :: chr "r" :: chr "c" :: chr "=" :: q
            :: (f ++ q' :: chr ">" :: post)).
  assert (is_char "<" (chr "<") = true) as H1 by reflexivity.
  assert (is_i (chr "i") = true) as H2 by reflexivity.
  assert (is_m (chr "m") = true) as H3 by reflexivity.
  assert (is_g (chr "g") = true) as H4 by reflexivity.
  assert (is_space (chr " ") = true) as H5 by reflexivity.
  assert (is_s (chr "s") = true) as H6 by reflexivity.
  assert (is_r (chr "r") = true) as H7 by reflexivity.
  assert (is_c (chr "c") = true) as H8 by reflexivity.
  assert (is_space (chr "=") = false) as H9 by reflexivity.
  assert (is_char "=" (chr "=") = true) as H10 by reflexivity.
  assert (is_space q = false) as H11
    by (by destruct (is_quote_cases q Hq) as [->| ->]).
  assert (is_char ">" (chr ">") = true) as H12 by reflexivity.
  cbn [run rep fst snd].
  rewrite H1, H2, H3, H4, H5, H6, H7, H8, H9, H10, H11, Hq.
  rewrite rep_greedy_run.
  - rewrite decide_True by (destruct f; [done|simpl; lia]).
    cbn [run rep fst snd]. by rewrite Hq', H12.
  - intros a s n Ha. cbn [run]. unfold not_quote in Ha.
    by apply negb_true_iff in Ha as ->.
  - eapply Forall_impl; [exact Hf|]. intros a Ha. unfold not_quote.
    by rewrite Ha.
  - simpl. unfold not_quote. by rewrite Hq'.
Qed.

Lemma findall_sound_marker (pre f post : str) :
  f <> [] -> chr "[" ∉ pre -> chr "]" ∉ f ->
  f ∈ findall RE_SOUND_REF (pre ++ lit "[sound:" ++ f ++ chr "]" :: post).
Proof.
  intros Hne Hpre Hf.
  pose proof (match_here_sound_marker f post Hne Hf) as Hmatch.
  pose proof (scan_prefix_absent (is_char "[") (tail RE_SOUND_REF) pre
                (lit "[sound:" ++ f ++ chr "]" :: post) (absent_char _ _ Hpre))
    as Hscan.
  change (One (is_char "[") :: tail RE_SOUND_REF) with RE_SOUND_REF in Hscan.
  change (lit "[sound:" ++ f ++ chr "]" :: post)
    with (chr "[" :: (lit "sound:" ++ f ++ chr "]" :: post)) in *.
  pose proof (findall_at _ _ _ _ _ _ _ Hscan Hmatch) as Hin.
  replace (7 + length f - 7)%nat with (length f) in Hin by lia.
  change (drop 7 (chr "[" :: lit "sound:" ++ f ++ chr "]" :: post))
    with (f ++ chr "]" :: post) in Hin.
  by rewrite take_app_length in Hin.
Qed.

Lemma findall_img_element (pre f post : str) (q q' : N) :
  f <> [] -> chr "<" ∉ pre ->
  is_quote q = true -> is_quote q' = true ->
  Forall (fun c => is_quote c = false) f ->
  f ∈ findall RE_IMG_TAG
        (pre ++ lit "<img src=" ++ q :: f ++ q' :: chr ">" :: post).
Proof.
  intros Hne Hpre Hq Hq' Hf.
  pose proof (match_here_img_element q q' f post Hq Hq' Hne Hf) as Hmatch.
  pose proof (scan_prefix_absent (is_char "<") (tail RE_IMG_TAG) pre
                (lit "<img src=" ++ q :: f ++ q' :: chr ">" :: post)
                (absent_char _ _ Hpre))
    as Hscan.
  change (One (is_char "<") :: tail RE_IMG_TAG) with RE_IMG_TAG in Hscan.
  change (lit "<img src=" ++ q :: f ++ q' :: chr ">" :: post)
    with (chr "<" :: (lit "img src=" ++ q :: f ++ q' :: chr ">" :: post)) in *.
  pose proof (findall_at _ _ _ _ _ _ _ Hscan Hmatch) as Hin.
  replace (10 + length f - 10)%nat with (length f) in Hin by lia.
  change (drop 10 (chr "<" :: lit "img src=" ++ q :: f ++ q' :: chr ">" :: post))
    with (f ++ q' :: chr ">" :: post) in Hin.
  by rewrite take_app_length in Hin.
Qed.

(** X18. Markup in its plain form is collected from either field: the
    name of an audio marker [[sound:NAME]] that no [[] precedes, and the
    source of an image element [<img src=QNAMEQ>], [Q] either quote
    character, that no [<] precedes; the name non-empty and free of []] and
    of quote characters respectively. *)
Theorem plain_markup_is_collected (pre f post other : str) :
  f <> [] ->
  (chr "[" ∉ pre -> chr "]" ∉ f ->
   f ∈ collect_media_refs
         (pre ++ lit "[sound:" ++ f ++ chr "]" :: post) other /\
   f ∈ collect_media_refs
         other (pre ++ lit "[sound:" ++ f ++ chr "]" :: post)) /\
  (forall q q',
     chr "<" ∉ pre -> is_quote q = true -> is_quote q' = true ->
     Forall (fun c => is_quote c = false) f ->
     f ∈ collect_media_refs
           (pre ++ lit "<img src=" ++ q :: f ++ q' :: chr ">" :: post) other /\
     f ∈ collect_media_refs
           other (pre ++ lit "<img src=" ++ q :: f ++ q' :: chr ">" :: post)).
Proof.
  intros Hne. split.
  - intros Hpre Hf.
    pose proof (findall_sound_marker pre f post Hne Hpre Hf) as Hin.
    rewrite !collect_media_refs_elem. tauto.
  - intros q q' Hpre Hq Hq' Hf.
    pose proof (findall_img_element pre f post q q' Hne Hpre Hq Hq' Hf) as Hin.
    rewrite !collect_media_refs_elem. tauto.
Qed.

Lemma plain_markup_is_collected_witness :
  lit "b.mp3" <> [] /\ (chr "[" ∉ lit "hear ") /\ (chr "]" ∉ lit "b.mp3") /\
  lit "b.mp3" ∈ collect_media_refs
                  (lit "hear " ++ lit "[sound:" ++ lit "b.mp3" ++ chr "]" :: [])
                  (lit "extra").
Proof.
  assert (lit "b.mp3" <> []) as Hne by done.
  assert (chr "[" ∉ lit "hear ") as Hpre by by_eval.
  assert (chr "]" ∉ lit "b.mp3") as Hf by by_eval.
  do 3 (split; [assumption|]).
  exact (proj1 (proj1 (plain_markup_is_collected (lit "hear ") (lit "b.mp3") []
                         (lit "extra") Hne) Hpre Hf)).
Defined.

(** ** The notes that are written *)

Section note_shape.
Context `{Platform}.

Lemma transform_note_inv (r : row) (n : note) (refs : gset str) :
  transform_note r = Ok (n, refs) ->
  exists raw_text raw_extra rest marker,
    split FIELD_SEP (row_flds r) = raw_text :: raw_extra :: rest /\
    n = Note (row_id r) (clean_text raw_text) (clean_text raw_extra)
          (count_cloze_numbers raw_text)
          (if is_one_by_one_truthy marker then 1 else 0) (row_tags r) /\
    refs = collect_media_refs (clean_text raw_text) (clean_text raw_extra)
             ∪ collect_media_refs raw_text raw_extra.
Proof.
  unfold transform_note.
  destruct (split FIELD_SEP (row_flds r)) as [|raw_text [|raw_extra rest]];
    [done..|].
  rewrite (getitem_nonneg _ IDX_TEXT), (getitem_nonneg _ IDX_EXTRA)
    by (unfold IDX_TEXT, IDX_EXTRA; lia).
  change (Z.to_nat IDX_TEXT) with 0%nat. change (Z.to_nat IDX_EXTRA) with 1%nat.
  cbn [lookup list_lookup mbind outcome_bind].
  destruct (if IDX_ONE_BY_ONE <? len (raw_text :: raw_extra :: rest)
            then getitem (raw_text :: raw_extra :: rest) IDX_ONE_BY_ONE
            else Ok []) as [marker|e|]; [|done..].
  cbn [mbind outcome_bind]. intros [= <- <-].
  by exists raw_text, raw_extra, rest, marker.
Qed.

Lemma clean_text_shape (raw : str) :
  trimmed (clean_text raw) /\ has_triple (clean_text raw) = false.
Proof.
  unfold clean_text.
  destruct (sub_fn RE_IMG_TAG _save_img [] raw) as [img_placeholders text].
  rewrite sub_emit, collapse_squeeze_emit. split.
  - apply squeeze_trimmed, strip_trimmed.
  - apply squeeze_no_triple.
Qed.

(** X19. Every note the loop writes has a text and an extra field that
    neither start nor end with white space and hold no three newlines in a
    row, a card count that is not negative, and a marker that is 0 or 1;
    and no media reference collected with it is the empty name. *)
Theorem note_invariants (r : row) (n : note) (refs : gset str) :
  transform_note r = Ok (n, refs) ->
  trimmed (note_text n) /\ has_triple (note_text n) = false /\
  trimmed (note_extra n) /\ has_triple (note_extra n) = false /\
  0 <= num_cards n /\ (one_by_one n = 0 \/ one_by_one n = 1) /\
  [] ∉ refs.
Proof.
  intros (raw_text & raw_extra & rest & marker & _ & -> & ->)%transform_note_inv.
  cbn [note_text note_extra num_cards one_by_one].
  destruct (clean_text_shape raw_text) as [Htext Htext'].
  destruct (clean_text_shape raw_extra) as [Hextra Hextra'].
  do 4 (split; [done|]). split; [unfold count_cloze_numbers; lia|].
  split; [destruct (is_one_by_one_truthy marker); tauto|].
  rewrite elem_of_union, !collect_media_refs_elem.
  intros [[Hf|[Hf|[Hf|Hf]]]|[Hf|[Hf|[Hf|Hf]]]];
    first [by apply img_ref_inv in Hf as [? _]
          |by apply sound_ref_inv in Hf as [? _]].
Qed.

End note_shape.

Lemma note_invariants_witness :
  @transform_note test_platform
    (Row 1 (lit " <b>see</b> <img src='a.png'>" ++ [FIELD_SEP] ++ lit "extra") []) =
    Ok (Note 1 (lit "see <img src='a.png'>") (lit "extra") 0 0 [],
        {[ lit "a.png" ]}) /\
  trimmed (lit "see <img src='a.png'>") /\
  ([] : str) ∉ ({[ lit "a.png" ]} : gset str).
Proof.
  assert (@transform_note test_platform
            (Row 1 (lit " <b>see</b> <img src='a.png'>" ++ [FIELD_SEP]
                      ++ lit "extra") []) =
            Ok (Note 1 (lit "see <img src='a.png'>") (lit "extra") 0 0 [],
                {[ lit "a.png" ]})) as Hnote
    by (vm_compute; reflexivity).
  split; [exact Hnote|].
  destruct (@note_invariants test_platform _ _ _ Hnote)
    as (Htext & _ & _ & _ & _ & _ & Hrefs).
  split; [exact Htext|exact Hrefs].
Defined.

(** * The concept matcher *)

(** ** The order of strings and [sorted] *)

Lemma str_le_total : Total str_le.
Proof.
  intros a. induction a as [|x a IH]; intros [|y b]; unfold str_le in *; simpl;
    try (by left); try (by right).
  destruct (N.ltb_spec x y), (N.ltb_spec y x); try lia;
    try (by left); try (by right). apply IH.
Qed.

Lemma str_le_trans : Transitive str_le.
Proof.
  intros a. induction a as [|x a IH]; intros [|y b] [|z c]; unfold str_le in *;
    simpl; try done.
  destruct (N.ltb_spec x y), (N.ltb_spec y x), (N.ltb_spec y z),
    (N.ltb_spec z y), (N.ltb_spec x z), (N.ltb_spec z x);
    try lia; try done.
  apply IH.
Qed.

Lemma str_le_antisymm : AntiSymm (=) str_le.
Proof.
  intros a. induction a as [|x a IH]; intros [|y b]; unfold str_le in *; simpl;
    try done.
  destruct (N.ltb_spec x y), (N.ltb_spec y x); try lia; try done.
  intros Hab Hba. f_equal; [lia|by apply IH].
Qed.

Lemma sorted_permutation (s : gset str) : sorted s ≡ₚ elements s.
Proof. apply merge_sort_Permutation. Qed.

(** X20. [sorted] of a set of strings is the list of its elements,
    each once, in ascending order of code points with a proper prefix
    first; it is the only such list, so the order in which the set happens
    to be iterated does not show in the result. *)
Theorem sorted_semantic_types (s : gset str) :
  Sorted str_le (sorted s) /\ NoDup (sorted s) /\
  (forall t, t ∈ sorted s <-> t ∈ s) /\
  (forall l,
     Sorted str_le l -> NoDup l -> (forall t, t ∈ l <-> t ∈ s) ->
     l = sorted s).
Proof.
  pose proof (@Sorted_merge_sort _ str_le _ str_le_total (elements s))
    as Hsorted.
  assert (NoDup (sorted s)) as Hnodup.
  { rewrite sorted_permutation. apply NoDup_elements. }
  assert (forall t, t ∈ sorted s <-> t ∈ s) as Helem.
  { intros t. by rewrite sorted_permutation, elem_of_elements. }
  split; [exact Hsorted|]. split; [exact Hnodup|]. split; [exact Helem|].
  intros l Hl Hdistinct Hsame.
  apply (@Sorted_unique _ str_le str_le_trans str_le_antisymm);
    [done|exact Hsorted|].
  apply NoDup_Permutation; [done..|]. intros t. by rewrite Hsame, Helem.
Qed.

Lemma sorted_semantic_types_witness :
  Sorted str_le [lit "T047"; lit "T191"] /\
  NoDup [lit "T047"; lit "T191"] /\
  (forall t, t ∈ [lit "T047"; lit "T191"] <->
             t ∈ ({[ lit "T191"; lit "T047" ]} : gset str)) /\
  [lit "T047"; lit "T191"] = sorted {[ lit "T191"; lit "T047" ]}.
Proof.
  assert (Sorted str_le [lit "T047"; lit "T191"]) as Hsorted by by_eval.
  assert (NoDup [lit "T047"; lit "T191"]) as Hnodup by by_eval.
  assert (forall t, t ∈ [lit "T047"; lit "T191"] <->
                    t ∈ ({[ lit "T191"; lit "T047" ]} : gset str)) as Hsame.
  { intros t.
    rewrite !elem_of_cons, elem_of_nil, elem_of_union, !elem_of_singleton.
    tauto. }
  do 3 (split; [assumption|]).
  exact (proj2 (proj2 (proj2 (sorted_semantic_types _))) _ Hsorted Hnodup Hsame).
Defined.

Section matcher_facts.
Context `{Platform} `{Floats}.

(** ** The filter *)

Lemma is_good_false (c : candidate) : is_good c = false <-> only_noisy c.
Proof.
  unfold is_good, only_noisy.
  rewrite orb_false_iff, bool_decide_eq_false, negb_false_iff,
    bool_decide_eq_true.
  destruct (key_semtypes c) as [sem_types|]; simpl.
  - split; [intros [Hne Hsub]; by exists sem_types|].
    by intros (s & [= <-] & Hne & Hsub).
  - split; [by intros [Hne _]|by intros (s & ? & _)].
Qed.

Lemma collect_good_filter (span_matches : list candidate) : forall good,
  collect_good span_matches good =
    good ++ filter (fun c => is_good c = true) span_matches.
Proof.
  induction span_matches as [|c rest IH]; intros good; simpl.
  - by rewrite app_nil_r.
  - rewrite IH, filter_cons. destruct (is_good c).
    + rewrite decide_True by done. by rewrite <- app_assoc.
    + by rewrite decide_False by done.
Qed.

Lemma max_from_elem {A} (key : A -> float) (rest : list A) : forall best,
  max_from key best rest ∈ best :: rest.
Proof.
  induction rest as [|x rest IH]; intros best; simpl; [by left|].
  specialize (IH (if float_gt (key x) (key best) then x else best)).
  apply elem_of_cons in IH as [->|IH]; [|by do 2 right].
  destruct (float_gt (key x) (key best)); [by right; left|by left].
Qed.

(** X21. A span gives no match exactly when it is empty, or the lower
    case of its first candidate's text is a stop word, or every candidate
    has semantic types and all of them are noisy; a candidate without
    semantic types passes the filter.  Otherwise the match is made of the
    fields of one candidate of the span that passed the filter, each field
    with its default where the key is missing. *)
Theorem span_dropped_iff (span_matches : list candidate) :
  (match_span span_matches = None <->
   span_matches = [] \/
   (exists first rest,
      span_matches = first :: rest /\
      str_lower (default [] (key_ngram first)) ∈ STOP_WORDS) \/
   Forall only_noisy span_matches) /\
  (forall m,
     match_span span_matches = Some m ->
     exists best,
       best ∈ span_matches /\ ~ only_noisy best /\ m = to_match best).
Proof.
  unfold match_span. destruct span_matches as [|first rest].
  { split; [|done]. split; [by left|done]. }
  rewrite collect_good_filter, app_nil_l.
  set (span_matches := first :: rest).
  destruct (bool_decide_reflect
              (str_lower (default [] (key_ngram first)) ∈ STOP_WORDS))
    as [Hstop|Hstop].
  { split; [|done]. split; [|done]. intros _. right. left. by exists first, rest. }
  destruct (filter (fun c => is_good c = true) span_matches)
    as [|g good] eqn:Hgood.
  - split; [|done]. split; [|done]. intros _. right. right.
    apply Forall_forall. intros c Hc. apply is_good_false.
    destruct (is_good c) eqn:Hc'; [|done].
    assert (c ∈ filter (fun c => is_good c = true) span_matches) as Hin
      by by apply list_elem_of_filter.
    rewrite Hgood in Hin. by apply elem_of_nil in Hin.
  - assert (forall c, c ∈ g :: good -> c ∈ span_matches /\ ~ only_noisy c)
      as Hfrom.
    { intros c Hc. rewrite <- Hgood in Hc.
      apply list_elem_of_filter in Hc as [Hc Hin]. split; [done|].
      intros Hnoisy%is_good_false. congruence. }
    split.
    + split; [done|]. intros [?|[(f & r & [= <- <-] & Hs)|Hall]]; [done..|].
      exfalso. destruct (Hfrom g) as [Hin Hnot]; [by left|].
      rewrite Forall_forall in Hall. by apply Hnot, Hall.
    + intros m [= <-]. exists (max_from get_similarity g good).
      destruct (Hfrom (max_from get_similarity g good)) as [Hin Hnot];
        [apply max_from_elem|]. done.
Qed.

(** ** The best candidate *)

Section order.

(** The comparison [>] of floats other than NaN: no two scores are each
    greater than the other, and a score that is not below a second one,
    which is not below a third, is not below the third. *)
Hypothesis gt_asymm :
  forall a b, float_gt a b = true -> float_gt b a = false.
Hypothesis gt_between :
  forall a b c, float_gt a c = true -> float_gt a b = true \/ float_gt b c = true.

Lemma gt_trans (a b c : float) :
  float_gt a b = true -> float_gt b c = true -> float_gt a c = true.
Proof.
  intros Hab Hbc. destruct (gt_between a c b Hab) as [Hac|Hcb]; [done|].
  apply gt_asymm in Hbc. congruence.
Qed.

Lemma max_from_first {A} (key : A -> float) (rest : list A) : forall best,
  exists pre post,
    best :: rest = pre ++ max_from key best rest :: post /\
    (forall c, c ∈ pre -> float_gt (key (max_from key best rest)) (key c) = true) /\
    (forall c, c ∈ post -> float_gt (key c) (key (max_from key best rest)) = false).
Proof.
  induction rest as [|x rest IH]; intros best.
  { exists [], []. split; [done|]. split; by intros c ?%elem_of_nil. }
  cbn [max_from]. destruct (float_gt (key x) (key best)) eqn:Hx.
  - destruct (IH x) as (pre & post & Heq & Hpre & Hpost).
    exists (best :: pre), post. split; [by rewrite Heq|]. split; [|done].
    intros c [->|Hc]%elem_of_cons; [|by apply Hpre].
    destruct pre as [|p pre].
    + injection Heq as <- _. done.
    + injection Heq as <- _. apply (gt_trans _ (key x)); [|done].
      apply Hpre. by left.
  - destruct (IH best) as (pre & post & Heq & Hpre & Hpost).
    destruct pre as [|p pre].
    + injection Heq as Hbest Hrest. exists [], (x :: post).
      split; [by rewrite <- Hbest, <- Hrest|]. split; [by intros c ?%elem_of_nil|].
      intros c [->|Hc]%elem_of_cons; [|by apply Hpost].
      by rewrite <- Hbest.
    + injection Heq as <- Hrest. exists (best :: x :: pre), post.
      split; [simpl; do 2 f_equal; exact Hrest|]. split; [|done].
      intros c [->|[->|Hc]%elem_of_cons]%elem_of_cons.
      * apply Hpre. by left.
      * destruct (gt_between _ (key x) _ (Hpre best ltac:(by left)))
          as [Hgt|Hgt]; [done|congruence].
      * apply Hpre. by right.
Qed.

(** X22. The match of a span is made from the candidate of the greatest
    similarity among those that passed the filter, a missing similarity
    counting as [0.0]; among several of the greatest similarity it is the
    first: every candidate before it that passed has a smaller similarity,
    and none after it has a greater one. *)
Theorem best_is_first_maximum (span_matches : list candidate) (m : UMLSMatch) :
  match_span span_matches = Some m ->
  exists pre best post,
    filter (fun c => is_good c = true) span_matches = pre ++ best :: post /\
    m = to_match best /\
    (forall c, c ∈ pre ->
       float_gt (get_similarity best) (get_similarity c) = true) /\
    (forall c, c ∈ post ->
       float_gt (get_similarity c) (get_similarity best) = false).
Proof.
  unfold match_span. destruct span_matches as [|first rest]; [done|].
  rewrite collect_good_filter, app_nil_l.
  destruct (bool_decide _); [done|].
  destruct (filter _ (first :: rest)) as [|g good]; [done|].
  intros [= <-].
  destruct (max_from_first get_similarity good g)
    as (pre & post & Heq & Hpre & Hpost).
  by exists pre, (max_from get_similarity g good), post.
Qed.

End order.

(** ** The results *)

Lemma match_spans_omap (raw : list (list candidate)) : forall results,
  match_spans raw results = results ++ omap match_span raw.
Proof.
  induction raw as [|span_matches raw IH]; intros results; simpl.
  - by rewrite app_nil_r.
  - rewrite IH. destruct (match_span span_matches); [|done].
    by rewrite <- app_assoc.
Qed.

(** X23. The matches come in the order of the spans, at most one per
    span: they are the matches of a selection of the spans QuickUMLS
    returned, in the same order, and a span is left out only when it gives
    no match. *)
Theorem matches_follow_spans (quickumls_match : str -> list (list candidate))
    (text : str) :
  exists kept,
    kept `sublist_of` quickumls_match text /\
    Forall2 (fun span_matches m => match_span span_matches = Some m)
      kept (match_text quickumls_match text) /\
    forall span_matches,
      span_matches ∈ quickumls_match text -> span_matches ∉ kept ->
      match_span span_matches = None.
Proof.
  unfold match_text. rewrite match_spans_omap, app_nil_l.
  induction (quickumls_match text) as [|span_matches raw (kept & Hsub & Hall & Hrest)].
  - exists []. split; [constructor|]. split; [constructor|].
    by intros s ?%elem_of_nil.
  - simpl. destruct (match_span span_matches) as [m|] eqn:Hm.
    + exists (span_matches :: kept). split; [by constructor|].
      split; [by constructor|].
      intros s [->|Hs]%elem_of_cons [Hne Hnot]%not_elem_of_cons; [done|].
      by apply Hrest.
    + exists kept. split; [by constructor|]. split; [done|].
      intros s [->|Hs]%elem_of_cons Hnot; [done|]. by apply Hrest.
Qed.

End matcher_facts.

Lemma span_dropped_iff_witness :
  (exists first rest,
     the_span = first :: rest /\
     @str_lower test_platform (default [] (key_ngram first)) ∈ STOP_WORDS) /\
  @match_span test_platform test_floats the_span = None.
Proof.
  assert (exists first rest,
            the_span = first :: rest /\
            @str_lower test_platform (default [] (key_ngram first)) ∈ STOP_WORDS)
    as Hstop.
  { eexists _, _. split; [reflexivity|]. by_eval. }
  split; [exact Hstop|].
  exact (proj2 (proj1 (@span_dropped_iff test_platform test_floats the_span))
           (or_intror (or_introl Hstop))).
Defined.

Lemma best_is_first_maximum_witness :
  (forall a b, @float_gt test_floats a b = true ->
               @float_gt test_floats b a = false) /\
  (forall a b c, @float_gt test_floats a c = true ->
                 @float_gt test_floats a b = true \/
                 @float_gt test_floats b c = true) /\
  @match_span test_platform test_floats fever_span =
    Some (to_match (fever "C03" "T047" 90)) /\
  exists pre best post,
    filter (fun c => is_good c = true) fever_span = pre ++ best :: post /\
    to_match (fever "C03" "T047" 90) = to_match best /\
    (forall c, c ∈ pre ->
       @float_gt test_floats (get_similarity best) (get_similarity c) = true) /\
    (forall c, c ∈ post ->
       @float_gt test_floats (get_similarity c) (get_similarity best) = false).
Proof.
  assert (forall a b, @float_gt test_floats a b = true ->
                      @float_gt test_floats b a = false) as Hasymm.
  { intros a b. simpl. rewrite !Z.gtb_ltb, Z.ltb_lt, Z.ltb_ge. lia. }
  assert (forall a b c, @float_gt test_floats a c = true ->
                        @float_gt test_floats a b = true \/
                        @float_gt test_floats b c = true) as Hbetween.
  { intros a b c. simpl. rewrite !Z.gtb_ltb, !Z.ltb_lt. lia. }
  assert (@match_span test_platform test_floats fever_span =
            Some (to_match (fever "C03" "T047" 90))) as Hspan
    by (vm_compute; reflexivity).
  do 3 (split; [assumption|]).
  exact (@best_is_first_maximum test_platform test_floats Hasymm Hbetween
           fever_span _ Hspan).
Defined.
